(** * Graph traversal utilities of the Model Optimizer (mo/utils/graph.py)

    A shallow embedding of the traversal and sub-graph extraction functions
    of [mo/utils/graph.py], and the properties of them that the
    specification states.

    Node names are Python [str], modelled as [string].  A Python [set] of
    node names is a [gset string]; a [deque] or [list] is a [list string];
    the [networkx.MultiDiGraph] is a record with its node list, its edge
    list (parallel edges are repeated entries) and the attribute
    dictionary of every node.  Every [while] loop of the source is the
    iteration of its body by [while], which counts the iterations it may
    still do: [None] means that the count ran out, never that the loop
    ended. *)

From Stdlib Require Import ZArith List Lia.
From stdpp Require Import base option list gmap strings relations sets fin_sets.

Local Open Scope string_scope.
Local Open Scope list_scope.
Local Open Scope nat_scope.

(** ** Loops *)

(** [while body fuel s]: the loop body maps a state to the next state
    ([inl]) or to the value the function returns when the loop condition
    fails ([inr]). *)
Fixpoint while {St Res : Type} (body : St → St + Res) (fuel : nat) (s : St)
  : option Res :=
  match fuel with
  | O => None
  | S fuel =>
      match body s with
      | inl s' => while body fuel s'
      | inr r => Some r
      end
  end.

(** ** The graph *)

(** The attributes of a node that the functions read: ['kind'], ['op'] and
    ['value'].  [None] stands for an attribute that is absent or [None]. *)
Record NodeAttrs := {
  kind : string;
  op : option string;
  value : option (list Z);
}.

Record Graph := {
  nodes : list string;
  edges : list (string * string);
  node : gmap string NodeAttrs;
}.

(** [graph.out_edges(n)] and [graph.in_edges(n)], in the order the edges
    are stored. *)
Definition out_edges (graph : Graph) (n : string) : list (string * string) :=
  filter (λ e, e.1 = n) (edges graph).

Definition in_edges (graph : Graph) (n : string) : list (string * string) :=
  filter (λ e, e.2 = n) (edges graph).

(** What a function raises instead of returning: the [Error] of
    [mo.utils.error] with what its message names, or Python's [KeyError]. *)
Inductive error_msg :=
  | EndNodeNotReachable (end_node : string) (start_nodes : list string)
  | ContainsNetworkInput (node_name : string).

Inductive exception :=
  | Error (msg : error_msg)
  | KeyError (key : string).

Inductive outcome (A : Type) :=
  | Return (a : A)
  | Raise (e : exception).
Arguments Return {A} a.
Arguments Raise {A} e.

(** [graph.node[n].get('op', '')]: the subscript [graph.node[n]] raises
    [KeyError] when [n] is not a node of the graph; [get] has the default
    [''] for the attribute dictionary that has no ['op']. *)
Definition get_op (graph : Graph) (n : string) : outcome string :=
  match node graph !! n with
  | Some attrs => Return (default "" (op attrs))
  | None => Raise (KeyError n)
  end.

(** ** dfs *)

(** State of the loop of [dfs]: the stack (top first, as [stack[0]] is the
    top), the [visited] set of the caller and [order]. *)
Definition dfs_state : Type := list string * gset string * list string.

Definition dfs_body (graph : Graph) (s : dfs_state)
  : dfs_state + (list string * gset string) :=
  let '(stack, visited, order) := s in
  match stack with
  | [] => inr (order, visited)
  | node_name :: stack =>
      let visited := visited ∪ {[node_name]} in
      match List.find (λ out_node_name, bool_decide (out_node_name ∉ visited))
                      ((out_edges graph node_name).*2) with
      | Some out_node_name =>
          inl (out_node_name :: node_name :: stack, visited, order)
      | None => inl (stack, visited, order ++ [node_name])
      end
  end.

(** [dfs(graph, node_name, visited)] returns [order]; the set [visited] it
    has extended in place is returned with it. *)
Definition dfs (fuel : nat) (graph : Graph) (node_name : string)
    (visited : gset string) : option (list string * gset string) :=
  while (dfs_body graph) fuel ([node_name], visited, []).

(** ** pseudo_topological_sort *)

Definition nodes_without_inputs (graph : Graph) : list string :=
  filter (λ node_name, length (in_edges graph node_name) = 0) (nodes graph).

(** The [for node_name in nodes_without_inputs] loop, threading [visited]
    and [order]. *)
Fixpoint pts_loop (fuel : nat) (graph : Graph) (l : list string)
    (visited : gset string) (order : list string) : option (list string) :=
  match l with
  | [] => Some order
  | node_name :: l =>
      if decide (node_name ∈ visited) then pts_loop fuel graph l visited order
      else
        match dfs fuel graph node_name visited with
        | Some (o, visited) => pts_loop fuel graph l visited (order ++ o)
        | None => None
        end
  end.

Definition pseudo_topological_sort (fuel : nat) (graph : Graph)
    (reverse : bool) : option (list string) :=
  match pts_loop fuel graph (nodes_without_inputs graph) ∅ [] with
  | Some order => Some (if reverse then order else rev order)
  | None => None
  end.

(** ** backward_bfs_for_operation *)

(** Modelled from the spec: the [Node] handle of [mo.graph.graph], which is
    not in the sources here: "indexed access to direct predecessors" and
    "typed accessors for op and value".  [in_nodes graph n] lists
    [n.in_node(0)], [n.in_node(1)], ...; a node without attributes has
    the empty attribute dictionary. *)
Definition in_nodes (graph : Graph) (n : string) : list string :=
  (in_edges graph n).*1.

Definition attrs_of (graph : Graph) (n : string) : NodeAttrs :=
  default {| kind := ""; op := None; value := None |} (node graph !! n).

(** [pnode.has_valid('op') and pnode.op in op_names] *)
Definition op_in (graph : Graph) (pnode : string) (op_names : list string)
  : bool :=
  match op (attrs_of graph pnode) with
  | Some o => bool_decide (o ∈ op_names)
  | None => false
  end.

(** The body of [for id in range(in_nodes_size)], on the queue [q] and
    [ret]. *)
Definition bbfs_visit (graph : Graph) (op_names : list string)
    (s : list string * list string) (pnode : string)
  : list string * list string :=
  let '(q, ret) := s in
  if decide (kind (attrs_of graph pnode) = "op") then
    if op_in graph pnode op_names then
      if decide (pnode ∈ ret) then (q, ret) else (q, ret ++ [pnode])
    else (q ++ [pnode], ret)
  else if decide (kind (attrs_of graph pnode) = "data"
                  ∧ value (attrs_of graph pnode) = None) then
    (q ++ [pnode], ret)
  else (q, ret).

Definition bbfs_body (graph : Graph) (op_names : list string)
    (s : list string * list string)
  : list string * list string + list string :=
  let '(q, ret) := s in
  match q with
  | [] => inr ret
  | n :: q => inl (foldl (bbfs_visit graph op_names) (q, ret) (in_nodes graph n))
  end.

(** The result lists the ids of the [Node] handles returned. *)
Definition backward_bfs_for_operation (fuel : nat) (graph : Graph)
    (start_node : string) (op_names : list string) : option (list string) :=
  while (bbfs_body graph op_names) fuel ([start_node], []).

(** ** is_connected_component *)

Definition icc_visit (s : list string * gset string) (adj_node : string)
  : list string * gset string :=
  let '(d, visited) := s in
  if decide (adj_node ∈ visited) then (d, visited)
  else (d ++ [adj_node], visited ∪ {[adj_node]}).

Definition adj_nodes (graph : Graph) (node_names : list string)
    (cur_node_name : string) : list string :=
  (filter (λ e, e.1 ∈ node_names) (in_edges graph cur_node_name)).*1
  ++ (filter (λ e, e.2 ∈ node_names) (out_edges graph cur_node_name)).*2.

Definition icc_body (graph : Graph) (node_names : list string)
    (s : list string * gset string) : list string * gset string + bool :=
  let '(d, visited) := s in
  match d with
  | [] => inr (bool_decide (list_to_set node_names ⊆ visited))
  | cur_node_name :: d =>
      inl (foldl icc_visit (d, visited ∪ {[cur_node_name]})
                 (adj_nodes graph node_names cur_node_name))
  end.

Definition is_connected_component (fuel : nat) (graph : Graph)
    (node_names : list string) : option bool :=
  match node_names with
  | [] => Some true
  | n0 :: _ => while (icc_body graph node_names) fuel ([n0], {[n0]})
  end.

(** ** sub_graph_between_nodes *)

(** The ['prev'] attribute of the nodes is kept apart from the other
    attributes: a node that is not a key of the map has [prev = None], as
    every node has after [nx.set_node_attributes(graph, name='prev',
    values=None)]. *)
Definition grow_state : Type :=
  list string * gset string * gmap string string.

(** The body of [for _, dst_node_name in graph.out_edges(cur_node_name)]. *)
Definition grow_out (cur_node_name : string) (s : grow_state)
    (dst_node_name : string) : grow_state :=
  let '(d, visited, prev) := s in
  if decide (dst_node_name ∈ visited) then s
  else (d ++ [dst_node_name], visited ∪ {[dst_node_name]},
        <[dst_node_name := cur_node_name]> prev).

(** The body of [for src_node_name, _ in graph.in_edges(cur_node_name)]. *)
Definition grow_in (start_nodes : list string) (cur_node_name : string)
    (s : grow_state) (src_node_name : string) : grow_state :=
  let '(d, visited, prev) := s in
  if decide ((cur_node_name ∉ start_nodes) ∧ (src_node_name ∉ visited)) then
    (d ++ [src_node_name], visited ∪ {[src_node_name]},
     <[src_node_name := cur_node_name]> prev)
  else s.

(** One iteration for [cur_node_name], after it was taken from the queue
    and appended to [sub_graph_nodes]. *)
Definition grow_node (graph : Graph) (start_nodes end_nodes : list string)
    (cur_node_name : string) (s : grow_state) : grow_state :=
  let s :=
    if decide (cur_node_name ∈ end_nodes) then s
    else foldl (grow_out cur_node_name) s (out_edges graph cur_node_name).*2 in
  foldl (grow_in start_nodes cur_node_name) s (in_edges graph cur_node_name).*1.

Definition grow_body (graph : Graph) (start_nodes end_nodes : list string)
    (s : grow_state * list string)
  : grow_state * list string + (list string * gmap string string) :=
  let '(d, visited, prev, sub_graph_nodes) := s in
  match d with
  | [] => inr (sub_graph_nodes, prev)
  | cur_node_name :: d =>
      inl (grow_node graph start_nodes end_nodes cur_node_name (d, visited, prev),
           sub_graph_nodes ++ [cur_node_name])
  end.

(** The first loop: the nodes of the sub-graph and the ['prev'] attributes
    it leaves in the graph. *)
Definition grow (fuel : nat) (graph : Graph) (start_nodes end_nodes : list string)
  : option (list string * gmap string string) :=
  while (grow_body graph start_nodes end_nodes) fuel
        (start_nodes, list_to_set start_nodes, ∅, []).

(** [for start_node in start_nodes: dfs(graph, start_node, forward_visited)] *)
Fixpoint forward_dfs (fuel : nat) (graph : Graph) (l : list string)
    (forward_visited : gset string) : option (gset string) :=
  match l with
  | [] => Some forward_visited
  | start_node :: l =>
      match dfs fuel graph start_node forward_visited with
      | Some (_, forward_visited) => forward_dfs fuel graph l forward_visited
      | None => None
      end
  end.

(** [while cur_node and 'prev' in graph.node[cur_node]]: a [str] is true
    when it is not empty, and every node has the attribute ['prev']. *)
Definition path_body (prev : gmap string string)
    (s : option string * list string)
  : option string * list string + list string :=
  let '(cur_node, path) := s in
  match cur_node with
  | Some c =>
      if decide (c = "") then inr path else inl (prev !! c, path ++ [c])
  | None => inr path
  end.

(** The path that [log.debug] prints. *)
Definition input_path (fuel : nat) (prev : gmap string string)
    (node_name : string) : option (list string) :=
  while (path_body prev) fuel (Some node_name, []).

(** The loop [for node_name in sub_graph_nodes] over the nodes [l] that are
    left, and the [return sub_graph_nodes] after it.  The loop of the path
    starts at a node for which [graph.node] has just been subscripted and
    goes on along ['prev'], whose values are nodes taken from the queue
    with an edge to the node they were set for. *)
Fixpoint check_inputs (fuel : nat) (graph : Graph) (prev : gmap string string)
    (sub_graph_nodes l : list string) : option (outcome (list string)) :=
  match l with
  | [] => Some (Return sub_graph_nodes)
  | node_name :: l =>
      match get_op graph node_name with
      | Raise e => Some (Raise e)
      | Return o =>
          if decide (o = "Placeholder") then
            _ ← input_path fuel prev node_name;
            Some (Raise (Error (ContainsNetworkInput node_name)))
          else check_inputs fuel graph prev sub_graph_nodes l
      end
  end.

Definition sub_graph_between_nodes (fuel : nat) (graph : Graph)
    (start_nodes end_nodes : list string) : option (outcome (list string)) :=
  '(sub_graph_nodes, prev) ← grow fuel graph start_nodes end_nodes;
  forward_visited ← forward_dfs fuel graph start_nodes ∅;
  match List.find (λ end_node, bool_decide (end_node ∉ forward_visited))
                  end_nodes with
  | Some end_node => Some (Raise (Error (EndNodeNotReachable end_node start_nodes)))
  | None => check_inputs fuel graph prev sub_graph_nodes sub_graph_nodes
  end.

(** ** node_neighbourhood *)

(** A Python [dict] with its keys in insertion order. *)
Fixpoint dict_get (d : list (string * Z)) (k : string) : option Z :=
  match d with
  | [] => None
  | (k', v) :: d => if decide (k' = k) then Some v else dict_get d k
  end.

(** [d[k] = v]: in place when [k] is a key, at the end otherwise. *)
Fixpoint dict_set (d : list (string * Z)) (k : string) (v : Z)
  : list (string * Z) :=
  match d with
  | [] => [(k, v)]
  | (k', v') :: d =>
      if decide (k' = k) then (k, v) :: d else (k', v') :: dict_set d k v
  end.

(** [d.setdefault(k, v)]: the value read and the dictionary. *)
Definition setdefault (d : list (string * Z)) (k : string) (v : Z)
  : Z * list (string * Z) :=
  match dict_get d k with
  | Some x => (x, d)
  | None => (v, dict_set d k v)
  end.

(** The body of [for next_node_name in next_node_fn(cur_node_name)]. *)
Definition nn_visit (depth cur_dist : Z) (s : list (string * Z) * list string)
    (next_node_name : string) : list (string * Z) * list string :=
  let '(dist, deq) := s in
  let '(next_dist, dist) := setdefault dist next_node_name (depth + 1) in
  if decide (next_dist > cur_dist + 1)%Z then
    (dict_set dist next_node_name (cur_dist + 1), deq ++ [next_node_name])
  else (dist, deq).

Definition nn_body (depth : Z) (next_node_fn : string → list string)
    (s : list (string * Z) * list string)
  : list (string * Z) * list string + outcome (list string) :=
  let '(dist, deq) := s in
  match deq with
  | [] => inr (Return dist.*1)
  | cur_node_name :: deq =>
      match dict_get dist cur_node_name with
      | Some cur_dist =>
          if decide (cur_dist < depth)%Z then
            inl (foldl (nn_visit depth cur_dist) (dist, deq)
                       (next_node_fn cur_node_name))
          else inl (dist, deq)
      | None => inr (Raise (KeyError cur_node_name))
      end
  end.

Definition node_neighbourhood (fuel : nat) (node_name : string) (depth : Z)
    (next_node_fn : string → list string) : option (outcome (list string)) :=
  while (nn_body depth next_node_fn) fuel ([(node_name, 0%Z)], [node_name]).

(** ** bfs_search *)

(** The body of [for src_node, dst_node in graph.out_edges(cur_node_name)]
    is the one of the loop over [adj_nodes] in [is_connected_component]:
    [icc_visit].  The state is the queue [d], [visited] and [result]. *)
Definition bfs_body (graph : Graph) (s : list string * gset string * list string)
  : list string * gset string * list string + list string :=
  let '(d, visited, result) := s in
  match d with
  | [] => inr result
  | cur_node_name :: d =>
      inl (foldl icc_visit (d, visited) (out_edges graph cur_node_name).*2,
           result ++ [cur_node_name])
  end.

Definition bfs_search (fuel : nat) (graph : Graph) (start_nodes : list string)
  : option (list string) :=
  let start_nodes :=
    if decide (length start_nodes = 0) then nodes_without_inputs graph
    else start_nodes in
  while (bfs_body graph) fuel (start_nodes, list_to_set start_nodes, []).

(** ** node_incoming_neighbourhood, node_outcoming_neighbourhood *)

Definition node_incoming_neighbourhood (fuel : nat) (graph : Graph)
    (node_name : string) (depth : Z) : option (outcome (list string)) :=
  node_neighbourhood fuel node_name depth
    (λ node_name, (in_edges graph node_name).*1).

Definition node_outcoming_neighbourhood (fuel : nat) (graph : Graph)
    (node_name : string) (depth : Z) : option (outcome (list string)) :=
  node_neighbourhood fuel node_name depth
    (λ node_name, (out_edges graph node_name).*2).

(** ** scope_output_nodes *)

(** [s[-1]]: the last character, [None] for the [IndexError] of the empty
    string. *)
Fixpoint last_char (s : string) : option Ascii.ascii :=
  match s with
  | EmptyString => None
  | String c EmptyString => Some c
  | String _ s => last_char s
  end.

(** [s.startswith(p)] *)
Definition startswith (s p : string) : bool := String.prefix p s.

(** The scope that the loop tests: the delimiter is appended unless it is
    the last character of [scope]. *)
Definition scope_prefix (scope scope_delimiter : string) (c : Ascii.ascii)
  : string :=
  if decide (String c EmptyString ≠ scope_delimiter)
  then String.append scope scope_delimiter else scope.

(** The body of [for node_id in graph.nodes()]; the inner loop with its
    [break] looks for an out edge to a node outside the scope. *)
Definition scope_visit (graph : Graph) (scope : string) (result : gset string)
    (node_id : string) : gset string :=
  if startswith node_id scope then
    if existsb (λ out_node_name, negb (startswith out_node_name scope))
               (out_edges graph node_id).*2
    then result ∪ {[node_id]} else result
  else result.

Inductive index_error := IndexError.

(** The value is the set [result] of node ids; the function returns the
    [Node] handles of its elements, listed in the order of the Python set. *)
Definition scope_output_nodes (graph : Graph) (scope scope_delimiter : string)
  : index_error + gset string :=
  match last_char scope with
  | None => inl IndexError
  | Some c =>
      inr (foldl (scope_visit graph (scope_prefix scope scope_delimiter c))
                 ∅ (nodes graph))
  end.

(** ** What the properties are stated with *)

Definition edge (graph : Graph) (u v : string) : Prop := (u, v) ∈ edges graph.

(** [v] is reachable from [u] along edges, in zero or more steps. *)
Definition reachable (graph : Graph) : relation string := rtc (edge graph).

Definition acyclic (graph : Graph) : Prop := ∀ n, ¬ tc (edge graph) n n.

(** The invariants of the data model: node ids are unique, every edge
    endpoint is a node, the kind of a node is one of the two tags and a
    node has an op exactly when it is an operator. *)
Record wf_graph (graph : Graph) : Prop := {
  wf_nodup : NoDup (nodes graph);
  wf_edge : ∀ u v, edge graph u v → u ∈ nodes graph ∧ v ∈ nodes graph;
  wf_attrs : ∀ n, n ∈ nodes graph →
    ∃ a, node graph !! n = Some a
         ∧ (kind a = "op" ∨ kind a = "data")
         ∧ (is_Some (op a) ↔ kind a = "op");
}.

(** [u] comes before [v] in [l]. *)
Definition precedes (u v : string) (l : list string) : Prop :=
  ∃ l1 l2 l3, l = l1 ++ u :: l2 ++ v :: l3.

(** ** Example graphs *)

Definition op_node (o : string) : NodeAttrs :=
  {| kind := "op"; op := Some o; value := None |}.

Definition data_node (v : option (list Z)) : NodeAttrs :=
  {| kind := "data"; op := None; value := v |}.

(** The chain A -> B -> C -> D. *)
Definition chain4 : Graph := {|
  nodes := ["A"; "B"; "C"; "D"];
  edges := [("A", "B"); ("B", "C"); ("C", "D")];
  node := list_to_map [("A", op_node "Relu"); ("B", op_node "Relu");
                       ("C", op_node "Relu"); ("D", op_node "Relu")];
|}.

(** The chain A -> B -> C -> D -> E. *)
Definition chain5 : Graph := {|
  nodes := ["A"; "B"; "C"; "D"; "E"];
  edges := [("A", "B"); ("B", "C"); ("C", "D"); ("D", "E")];
  node := list_to_map [("A", op_node "Relu"); ("B", op_node "Relu");
                       ("C", op_node "Relu"); ("D", op_node "Relu");
                       ("E", op_node "Relu")];
|}.

(** The chain A -> B -> C. *)
Definition chain3 : Graph := {|
  nodes := ["A"; "B"; "C"];
  edges := [("A", "B"); ("B", "C")];
  node := list_to_map [("A", op_node "Relu"); ("B", op_node "Relu");
                       ("C", op_node "Relu")];
|}.

(** start <- data (no value) <- Conv *)
Definition conv3_graph : Graph := {|
  nodes := ["Conv"; "d"; "start"];
  edges := [("Conv", "d"); ("d", "start")];
  node := list_to_map [("Conv", op_node "Conv"); ("d", data_node None);
                       ("start", op_node "Relu")];
|}.

(** start <- data (no value) <- Conv <- data (no value) <- Conv0 *)
Definition conv_graph : Graph := {|
  nodes := ["Conv0"; "d0"; "Conv"; "d"; "start"];
  edges := [("Conv0", "d0"); ("d0", "Conv"); ("Conv", "d"); ("d", "start")];
  node := list_to_map [("Conv0", op_node "Conv"); ("d0", data_node None);
                       ("Conv", op_node "Conv"); ("d", data_node None);
                       ("start", op_node "Relu")];
|}.

(** start <- data (constant value) <- Conv *)
Definition const_graph : Graph := {|
  nodes := ["Conv"; "d"; "start"];
  edges := [("Conv", "d"); ("d", "start")];
  node := list_to_map [("Conv", op_node "Conv"); ("d", data_node (Some [1%Z]));
                       ("start", op_node "Relu")];
|}.

(** An operator and a data node without value on a cycle: P -> d -> P. *)
Definition cycle_graph : Graph := {|
  nodes := ["P"; "d"];
  edges := [("P", "d"); ("d", "P")];
  node := list_to_map [("P", op_node "Relu"); ("d", data_node None)];
|}.

(** A network input A and a node D with no edge between them. *)
Definition input_graph : Graph := {|
  nodes := ["A"; "D"];
  edges := [];
  node := list_to_map [("A", op_node "Placeholder"); ("D", op_node "Relu")];
|}.

(** A network input P that feeds B on the chain A -> B -> D. *)
Definition side_input_graph : Graph := {|
  nodes := ["A"; "P"; "B"; "D"];
  edges := [("A", "B"); ("P", "B"); ("B", "D")];
  node := list_to_map [("A", op_node "Relu"); ("P", op_node "Placeholder");
                       ("B", op_node "Relu"); ("D", op_node "Relu")];
|}.

(** ** Measures and invariants of the loops *)

Definition top_set (stack : list string) : gset string :=
  match stack with
  | [] => ∅
  | n :: _ => {[n]}
  end.

(** Decreases at every iteration of the loop of [dfs]. *)
Definition dfs_measure (graph : Graph) (s : dfs_state) : nat :=
  let '(stack, visited, _) := s in
  2 * size (list_to_set (nodes graph) ∖ visited ∖ top_set stack) + length stack.

Definition dfs_fuel (graph : Graph) : nat := 2 * length (nodes graph) + 2.

(** [y] comes before an occurrence of [x] in [o]. *)
Definition before (o : list string) (y x : string) : Prop :=
  ∃ l1 l2, o = l1 ++ x :: l2 ∧ y ∈ l1.

(** The stack of [dfs] is a path of the graph, read from its bottom. *)
Fixpoint stack_path (graph : Graph) (stack : list string) : Prop :=
  match stack with
  | a :: (b :: _) as rest => edge graph b a ∧ stack_path graph rest
  | _ => True
  end.

(** Invariants of the loop of [dfs] called on [s0] with the set [V0]. *)
Definition dfs_inv_sound (graph : Graph) (s0 : string) (V0 : gset string)
    (s : dfs_state) : Prop :=
  let '(stack, visited, order) := s in
  V0 ⊆ visited
  ∧ (s0 ∈ visited ∨ s0 ∈ stack)
  ∧ (∀ x, x ∈ visited → x ∈ V0 ∨ reachable graph s0 x)
  ∧ (∀ x, x ∈ stack → reachable graph s0 x).

Definition dfs_inv_closed (graph : Graph) (V0 : gset string)
    (s : dfs_state) : Prop :=
  let '(stack, visited, order) := s in
  ∀ x y, x ∈ visited → x ∉ V0 → x ∉ stack → edge graph x y → y ∈ visited.

Definition dfs_inv_fresh (V0 : gset string) (s : dfs_state) : Prop :=
  let '(stack, visited, order) := s in
  NoDup order ∧ NoDup stack
  ∧ V0 ⊆ visited
  ∧ (∀ x, x ∈ stack → x ∉ V0 ∧ x ∉ order)
  ∧ (∀ x, x ∈ order → x ∉ V0 ∧ x ∈ visited)
  ∧ (∀ x, x ∈ visited → x ∈ V0 ∨ x ∈ order ∨ x ∈ stack)
  ∧ (∀ x, x ∈ tail stack → x ∈ visited).

Definition dfs_inv_post (graph : Graph) (V0 : gset string)
    (s : dfs_state) : Prop :=
  let '(stack, visited, order) := s in
  stack_path graph stack
  ∧ (∀ x y, x ∈ order → edge graph x y → y ∈ V0 ∨ before order y x).


(** A check of [wf_graph] that computes. *)
Definition attrs_ok (graph : Graph) (n : string) : bool :=
  match node graph !! n with
  | Some a =>
      match op a with
      | Some _ => bool_decide (kind a = "op")
      | None => bool_decide (kind a = "data")
      end
  | None => false
  end.

Definition wf_graphb (graph : Graph) : bool :=
  bool_decide (NoDup (nodes graph))
  && forallb (λ e, bool_decide (e.1 ∈ nodes graph) && bool_decide (e.2 ∈ nodes graph))
             (edges graph)
  && forallb (attrs_ok graph) (nodes graph).


(** The number of backward paths that end in a node, counted to the depth
    [fuel]: on an acyclic graph it bounds the work of a backward walk. *)
Fixpoint weight (graph : Graph) (fuel : nat) (n : string) : nat :=
  match fuel with
  | O => 0
  | S fuel => S (sum_list_with (weight graph fuel) (in_nodes graph n))
  end.


(** Invariant of the loop of [pseudo_topological_sort] on an acyclic graph:
    [visited] holds the nodes of [order], and every successor of a node of
    [order] stands before it. *)
Definition pts_inv (graph : Graph) (visited : gset string)
    (order : list string) : Prop :=
  (∀ x, x ∈ visited ↔ x ∈ order)
  ∧ NoDup order
  ∧ (∀ x y, x ∈ order → edge graph x y → before order y x).


(** The position of [n] in [l], a numbering of the nodes of a graph. *)
Fixpoint index_of (l : list string) (n : string) : nat :=
  match l with
  | [] => 0
  | x :: l => if decide (x = n) then 0 else S (index_of l n)
  end.


(** Following ['prev'] from a node reaches [None] after [k] steps. *)
Inductive prev_chain (prev : gmap string string) : string → nat → Prop :=
  | prev_chain_root n : prev !! n = None → prev_chain prev n 0
  | prev_chain_step n p k :
      prev !! n = Some p → prev_chain prev p k → prev_chain prev n (S k).

(** What [grow_out] and [grow_in] do to a node that is not visited. *)
Definition grow_push (cur_node_name : string) (s : grow_state) (x : string)
  : grow_state :=
  let '(d, visited, prev) := s in
  (d ++ [x], visited ∪ {[x]}, <[x := cur_node_name]> prev).

Definition grow_measure (graph : Graph) (s : grow_state) : nat :=
  let '(d, visited, _) := s in
  length d + size (list_to_set (nodes graph) ∖ visited).

(** Invariant of the first loop of [sub_graph_between_nodes]. *)
Definition grow_inv (start_nodes : list string) (s : grow_state) : Prop :=
  let '(d, visited, prev) := s in
  (∀ x, x ∈ d → x ∈ visited)
  ∧ (∀ x, x ∈ start_nodes → x ∈ visited)
  ∧ (∀ n p, prev !! n = Some p → n ∈ visited ∧ p ∈ visited ∧ n ∉ start_nodes)
  ∧ (∀ n, ∃ k, prev_chain prev n k).


(** [u] and [v] are nodes of [node_names] with an edge between them, in
    one direction or the other. *)
Definition adjacent (graph : Graph) (node_names : list string)
    (u v : string) : Prop :=
  u ∈ node_names ∧ v ∈ node_names ∧ (edge graph u v ∨ edge graph v u).

Definition icc_measure (node_names : list string)
    (s : list string * gset string) : nat :=
  length s.1 + size (list_to_set node_names ∖ s.2).

(** Invariant of the loop of [is_connected_component] started from [n0]. *)
Definition icc_inv (graph : Graph) (node_names : list string) (n0 : string)
    (s : list string * gset string) : Prop :=
  let '(d, visited) := s in
  n0 ∈ visited
  ∧ (∀ x, x ∈ d → x ∈ visited)
  ∧ (∀ x, x ∈ visited → x ∈ node_names)
  ∧ (∀ x, x ∈ visited → rtc (adjacent graph node_names) n0 x)
  ∧ (∀ x y, x ∈ visited → x ∉ d → adjacent graph node_names x y → y ∈ visited).


(** [b] is one of the nodes that [next_node_fn] returns for [a]. *)
Definition nbr (next_node_fn : string → list string) (a b : string) : Prop :=
  b ∈ next_node_fn a.

(** The nodes at most [k] calls of [next_node_fn] away from [s], with
    repetitions. *)
Fixpoint ball (next_node_fn : string → list string) (k : nat) (s : string)
  : list string :=
  match k with
  | O => [s]
  | S k => s :: (next_node_fn s ≫= ball next_node_fn k)
  end.

(** The distance recorded for [x], or [bound] when there is none. *)
Definition dist_or (bound : nat) (dist : list (string * Z)) (x : string) : nat :=
  match dict_get dist x with
  | Some v => Z.to_nat v
  | None => bound
  end.

Definition nn_universe (next_node_fn : string → list string) (depth : Z)
    (node_name : string) : list string :=
  ball next_node_fn (Z.to_nat depth) node_name.

Definition nn_bound (depth : Z) : nat := S (Z.to_nat depth).

Definition nn_measure (U : list string) (bound : nat)
    (s : list (string * Z) * list string) : nat :=
  sum_list_with (dist_or bound s.1) U + length s.2.

(** What holds of the dictionary [dist] of [node_neighbourhood] at every
    time: the keys are distinct, the start node has distance 0, and a
    distance is the length of a path from the start node, within [depth]. *)
Definition nn_ok (next_node_fn : string → list string) (depth : Z)
    (node_name : string) (dist : list (string * Z)) : Prop :=
  NoDup dist.*1
  ∧ dict_get dist node_name = Some 0%Z
  ∧ (∀ x v, dict_get dist x = Some v →
       (0 ≤ v)%Z ∧ nsteps (nbr next_node_fn) (Z.to_nat v) node_name x
       ∧ (v = 0 ∨ v ≤ depth)%Z).

(** The nodes next to [x] have a distance, at most one more than [x]. *)
Definition nn_expanded (next_node_fn : string → list string)
    (dist : list (string * Z)) (x : string) (v : Z) : Prop :=
  ∀ y, y ∈ next_node_fn x → ∃ v', dict_get dist y = Some v' ∧ (v' ≤ v + 1)%Z.

(** Invariant of the loop of [node_neighbourhood]. *)
Definition nn_inv (next_node_fn : string → list string) (depth : Z)
    (node_name : string) (s : list (string * Z) * list string) : Prop :=
  let '(dist, deq) := s in
  nn_ok next_node_fn depth node_name dist
  ∧ (∀ x, x ∈ deq → is_Some (dict_get dist x))
  ∧ (∀ x v, dict_get dist x = Some v → (v < depth)%Z → x ∉ deq →
       nn_expanded next_node_fn dist x v).

(** Invariant of the loop over the nodes next to [cur], whose distance is
    [cur_dist]; [m] bounds the measure. *)
Definition nn_fold_inv (next_node_fn : string → list string) (depth : Z)
    (node_name : string) (U : list string) (m : nat) (cur : string)
    (cur_dist : Z) (s : list (string * Z) * list string) : Prop :=
  let '(dist, deq) := s in
  nn_ok next_node_fn depth node_name dist
  ∧ (∀ x, x ∈ deq → is_Some (dict_get dist x))
  ∧ dict_get dist cur = Some cur_dist
  ∧ (∀ x v, x ≠ cur → dict_get dist x = Some v → (v < depth)%Z → x ∉ deq →
       nn_expanded next_node_fn dist x v)
  ∧ nn_measure U (nn_bound depth) s ≤ m.


(** The nodes that [bfs_search] appends after the start nodes: each has an
    edge from a start node or from a node appended before it. *)
Inductive bfs_seq (graph : Graph) (start_nodes : list string)
  : list string → Prop :=
  | bfs_seq_nil : bfs_seq graph start_nodes []
  | bfs_seq_snoc t x p :
      bfs_seq graph start_nodes t → edge graph p x → p ∈ start_nodes ++ t →
      bfs_seq graph start_nodes (t ++ [x]).

(** Invariant of the loop of [bfs_search] and, with [result] for the nodes
    taken from the queue and [done] for those whose out edges were all
    looked at, of the loop over the out edges. *)
Definition bfs_inv (graph : Graph) (start_nodes : list string)
    (done : list string) (s : list string * gset string * list string) : Prop :=
  let '(d, visited, result) := s in
  (∀ x, x ∈ visited ↔ x ∈ result ∨ x ∈ d)
  ∧ (NoDup start_nodes → NoDup (result ++ d))
  ∧ (∀ x, x ∈ visited → ∃ s, s ∈ start_nodes ∧ reachable graph s x)
  ∧ (∀ x y, x ∈ done → edge graph x y → y ∈ visited)
  ∧ (∃ t, result ++ d = start_nodes ++ t ∧ bfs_seq graph start_nodes t).

(** The start nodes that [bfs_search] uses. *)
Definition bfs_start_nodes (graph : Graph) (start_nodes : list string)
  : list string :=
  if decide (length start_nodes = 0) then nodes_without_inputs graph
  else start_nodes.

(** What the first loop of [sub_graph_between_nodes] keeps, with [sub] for
    the nodes taken from the queue and [done] for those whose edges were
    looked at: the visited nodes are those of [sub] and of the queue, in
    the order they were found after the start nodes; each is linked to a
    start node by edges taken in either direction; and ['prev'] of a node
    that is not a start node is the node, found before it, from which it
    was reached. *)
Definition region_inv (graph : Graph) (start_nodes end_nodes : list string)
    (done sub : list string) (s : grow_state) : Prop :=
  let '(d, visited, prev) := s in
  (∀ x, x ∈ visited ↔ x ∈ sub ∨ x ∈ d)
  ∧ (NoDup start_nodes → NoDup (sub ++ d))
  ∧ (∃ t, sub ++ d = start_nodes ++ t)
  ∧ (∀ x, x ∈ visited → ∃ s, s ∈ start_nodes ∧ rtsc (edge graph) s x)
  ∧ (∀ n p, prev !! n = Some p →
       n ∉ start_nodes ∧ (edge graph p n ∨ edge graph n p)
       ∧ p ∈ sub ∧ before (sub ++ d) p n)
  ∧ (∀ n, n ∈ visited → n ∉ start_nodes → is_Some (prev !! n))
  ∧ (∀ x, x ∈ done →
       (x ∉ end_nodes → ∀ y, edge graph x y → y ∈ visited)
       ∧ (x ∉ start_nodes → ∀ p, edge graph p x → p ∈ visited)).

(** The two ways [backward_bfs_for_operation] goes on with a predecessor:
    it records an operator with an op of [op_names], and it puts into the
    queue any other operator and a data node without value. *)
Definition bbfs_match (graph : Graph) (op_names : list string) (p : string)
  : Prop :=
  kind (attrs_of graph p) = "op" ∧ op_in graph p op_names = true.

Definition bbfs_pass (graph : Graph) (op_names : list string) (p : string)
  : Prop :=
  (kind (attrs_of graph p) = "op" ∧ op_in graph p op_names = false)
  ∨ (kind (attrs_of graph p) = "data" ∧ value (attrs_of graph p) = None).

(** The nodes whose predecessors the search started at [start] looks at. *)
Inductive bbfs_expanded (graph : Graph) (op_names : list string)
    (start : string) : string → Prop :=
  | bbfs_expanded_start : bbfs_expanded graph op_names start start
  | bbfs_expanded_step x y :
      bbfs_expanded graph op_names start x → edge graph y x →
      bbfs_pass graph op_names y → bbfs_expanded graph op_names start y.

(** Nodes with ids in a scope, for [scope_output_nodes]. *)
Definition scope_graph : Graph := {|
  nodes := ["blockA/x"; "blockA/y"; "blockB/z"];
  edges := [("blockA/x", "blockA/y"); ("blockA/y", "blockB/z")];
  node := list_to_map [("blockA/x", op_node "Relu"); ("blockA/y", op_node "Relu");
                       ("blockB/z", op_node "Relu")];
|}.

(** What the last loop of [sub_graph_between_nodes] ends with on the nodes
    [l] that are left, once the loop that collects the path has ended. *)
Fixpoint inputs_outcome (graph : Graph) (sub_graph_nodes l : list string)
  : outcome (list string) :=
  match l with
  | [] => Return sub_graph_nodes
  | node_name :: l =>
      match get_op graph node_name with
      | Raise e => Raise e
      | Return o =>
          if decide (o = "Placeholder")
          then Raise (Error (ContainsNetworkInput node_name))
          else inputs_outcome graph sub_graph_nodes l
      end
  end.

(** [n] is a node of the graph whose op is not ['Placeholder']. *)
Definition not_input (graph : Graph) (n : string) : Prop :=
  ∃ o, get_op graph n = Return o ∧ o ≠ "Placeholder".

(** The search goes on from [x] to [y]: [y] is a predecessor of [x] that
    [backward_bfs_for_operation] puts into the queue. *)
Definition bbfs_step (graph : Graph) (op_names : list string)
    (x y : string) : Prop :=
  edge graph y x ∧ bbfs_pass graph op_names y.

(** [bbfs_pass] as a test that computes. *)
Definition bbfs_passb (graph : Graph) (op_names : list string) (p : string)
  : bool :=
  (bool_decide (kind (attrs_of graph p) = "op") && negb (op_in graph p op_names))
  || (bool_decide (kind (attrs_of graph p) = "data")
      && bool_decide (value (attrs_of graph p) = None)).

(** The number of nodes that a backward search started at [n] takes from
    its queue, counted to the depth [fuel]. *)
Fixpoint pass_weight (graph : Graph) (op_names : list string) (fuel : nat)
    (n : string) : nat :=
  match fuel with
  | O => 0
  | S fuel =>
      S (sum_list_with
           (λ p, if bbfs_passb graph op_names p
                 then pass_weight graph op_names fuel p else 0)
           (in_nodes graph n))
  end.

(** The end node D on a cycle with E: A -> D, D -> E, E -> D. *)
Definition end_cycle_graph : Graph := {|
  nodes := ["A"; "D"; "E"];
  edges := [("A", "D"); ("D", "E"); ("E", "D")];
  node := list_to_map [("A", op_node "Relu"); ("D", op_node "Relu");
                       ("E", op_node "Relu")];
|}.

(** * Properties *)

(** ** Rules for loops *)

Section while_rules.
Context {St Res : Type} (body : St → St + Res).

Lemma while_mono fuel fuel' s r :
  while body fuel s = Some r → fuel ≤ fuel' → while body fuel' s = Some r.
Proof.
  revert fuel' s. induction fuel as [|fuel IH]; intros fuel' s; [done|].
  destruct fuel' as [|fuel']; [lia|]. simpl.
  destruct (body s); [|done]. intros ??. apply IH; [done|lia].
Qed.

Lemma while_inv (I : St → Prop) :
  (∀ s s', I s → body s = inl s' → I s') →
  ∀ fuel s r, I s → while body fuel s = Some r →
              ∃ s', I s' ∧ body s' = inr r.
Proof.
  intros Hstep. induction fuel as [|fuel IH]; intros s r Hs; [done|].
  simpl. destruct (body s) as [s'|r'] eqn:Hb.
  - apply IH. by eapply Hstep.
  - intros [= <-]. eauto.
Qed.

Lemma while_terminates (I : St → Prop) (m : St → nat) :
  (∀ s s', I s → body s = inl s' → I s' ∧ m s' < m s) →
  ∀ fuel s, I s → m s < fuel → ∃ r, while body fuel s = Some r.
Proof.
  intros Hstep. induction fuel as [|fuel IH]; intros s Hs Hm; [lia|].
  simpl. destruct (body s) as [s'|r'] eqn:Hb; [|eauto].
  destruct (Hstep _ _ Hs Hb). apply IH; [done|lia].
Qed.
End while_rules.

(** ** Edges *)

Lemma elem_of_out_edges graph n v :
  v ∈ (out_edges graph n).*2 ↔ edge graph n v.
Proof.
  unfold out_edges, edge. rewrite list_elem_of_fmap. split.
  - intros [[a b] [-> [Ha Hin]%list_elem_of_filter]]. simpl in *. by subst.
  - intros H. exists (n, v). split; [done|]. by apply list_elem_of_filter.
Qed.

Lemma elem_of_in_edges graph n u :
  u ∈ (in_edges graph n).*1 ↔ edge graph u n.
Proof.
  unfold in_edges, edge. rewrite list_elem_of_fmap. split.
  - intros [[a b] [-> [Ha Hin]%list_elem_of_filter]]. simpl in *. by subst.
  - intros H. exists (u, n). split; [done|]. by apply list_elem_of_filter.
Qed.

Lemma find_Some_elem_of {A} (f : A → bool) l x :
  List.find f l = Some x → x ∈ l ∧ f x = true.
Proof. intros [H1 H2]%find_some. by rewrite list_elem_of_In. Qed.

Lemma find_None_elem_of {A} (f : A → bool) l x :
  List.find f l = None → x ∈ l → f x = false.
Proof. intros H Hin. eapply find_none; [done|]. by apply list_elem_of_In. Qed.

Lemma size_add_fresh (X : gset string) c :
  c ∉ X → size ({[c]} ∪ X) = S (size X).
Proof.
  intros. rewrite size_union; [|set_solver]. by rewrite size_singleton.
Qed.

(** ** dfs *)

Section dfs_props.
Context (graph : Graph).

Lemma dfs_body_measure s s' :
  wf_graph graph →
  dfs_body graph s = inl s' → dfs_measure graph s' < dfs_measure graph s.
Proof.
  intros Hwf. destruct s as [[stack visited] order]. unfold dfs_body.
  destruct stack as [|n stack]; [done|].
  destruct (List.find _ _) as [c|] eqn:Hf; intros [= <-]; simpl.
  - apply find_Some_elem_of in Hf as [Hc Hnv].
    apply elem_of_out_edges, Hwf in Hc as [_ Hc].
    apply bool_decide_eq_true in Hnv.
    set (N := list_to_set (nodes graph) : gset string).
    assert (N ∖ visited ∖ {[n]}
            = {[c]} ∪ N ∖ (visited ∪ {[n]}) ∖ {[c]}) as ->.
    { apply set_eq. intros x. destruct (decide (x = c)) as [->|]; [|set_solver].
      subst N. set_solver. }
    rewrite (size_add_fresh _ c); [lia|set_solver].
  - assert (size (list_to_set (nodes graph) ∖ (visited ∪ {[n]}) ∖ top_set stack)
            ≤ size (list_to_set (nodes graph) ∖ visited ∖ ({[n]} : gset string))).
    { apply subseteq_size. set_solver. }
    lia.
Qed.

Lemma dfs_terminates fuel node_name visited :
  wf_graph graph →
  dfs_fuel graph ≤ fuel → ∃ r, dfs fuel graph node_name visited = Some r.
Proof.
  intros Hwf Hfuel. unfold dfs.
  apply (while_terminates _ (λ _, True) (dfs_measure graph)); [|done|].
  - intros s s' _ Hb. split; [done|]. by apply dfs_body_measure.
  - simpl. unfold dfs_fuel in Hfuel.
    assert (size (list_to_set (nodes graph) ∖ visited ∖ ({[node_name]} : gset string))
            ≤ length (nodes graph)).
    { etrans; [apply subseteq_size|].
      - apply subseteq_difference_l, subseteq_difference_l. reflexivity.
      - rewrite size_list_to_set; [done|]. apply Hwf. }
    lia.
Qed.

(** The two ways an iteration goes on: [c] is the first successor of the
    top [n] that is not visited, or there is none. *)
Lemma dfs_body_inl stack visited order s' :
  dfs_body graph (stack, visited, order) = inl s' →
  ∃ n rest, stack = n :: rest ∧
    ((∃ c, edge graph n c ∧ c ∉ visited ∧ c ≠ n
           ∧ s' = (c :: n :: rest, visited ∪ {[n]}, order))
     ∨ ((∀ y, edge graph n y → y ∈ visited ∪ {[n]})
        ∧ s' = (rest, visited ∪ {[n]}, order ++ [n]))).
Proof.
  unfold dfs_body. destruct stack as [|n rest]; [done|].
  intros H. exists n, rest. split; [done|].
  destruct (List.find _ _) as [c|] eqn:Hf; injection H as <-.
  - left. exists c. apply find_Some_elem_of in Hf as [Hc Hnv].
    apply elem_of_out_edges in Hc. apply bool_decide_eq_true in Hnv.
    split_and!; [done|set_solver|set_solver|done].
  - right. split; [|done]. intros y Hy%elem_of_out_edges.
    eapply find_None_elem_of in Hf; [|done].
    apply bool_decide_eq_false in Hf. by apply dec_stable.
Qed.

Lemma dfs_body_inr s order visited :
  dfs_body graph s = inr (order, visited) → s = ([], visited, order).
Proof.
  destruct s as [[[|n stack] V] o]; simpl; [congruence|].
  by destruct (List.find _ _).
Qed.

Lemma dfs_sound fuel s0 V0 order V1 :
  dfs fuel graph s0 V0 = Some (order, V1) →
  V0 ⊆ V1 ∧ s0 ∈ V1 ∧ (∀ x, x ∈ V1 → x ∈ V0 ∨ reachable graph s0 x).
Proof.
  intros H. apply (while_inv _ (dfs_inv_sound graph s0 V0)) in H.
  - destruct H as (s' & Hinv & ->%dfs_body_inr).
    destruct Hinv as (? & [?|?%elem_of_nil] & ? & _); done.
  - intros [[stack V] o] s' (HV0 & Hs0 & HV & Hst) Hb.
    apply dfs_body_inl in Hb as (n & rest & -> & [(c & Hc & ? & ? & ->)|[_ ->]]).
    + split_and!.
      * set_solver.
      * set_solver.
      * intros x [?| ->%elem_of_singleton]%elem_of_union; [auto|].
        right. apply Hst. by left.
      * intros x [->|?]%elem_of_cons; [|auto].
        eapply rtc_r; [|done]. apply Hst. by left.
    + split_and!.
      * set_solver.
      * set_solver.
      * intros x [?| ->%elem_of_singleton]%elem_of_union; [auto|].
        right. apply Hst. by left.
      * intros x ?. apply Hst. by right.
  - simpl. split_and!; [done|right; by left|auto|].
    intros x ->%list_elem_of_singleton. reflexivity.
Qed.

Lemma dfs_closed fuel s0 V0 order V1 :
  dfs fuel graph s0 V0 = Some (order, V1) →
  (∀ x y, x ∈ V0 → edge graph x y → y ∈ V0) →
  ∀ x y, x ∈ V1 → edge graph x y → y ∈ V1.
Proof.
  intros H Hcl x y Hx Hxy.
  pose proof (dfs_sound _ _ _ _ _ H) as (HV0 & _).
  apply (while_inv _ (dfs_inv_closed graph V0)) in H.
  - destruct H as (s' & Hinv & ->%dfs_body_inr). simpl in Hinv.
    destruct (decide (x ∈ V0)); [set_solver|].
    eapply Hinv; [done..|apply not_elem_of_nil|done].
  - clear. intros [[stack V] o] s' Hinv Hb. simpl in Hinv.
    apply dfs_body_inl in Hb as (n & rest & -> & [(c & Hc & ? & ? & ->)|[Hn ->]]);
      simpl; intros x y Hx HxV0 Hxs Hxy.
    + apply elem_of_union_l. eapply Hinv; [|done| |done]; set_solver.
    + destruct (decide (x = n)) as [->|]; [auto|].
      apply elem_of_union_l. eapply Hinv; [|done| |done]; set_solver.
  - simpl. intros x' y' ? ? ?. set_solver.
Qed.

Lemma dfs_inv_fresh_step V0 s s' :
  dfs_inv_fresh V0 s → dfs_body graph s = inl s' → dfs_inv_fresh V0 s'.
Proof.
  destruct s as [[stack V] o].
  intros (Ho & Hs & HV0 & Hst & Hord & HV & Htl) Hb.
  apply dfs_body_inl in Hb as (n & rest & -> & [(c & Hc & HcV & Hcn & ->)|[_ ->]]);
    simpl in *.
  - apply NoDup_cons in Hs as [Hn Hrest].
    assert (c ∉ rest) by (intros ?; apply HcV; auto).
    split_and!; [done| |set_solver| | | |].
    + apply NoDup_cons. split; [|by apply NoDup_cons].
      rewrite elem_of_cons. tauto.
    + intros x [->|Hx]%elem_of_cons; [|auto].
      split; [set_solver|]. intros ?. apply HcV. by apply Hord.
    + intros x Hx. destruct (Hord x Hx). set_solver.
    + intros x [Hx| ->%elem_of_singleton]%elem_of_union.
      * destruct (HV x Hx) as [?|[?|?]]; [auto|auto|].
        right; right. by right.
      * right; right. right; by left.
    + intros x [->|Hx]%elem_of_cons; [set_solver|].
      apply elem_of_union_l. auto.
  - apply NoDup_cons in Hs as [Hn Hrest].
    destruct (Hst n) as [HnV0 Hno]; [by left|].
    split_and!; [|done|set_solver| | | |].
    + apply NoDup_app. split_and!; [done| |apply NoDup_singleton].
      intros x Hx ->%list_elem_of_singleton. done.
    + intros x Hx. destruct (Hst x) as [? ?]; [by right|].
      split; [done|]. rewrite elem_of_app, list_elem_of_singleton.
      intros [?| ->]; done.
    + intros x [Hx| ->%list_elem_of_singleton]%elem_of_app.
      * destruct (Hord x Hx). set_solver.
      * set_solver.
    + intros x [Hx| ->%elem_of_singleton]%elem_of_union.
      * destruct (HV x Hx) as [?|[?|[->|?]%elem_of_cons]]; [auto| | |auto].
        -- right; left. apply elem_of_app. auto.
        -- right; left. apply elem_of_app. right. by left.
      * right; left. apply elem_of_app. right. by left.
    + intros x Hx. apply elem_of_union_l, Htl.
      destruct rest; [by apply elem_of_nil in Hx|]. by right.
Qed.

Lemma dfs_inv_fresh_init s0 V0 : s0 ∉ V0 → dfs_inv_fresh V0 ([s0], V0, []).
Proof.
  intros H. split_and!; [apply NoDup_nil_2|apply NoDup_singleton|done| | | |].
  - intros x ->%list_elem_of_singleton. split; [done|apply not_elem_of_nil].
  - by intros x ?%elem_of_nil.
  - auto.
  - by intros x ?%elem_of_nil.
Qed.

(** Called on a node that is not visited, [dfs] returns each node it adds
    to [visited] once, and no node that was visited before. *)
Lemma dfs_fresh fuel s0 V0 order V1 :
  s0 ∉ V0 →
  dfs fuel graph s0 V0 = Some (order, V1) →
  NoDup order ∧ (∀ x, x ∈ V1 ↔ x ∈ V0 ∨ x ∈ order)
  ∧ (∀ x, x ∈ order → x ∉ V0).
Proof.
  intros Hs0 H. apply (while_inv _ (dfs_inv_fresh V0)) in H.
  - destruct H as (s' & Hinv & ->%dfs_body_inr).
    destruct Hinv as (Ho & _ & HV0 & _ & Hord & HV & _).
    split_and!; [done| |].
    + intros x. split.
      * intros [?|[?|?%elem_of_nil]]%HV; auto; done.
      * intros [?|?]; [set_solver|by apply Hord].
    + intros x Hx. by apply Hord.
  - intros ??. apply dfs_inv_fresh_step.
  - by apply dfs_inv_fresh_init.
Qed.

Lemma stack_path_tc n rest y :
  stack_path graph (n :: rest) → y ∈ rest → tc (edge graph) y n.
Proof.
  revert n. induction rest as [|b rest IH]; intros n; [by intros _ ?%elem_of_nil|].
  intros [Hbn Hp] [->|Hy]%elem_of_cons.
  - by apply tc_once.
  - eapply tc_r; [|done]. by apply IH.
Qed.

Lemma before_snoc o n y x : before o y x → before (o ++ [n]) y x.
Proof.
  intros (l1 & l2 & -> & Hy). exists l1, (l2 ++ [n]).
  split; [|done]. by rewrite <- app_assoc.
Qed.

Lemma before_last o n y : y ∈ o → before (o ++ [n]) y n.
Proof. intros Hy. by exists o, []. Qed.

(** On an acyclic graph every successor of a node of [order] was visited
    before the call or stands before it in [order]. *)
Lemma dfs_postorder fuel s0 V0 order V1 :
  acyclic graph → s0 ∉ V0 →
  dfs fuel graph s0 V0 = Some (order, V1) →
  ∀ x y, x ∈ order → edge graph x y → y ∈ V0 ∨ before order y x.
Proof.
  intros Hac Hs0 H.
  apply (while_inv _ (λ s, dfs_inv_fresh V0 s ∧ dfs_inv_post graph V0 s)) in H.
  - destruct H as (s' & [_ Hinv] & ->%dfs_body_inr). apply Hinv.
  - intros [[stack V] o] s' [Hfr Hpost] Hb.
    split; [by eapply dfs_inv_fresh_step|].
    destruct Hfr as (Ho & Hs & HV0 & Hst & Hord & HV & Htl).
    destruct Hpost as [Hpath Hsucc].
    apply dfs_body_inl in Hb as (n & rest & -> & [(c & Hc & HcV & Hcn & ->)|[Hn ->]]);
      simpl.
    + split; [|done]. split; done.
    + split; [destruct rest; [done|apply Hpath]|].
      intros x y [Hx| ->%list_elem_of_singleton]%elem_of_app Hxy.
      * destruct (Hsucc x y Hx Hxy); [auto|]. right. by apply before_snoc.
      * assert (y ≠ n) by (intros ->; by apply (Hac n), tc_once).
        destruct (HV y) as [?|[?|[?|Hy]%elem_of_cons]]; [set_solver|auto| |done|].
        -- right. by apply before_last.
        -- exfalso. apply (Hac n). eapply tc_l; [done|].
           by eapply stack_path_tc.
  - split; [by apply dfs_inv_fresh_init|]. split; [done|].
    by intros x y ?%elem_of_nil.
Qed.
End dfs_props.

(** ** Well-formed and acyclic graphs *)

Lemma wf_graphb_sound graph : wf_graphb graph = true → wf_graph graph.
Proof.
  unfold wf_graphb. rewrite !andb_true_iff, !forallb_forall.
  intros [[Hnd He] Ha]. split.
  - by apply bool_decide_eq_true in Hnd.
  - intros u v Huv. apply list_elem_of_In, He in Huv.
    apply andb_true_iff in Huv as [H1 H2].
    apply bool_decide_eq_true in H1, H2. done.
  - intros n Hn. apply list_elem_of_In, Ha in Hn. unfold attrs_ok in Hn.
    destruct (node graph !! n) as [a|]; [|done]. exists a. split; [done|].
    destruct (op a) as [o|] eqn:Ho; apply bool_decide_eq_true in Hn; rewrite Hn.
    + split; [by left|]. split; [done|]. intros _. by exists o.
    + split; [by right|]. split; [by intros [? [=]]|done].
Qed.

(** A graph whose nodes can be numbered along the edges has no cycle. *)
Lemma rank_acyclic graph (r : string → nat) :
  (∀ u v, edge graph u v → r u < r v) → acyclic graph.
Proof.
  intros Hr n Hn.
  assert (∀ x y, tc (edge graph) x y → r x < r y) as Htc.
  { induction 1 as [x y Hxy|x y z Hxy _ IH]; [by apply Hr|].
    apply Hr in Hxy. lia. }
  apply Htc in Hn. lia.
Qed.

Lemma rank_edges graph (r : string → nat) :
  forallb (λ e, r e.1 <? r e.2) (edges graph) = true →
  ∀ u v, edge graph u v → r u < r v.
Proof.
  rewrite forallb_forall. intros H u v Huv%list_elem_of_In.
  apply H in Huv. by apply Nat.ltb_lt in Huv.
Qed.

Lemma sum_list_with_ext {A} (f g : A → nat) l :
  (∀ x, x ∈ l → f x = g x) → sum_list_with f l = sum_list_with g l.
Proof.
  induction l as [|a l IH]; intros H; [done|]. simpl.
  rewrite (H a), IH; [done| |by left]. intros ??. apply H. by right.
Qed.

Section acyclic_weight.
Context (graph : Graph).
Hypothesis Hwf : wf_graph graph.
Hypothesis Hac : acyclic graph.

Lemma tc_flip_edge x y : tc (flip (edge graph)) x y → tc (edge graph) y x.
Proof.
  induction 1 as [x y Hxy|x y z Hxy _ IH]; [by apply tc_once|].
  eapply tc_r; done.
Qed.

Lemma edge_acc n : Acc (edge graph) n.
Proof.
  apply (tc_finite_sn (R:=flip (edge graph))).
  - intros x Hx%tc_flip_edge. by apply (Hac x).
  - exists (nodes graph). intros x Hx%tc_flip_edge.
    destruct Hx as [x y Hxy|x y z Hxy _]; by apply Hwf in Hxy as [? ?].
Qed.

Lemma weight_stable_list (l : list string) :
  (∀ p, p ∈ l → ∃ k, ∀ f, k ≤ f → weight graph f p = weight graph k p) →
  ∃ k, ∀ p, p ∈ l → ∀ f, k ≤ f → weight graph f p = weight graph k p.
Proof.
  induction l as [|a l IH]; intros H.
  - exists 0. by intros p ?%elem_of_nil.
  - destruct IH as [k1 Hk1]; [intros p ?; apply H; by right|].
    destruct (H a) as [k2 Hk2]; [by left|].
    exists (k1 `max` k2). intros p [->|Hp]%elem_of_cons f Hf.
    + rewrite (Hk2 f), (Hk2 (k1 `max` k2)); [done|lia..].
    + rewrite (Hk1 p Hp f), (Hk1 p Hp (k1 `max` k2)); [done|lia..].
Qed.

Lemma weight_stable n :
  ∃ k, ∀ f, k ≤ f → weight graph f n = weight graph k n.
Proof.
  induction (edge_acc n) as [n _ IH].
  destruct (weight_stable_list (in_nodes graph n)) as [k Hk].
  { intros p Hp%elem_of_in_edges. by apply IH. }
  exists (S k). intros [|f] Hf; [lia|]. simpl. f_equal.
  apply sum_list_with_ext. intros p Hp. apply Hk; [done|lia].
Qed.

Lemma in_nodes_outside n : n ∉ nodes graph → in_nodes graph n = [].
Proof.
  intros Hn. destruct (in_nodes graph n) as [|p l] eqn:E; [done|].
  assert (p ∈ in_nodes graph n) as Hp by (rewrite E; by left).
  apply elem_of_in_edges, Hwf in Hp as [_ ?]. done.
Qed.

(** An acyclic graph has a weight: every node weighs one more than its
    predecessors together, each counted as often as it has edges to the
    node. *)
Lemma acyclic_weight :
  ∃ w : string → nat, ∀ n, w n = S (sum_list_with w (in_nodes graph n)).
Proof.
  destruct (weight_stable_list (nodes graph)) as [k Hk].
  { intros p _. apply weight_stable. }
  assert (∀ n f, S k ≤ f → weight graph f n = weight graph (S k) n) as Hall.
  { intros n f Hf. destruct (decide (n ∈ nodes graph)) as [Hn|Hn].
    - rewrite (Hk n Hn f), (Hk n Hn (S k)); [done|lia..].
    - destruct f as [|f]; [lia|]. simpl. by rewrite in_nodes_outside. }
  exists (weight graph (S k)). intros n.
  rewrite <- (Hall n (S (S k))); [|lia]. done.
Qed.

Lemma acyclic_rank :
  ∃ r : string → nat, ∀ u v, edge graph u v → r u < r v.
Proof.
  destruct acyclic_weight as [w Hw]. exists w. intros u v Huv.
  rewrite (Hw v). apply elem_of_in_edges in Huv.
  apply (sum_list_with_in _ w) in Huv. unfold in_nodes. lia.
Qed.
End acyclic_weight.

(** ** pseudo_topological_sort *)

Section pts_props.
Context (graph : Graph).
Hypothesis Hwf : wf_graph graph.
Hypothesis Hac : acyclic graph.

Lemma before_app_r o o' y x : before o y x → before (o ++ o') y x.
Proof.
  intros (l1 & l2 & -> & Hy). exists l1, (l2 ++ o').
  split; [|done]. by rewrite <- app_assoc.
Qed.

Lemma before_app_l o o' y x : before o' y x → before (o ++ o') y x.
Proof.
  intros (l1 & l2 & -> & Hy). exists (o ++ l1), l2.
  split; [by rewrite <- app_assoc|]. apply elem_of_app. by right.
Qed.

Lemma before_app_lr o o' y x : y ∈ o → x ∈ o' → before (o ++ o') y x.
Proof.
  intros Hy (l1 & l2 & ->)%list_elem_of_split. exists (o ++ l1), l2.
  split; [by rewrite <- app_assoc|]. apply elem_of_app. by left.
Qed.

Lemma before_elem_of o y x : before o y x → y ∈ o.
Proof. intros (l1 & l2 & -> & Hy). apply elem_of_app. by left. Qed.


Lemma pts_loop_spec fuel l :
  dfs_fuel graph ≤ fuel →
  ∀ visited order, pts_inv graph visited order →
  ∃ order', pts_loop fuel graph l visited order = Some order'
            ∧ pts_inv graph (list_to_set order') order'
            ∧ (∀ x, x ∈ l → x ∈ order')
            ∧ (∀ x, x ∈ order → x ∈ order').
Proof.
  intros Hfuel. induction l as [|n l IH]; intros V O (HV & HO & Hpost).
  - exists O. split_and!; [done| |by intros x ?%elem_of_nil|done].
    split_and!; [|done..]. intros x. by rewrite elem_of_list_to_set.
  - simpl. destruct (decide (n ∈ V)) as [Hn|Hn].
    + destruct (IH V O) as (O' & -> & ? & Hl & HO'); [done|].
      exists O'. split_and!; [done..| |done].
      intros x [->|?]%elem_of_cons; [|auto]. by apply HO', HV.
    + destruct (dfs_terminates graph fuel n V Hwf Hfuel) as [[o V1] Hdfs].
      rewrite Hdfs.
      pose proof (dfs_sound _ _ _ _ _ _ Hdfs) as (_ & HnV1 & _).
      pose proof (dfs_fresh _ _ _ _ _ _ Hn Hdfs) as (Ho & HV1 & HoV).
      pose proof (dfs_postorder _ _ _ _ _ _ Hac Hn Hdfs) as Hsucc.
      destruct (IH V1 (O ++ o)) as (O' & -> & ? & Hl & HO').
      { split_and!.
        - intros x. rewrite HV1, HV, elem_of_app. done.
        - apply NoDup_app. split_and!; [done| |done].
          intros x Hx%HV Hxo. by apply (HoV x).
        - intros x y [Hx|Hx]%elem_of_app Hxy.
          + by apply before_app_r, Hpost.
          + destruct (Hsucc x y Hx Hxy) as [Hy%HV|Hy].
            * by apply before_app_lr.
            * by apply before_app_l. }
      exists O'. split_and!; [done..| |].
      * intros x [->|?]%elem_of_cons; [|auto].
        apply HO', elem_of_app. right. apply HV1 in HnV1 as [?|?]; done.
      * intros x Hx. apply HO', elem_of_app. by left.
Qed.

Lemma pts_loop_all_nodes order :
  pts_inv graph (list_to_set order) order →
  (∀ x, x ∈ nodes_without_inputs graph → x ∈ order) →
  ∀ n, n ∈ nodes graph → n ∈ order.
Proof.
  intros (_ & _ & Hpost) Hsrc.
  destruct (acyclic_rank graph Hwf Hac) as [r Hr].
  assert (∀ k n, r n < k → n ∈ nodes graph → n ∈ order) as H; [|by eauto].
  induction k as [|k IH]; intros n Hk Hn; [lia|].
  destruct (in_edges graph n) as [|[p n'] l] eqn:E.
  - apply Hsrc. unfold nodes_without_inputs.
    apply list_elem_of_filter. by rewrite E.
  - assert (p ∈ (in_edges graph n).*1) as Hp by (rewrite E; by left).
    apply elem_of_in_edges in Hp.
    assert (p ∈ order) as Hpo.
    { apply IH; [|by apply Hwf in Hp as [? ?]]. apply Hr in Hp. lia. }
    eapply before_elem_of, Hpost; done.
Qed.

End pts_props.

(** ** sub_graph_between_nodes: the first loop *)

Lemma foldl_inv {A B} (f : A → B → A) (I : A → Prop) (l : list B) (a : A) :
  I a → (∀ a b, b ∈ l → I a → I (f a b)) → I (foldl f a l).
Proof.
  revert a. induction l as [|b l IH]; intros a Ha Hf; [done|]. simpl.
  apply IH.
  - apply Hf; [by left|done].
  - intros a' b' ?. apply Hf. by right.
Qed.

Section grow_props.
Context (graph : Graph) (start_nodes end_nodes : list string).

Lemma grow_out_cases cur s x :
  grow_out cur s x = s ∨ (x ∉ s.1.2 ∧ grow_out cur s x = grow_push cur s x).
Proof.
  destruct s as [[d V] prev]. simpl.
  destruct (decide (x ∈ V)); [by left|by right].
Qed.

Lemma grow_in_cases cur s x :
  grow_in start_nodes cur s x = s
  ∨ (x ∉ s.1.2 ∧ cur ∉ start_nodes
     ∧ grow_in start_nodes cur s x = grow_push cur s x).
Proof.
  destruct s as [[d V] prev]. simpl.
  destruct (decide _) as [[? ?]|]; [by right|by left].
Qed.

(** Every iteration is a sequence of pushes of nodes next to [cur]. *)
Lemma grow_node_inv (I : grow_state → Prop) cur s :
  I s →
  (∀ s x, I s → x ∉ s.1.2 → edge graph cur x ∨ edge graph x cur →
          I (grow_push cur s x)) →
  I (grow_node graph start_nodes end_nodes cur s).
Proof.
  intros Hs Hpush. unfold grow_node. apply foldl_inv.
  - destruct (decide (cur ∈ end_nodes)); [done|]. apply foldl_inv; [done|].
    intros a x Hx%elem_of_out_edges Ha.
    destruct (grow_out_cases cur a x) as [->|[? ->]]; auto.
  - intros a x Hx%elem_of_in_edges Ha.
    destruct (grow_in_cases cur a x) as [->|(? & ? & ->)]; auto.
Qed.

Lemma grow_push_measure cur s x :
  x ∈ nodes graph → x ∉ s.1.2 →
  grow_measure graph (grow_push cur s x) = grow_measure graph s.
Proof.
  destruct s as [[d V] prev]. simpl. intros Hx HxV.
  rewrite length_app. simpl.
  assert (list_to_set (nodes graph) ∖ V
          = {[x]} ∪ list_to_set (nodes graph) ∖ (V ∪ {[x]})) as ->.
  { apply set_eq. intros y. destruct (decide (y = x)) as [->|]; set_solver. }
  rewrite size_add_fresh; [lia|set_solver].
Qed.

Lemma grow_node_measure cur s :
  wf_graph graph →
  grow_measure graph (grow_node graph start_nodes end_nodes cur s)
  = grow_measure graph s.
Proof.
  intros Hwf.
  apply (grow_node_inv (λ s', grow_measure graph s' = grow_measure graph s));
    [done|].
  intros s' x <- Hx Hedge. apply grow_push_measure; [|done].
  destruct Hedge as [H|H]; by apply Hwf in H as [? ?].
Qed.

Lemma grow_terminates fuel :
  wf_graph graph →
  length start_nodes + length (nodes graph) < fuel →
  ∃ r, grow fuel graph start_nodes end_nodes = Some r.
Proof.
  intros Hwf Hfuel. unfold grow.
  apply (while_terminates _ (λ _, True) (λ s, grow_measure graph s.1)); [|done|].
  - intros [[[d V] prev] sub] s' _ Hb. split; [done|].
    destruct d as [|cur d]; [done|]. injection Hb as <-.
    cbn [fst]. rewrite grow_node_measure; [|done]. simpl. lia.
  - simpl.
    assert (size (list_to_set (nodes graph) ∖ (list_to_set start_nodes : gset string))
            ≤ length (nodes graph)).
    { etrans; [apply subseteq_size, subseteq_difference_l; reflexivity|].
      rewrite size_list_to_set; [done|]. apply Hwf. }
    lia.
Qed.

Lemma prev_chain_insert prev (V : gset string) x cur n k :
  (∀ n p, prev !! n = Some p → p ∈ V) → x ∉ V → n ≠ x →
  prev_chain prev n k → prev_chain (<[x := cur]> prev) n k.
Proof.
  intros HV Hx Hn H. induction H as [n H|n p k H _ IH].
  - apply prev_chain_root. by rewrite lookup_insert_ne.
  - eapply prev_chain_step; [by rewrite lookup_insert_ne|].
    apply IH. intros ->. apply Hx. by eapply HV.
Qed.

Lemma grow_push_inv cur s x :
  cur ∈ s.1.2 → x ∉ s.1.2 →
  grow_inv start_nodes s → grow_inv start_nodes (grow_push cur s x).
Proof.
  destruct s as [[d V] prev]. simpl. intros Hcur Hx (Hd & Hst & Hprev & Hch).
  assert (∀ n p, prev !! n = Some p → p ∈ V) as HpV.
  { intros n p H. by apply Hprev in H as (_ & ? & _). }
  split_and!.
  - intros y [?| ->%list_elem_of_singleton]%elem_of_app; set_solver.
  - intros y Hy. apply elem_of_union_l. auto.
  - intros n p. destruct (decide (x = n)) as [->|Hne].
    + rewrite lookup_insert_eq. intros [= <-].
      split_and!; [set_solver|set_solver|]. intros ?. apply Hx. auto.
    + rewrite lookup_insert_ne; [|done]. intros (? & ? & ?)%Hprev.
      split_and!; [set_solver|set_solver|done].
  - intros n. destruct (decide (n = x)) as [->|Hne].
    + destruct (Hch cur) as [k Hk]. exists (S k).
      eapply prev_chain_step; [by rewrite lookup_insert_eq|].
      eapply prev_chain_insert; [done..| |done]. by intros ->.
    + destruct (Hch n) as [k Hk]. exists k.
      by eapply prev_chain_insert.
Qed.

Lemma grow_push_visited cur s x : s.1.2 ⊆ (grow_push cur s x).1.2.
Proof. destruct s as [[d V] prev]. simpl. set_solver. Qed.

Lemma grow_body_inv s s' :
  grow_inv start_nodes s.1 →
  grow_body graph start_nodes end_nodes s = inl s' →
  grow_inv start_nodes s'.1.
Proof.
  destruct s as [[[d V] prev] sub]. simpl.
  destruct d as [|cur d]; [done|]. intros (Hd & Hst & Hprev & Hch) [= <-].
  simpl.
  apply (grow_node_inv (λ s, cur ∈ s.1.2 ∧ grow_inv start_nodes s)).
  - split; [apply Hd; by left|]. split_and!; [|done..].
    intros x ?. apply Hd. by right.
  - intros s x [Hcur Hinv] Hx _. split.
    + by apply grow_push_visited.
    + by apply grow_push_inv.
Qed.

Lemma grow_inv_init :
  grow_inv start_nodes (start_nodes, list_to_set start_nodes, ∅).
Proof.
  split_and!.
  - intros x. by rewrite elem_of_list_to_set.
  - intros x. by rewrite elem_of_list_to_set.
  - intros n p. by rewrite lookup_empty.
  - intros n. exists 0. by apply prev_chain_root.
Qed.

(** The ['prev'] attributes that the loop leaves lead from every node to
    a node without ['prev'] in finitely many steps. *)
Lemma grow_prev_chain fuel sub prev :
  grow fuel graph start_nodes end_nodes = Some (sub, prev) →
  (∀ n, ∃ k, prev_chain prev n k)
  ∧ (∀ n p, prev !! n = Some p → n ∉ start_nodes).
Proof.
  intros H.
  apply (while_inv _ (λ s, grow_inv start_nodes s.1)) in H.
  - destruct H as ([[[d V] prev'] sub'] & Hinv & Hb). simpl in *.
    destruct d; [|done]. injection Hb as -> ->.
    destruct Hinv as (_ & _ & Hprev & Hch). split; [done|].
    intros n p Hn. by apply Hprev in Hn as (_ & _ & ?).
  - intros ??. apply grow_body_inv.
  - apply grow_inv_init.
Qed.

Lemma input_path_terminates prev n k fuel path :
  prev_chain prev n k → k + 1 < fuel →
  ∃ path', while (path_body prev) fuel (Some n, path) = Some path'.
Proof.
  intros H. revert fuel path.
  induction H as [n H|n p k H _ IH]; intros fuel path Hfuel.
  - destruct fuel as [|[|fuel]]; [lia..|]. simpl.
    destruct (decide (n = "")); [eauto|]. rewrite H. simpl. eauto.
  - destruct fuel as [|fuel]; [lia|]. simpl.
    destruct (decide (n = "")); [eauto|]. rewrite H. apply IH. lia.
Qed.
End grow_props.

(** ** sub_graph_between_nodes: the check of the end nodes *)

Section forward_props.
Context (graph : Graph).

Lemma forward_dfs_mono fuel fuel' l V r :
  forward_dfs fuel graph l V = Some r → fuel ≤ fuel' →
  forward_dfs fuel' graph l V = Some r.
Proof.
  intros H Hf. revert V H. induction l as [|s l IH]; intros V; [done|].
  simpl. destruct (dfs fuel graph s V) as [[o V1]|] eqn:E; [|done].
  unfold dfs in *. rewrite (while_mono _ _ _ _ _ E Hf). apply IH.
Qed.

Lemma forward_dfs_spec fuel l :
  wf_graph graph → dfs_fuel graph ≤ fuel →
  ∀ V, (∀ x y, x ∈ V → edge graph x y → y ∈ V) →
  ∃ V', forward_dfs fuel graph l V = Some V'
        ∧ (∀ x y, x ∈ V' → edge graph x y → y ∈ V')
        ∧ V ⊆ V'
        ∧ (∀ s, s ∈ l → s ∈ V')
        ∧ (∀ x, x ∈ V' → x ∈ V ∨ ∃ s, s ∈ l ∧ reachable graph s x).
Proof.
  intros Hwf Hfuel. induction l as [|s l IH]; intros V Hcl.
  - exists V. split_and!; [done..| |auto]. by intros s ?%elem_of_nil.
  - simpl. destruct (dfs_terminates graph fuel s V Hwf Hfuel) as [[o V1] Hdfs].
    rewrite Hdfs.
    pose proof (dfs_sound _ _ _ _ _ _ Hdfs) as (HV & Hs & Hreach).
    pose proof (dfs_closed _ _ _ _ _ _ Hdfs Hcl) as Hcl1.
    destruct (IH V1 Hcl1) as (V' & -> & Hcl' & HV1 & Hl & Hreach').
    exists V'. split_and!; [done|done|set_solver| |].
    + intros x [->|?]%elem_of_cons; [set_solver|auto].
    + intros x [Hx|(s' & ? & ?)]%Hreach'.
      * destruct (Hreach x Hx) as [?|?]; [auto|].
        right. exists s. split; [by left|done].
      * right. exists s'. split; [by right|done].
Qed.

(** The forward check visits the nodes that are reachable from a start
    node, and no other. *)
Lemma forward_dfs_reachable fuel start_nodes :
  wf_graph graph → dfs_fuel graph ≤ fuel →
  ∃ forward_visited,
    forward_dfs fuel graph start_nodes ∅ = Some forward_visited
    ∧ ∀ x, x ∈ forward_visited
           ↔ ∃ s, s ∈ start_nodes ∧ reachable graph s x.
Proof.
  intros Hwf Hfuel.
  destruct (forward_dfs_spec fuel start_nodes Hwf Hfuel ∅)
    as (V & HV & Hcl & _ & Hl & Hreach); [set_solver|].
  exists V. split; [done|]. intros x. split.
  - intros [?|?]%Hreach; [set_solver|done].
  - intros (s & Hs & Hsx). apply Hl in Hs.
    induction Hsx as [|a b c Hab _ IH]; [done|]. apply IH. by eapply Hcl.
Qed.
End forward_props.

(** ** sub_graph_between_nodes: the check of the collected nodes *)

Lemma get_op_Raise graph n e :
  get_op graph n = Raise e ↔ node graph !! n = None ∧ e = KeyError n.
Proof.
  unfold get_op. destruct (node graph !! n) as [a|]; split; try done.
  - by intros [? _].
  - by intros [= <-].
  - by intros [_ ->].
Qed.

Lemma check_inputs_mono fuel fuel' graph prev sub l r :
  check_inputs fuel graph prev sub l = Some r → fuel ≤ fuel' →
  check_inputs fuel' graph prev sub l = Some r.
Proof.
  intros H Hf. induction l as [|n l IH]; [done|]. simpl in *.
  destruct (get_op graph n) as [o|e]; [|done].
  destruct (decide (o = "Placeholder")); [|auto].
  unfold input_path in *.
  destruct (while (path_body prev) fuel _) eqn:E; [|done].
  by rewrite (while_mono _ _ _ _ _ E Hf).
Qed.

Lemma check_inputs_outcome fuel graph prev sub l :
  (∀ n, n ∈ l → is_Some (input_path fuel prev n)) →
  check_inputs fuel graph prev sub l = Some (inputs_outcome graph sub l).
Proof.
  induction l as [|n l IH]; intros Hp; [done|]. simpl.
  destruct (get_op graph n) as [o|e]; [|done].
  destruct (decide (o = "Placeholder")).
  - destruct (Hp n) as [p ->]; [by left|done].
  - apply IH. intros ??. apply Hp. by right.
Qed.

Lemma check_inputs_Some fuel graph prev sub l r :
  check_inputs fuel graph prev sub l = Some r → r = inputs_outcome graph sub l.
Proof.
  induction l as [|n l IH]; simpl.
  - by intros [= <-].
  - destruct (get_op graph n) as [o|e]; [|by intros [= <-]].
    destruct (decide (o = "Placeholder")); [|done].
    destruct (input_path fuel prev n); [|done]. by intros [= <-].
Qed.

Lemma inputs_outcome_app graph sub l1 l2 :
  (∀ x, x ∈ l1 → not_input graph x) →
  inputs_outcome graph sub (l1 ++ l2) = inputs_outcome graph sub l2.
Proof.
  induction l1 as [|a l1 IH]; intros H; [done|]. simpl.
  destruct (H a) as (o & -> & Ho); [by left|].
  rewrite decide_False; [|done]. apply IH. intros ??. apply H. by right.
Qed.

Lemma inputs_outcome_Return graph sub l r :
  inputs_outcome graph sub l = Return r
  ↔ r = sub ∧ ∀ n, n ∈ l → not_input graph n.
Proof.
  induction l as [|a l IH]; simpl.
  - split.
    + intros [= <-]. split; [done|]. by intros n ?%elem_of_nil.
    + by intros [-> _].
  - destruct (get_op graph a) as [o|e] eqn:E.
    + destruct (decide (o = "Placeholder")) as [->|Ho].
      * split; [done|]. intros [_ H]. destruct (H a) as (o & Ho & ?); [by left|].
        unfold not_input in *. congruence.
      * rewrite IH. split.
        -- intros [-> H]. split; [done|].
           intros n [->|?]%elem_of_cons; [by exists o|auto].
        -- intros [-> H]. split; [done|]. intros ??. apply H. by right.
    + split; [done|]. intros [_ H]. destruct (H a) as (o & Ho & ?); [by left|].
      congruence.
Qed.

(** The loop stops at the first node that is not a node of the graph or
    whose op is ['Placeholder']. *)
Lemma inputs_outcome_Raise graph sub l e :
  inputs_outcome graph sub l = Raise e
  ↔ ∃ l1 n l2,
      l = l1 ++ n :: l2
      ∧ (∀ x, x ∈ l1 → not_input graph x)
      ∧ ((get_op graph n = Return "Placeholder"
          ∧ e = Error (ContainsNetworkInput n))
         ∨ (node graph !! n = None ∧ e = KeyError n)).
Proof.
  split.
  - induction l as [|a l IH]; [done|]. simpl.
    destruct (get_op graph a) as [o|e'] eqn:E.
    + destruct (decide (o = "Placeholder")) as [->|Ho].
      * intros [= <-]. exists [], a, l. split_and!; [done| |auto].
        by intros x ?%elem_of_nil.
      * intros (l1 & n & l2 & -> & H1 & H2)%IH. exists (a :: l1), n, l2.
        split_and!; [done| |done].
        intros x [->|?]%elem_of_cons; [by exists o|auto].
    + intros [= <-]. apply get_op_Raise in E as [E ->].
      exists [], a, l. split_and!; [done| |auto]. by intros x ?%elem_of_nil.
  - intros (l1 & n & l2 & -> & H1 & H2). rewrite inputs_outcome_app; [|done].
    simpl. destruct H2 as [[-> ->]|[H ->]].
    + by rewrite decide_True.
    + unfold get_op. by rewrite H.
Qed.

Lemma sub_graph_between_nodes_mono fuel fuel' graph start_nodes end_nodes r :
  sub_graph_between_nodes fuel graph start_nodes end_nodes = Some r →
  fuel ≤ fuel' →
  sub_graph_between_nodes fuel' graph start_nodes end_nodes = Some r.
Proof.
  unfold sub_graph_between_nodes, grow. intros H Hf.
  destruct (while (grow_body _ _ _) fuel _) as [[sub prev]|] eqn:E1; [|done].
  rewrite (while_mono _ _ _ _ _ E1 Hf). simpl in *.
  destruct (forward_dfs fuel _ _ _) as [fv|] eqn:E2; [|done].
  rewrite (forward_dfs_mono _ _ _ _ _ _ E2 Hf). simpl in *.
  destruct (List.find _ end_nodes); [done|].
  by eapply check_inputs_mono.
Qed.

(** ** sub_graph_between_nodes: the result *)

(** The function returns or raises on every well-formed graph: with the
    nodes [sub_graph_nodes] of the first loop and the set [forward_visited]
    of the forward check, the first end node that is not in
    [forward_visited] is reported, else the last loop goes through
    [sub_graph_nodes]. *)
Lemma sub_graph_between_nodes_result graph start_nodes end_nodes :
  wf_graph graph →
  ∃ fuel0 sub_graph_nodes prev forward_visited,
    grow fuel0 graph start_nodes end_nodes = Some (sub_graph_nodes, prev)
    ∧ forward_dfs fuel0 graph start_nodes ∅ = Some forward_visited
    ∧ (∀ x, x ∈ forward_visited ↔ ∃ s, s ∈ start_nodes ∧ reachable graph s x)
    ∧ ∀ fuel, fuel0 ≤ fuel →
        sub_graph_between_nodes fuel graph start_nodes end_nodes
        = Some
            match List.find (λ end_node, bool_decide (end_node ∉ forward_visited))
                            end_nodes with
            | Some end_node =>
                Raise (Error (EndNodeNotReachable end_node start_nodes))
            | None => inputs_outcome graph sub_graph_nodes sub_graph_nodes
            end.
Proof.
  intros Hwf.
  set (f1 := S (length start_nodes + length (nodes graph)) `max` dfs_fuel graph).
  destruct (grow_terminates graph start_nodes end_nodes f1 Hwf) as [[sub prev] Hg];
    [lia|].
  destruct (forward_dfs_reachable graph f1 start_nodes Hwf) as (fv & Hfv & Hreach);
    [lia|].
  pose proof (grow_prev_chain _ _ _ _ _ _ Hg) as [Hch _].
  assert (∃ f2, f1 ≤ f2 ∧ ∀ n, n ∈ sub → ∀ fuel, f2 ≤ fuel →
            is_Some (input_path fuel prev n)) as (f2 & Hf2 & Hpath).
  { clear Hg. induction sub as [|a sub (f2 & Hf2 & IH)].
    - exists f1. split; [done|]. by intros n ?%elem_of_nil.
    - destruct (Hch a) as [k Hk]. exists (f2 `max` (k + 2)). split; [lia|].
      intros n [->|Hn]%elem_of_cons fuel Hfuel.
      + destruct (input_path_terminates prev a k fuel [] Hk) as [p Hp]; [lia|].
        by exists p.
      + apply IH; [done|lia]. }
  exists f2, sub, prev, fv. split_and!; [|by eapply forward_dfs_mono|done|].
  { unfold grow in *. by eapply while_mono. }
  intros fuel Hfuel. unfold sub_graph_between_nodes.
  unfold grow in *. rewrite (while_mono _ _ _ _ _ Hg); [|lia]. simpl.
  rewrite (forward_dfs_mono _ _ _ _ _ _ Hfv); [|lia]. simpl.
  destruct (List.find _ end_nodes); [done|].
  apply check_inputs_outcome. intros n Hn. by apply Hpath.
Qed.

(** The first element that [find] returns splits the list. *)
Lemma find_app_Some (P : string → Prop) `{∀ x, Decision (P x)} l n :
  List.find (λ x, bool_decide (P x)) l = Some n →
  ∃ l1 l2, l = l1 ++ n :: l2 ∧ P n ∧ ∀ x, x ∈ l1 → ¬ P x.
Proof.
  induction l as [|a l IH]; [done|]. simpl. case_bool_decide as Ha.
  - intros [= ->]. exists [], l. split_and!; [done..|]. by intros x ?%elem_of_nil.
  - intros (l1 & l2 & -> & ? & Hl1)%IH. exists (a :: l1), l2.
    split_and!; [done..|]. intros x [->|?]%elem_of_cons; auto.
Qed.


(** ** is_connected_component *)

Section icc_props.
Context (graph : Graph) (node_names : list string).

Lemma elem_of_adj_nodes cur x :
  x ∈ adj_nodes graph node_names cur
  ↔ x ∈ node_names ∧ (edge graph x cur ∨ edge graph cur x).
Proof.
  unfold adj_nodes, in_edges, out_edges, edge.
  rewrite elem_of_app, !list_elem_of_fmap. split.
  - intros [([a b] & -> & H)|([a b] & -> & H)];
      apply list_elem_of_filter in H as [H1 [H2 H3]%list_elem_of_filter];
      simpl in *; subst; auto.
  - intros [Hx [H|H]].
    + left. exists (x, cur). split; [done|].
      apply list_elem_of_filter. split; [done|]. by apply list_elem_of_filter.
    + right. exists (cur, x). split; [done|].
      apply list_elem_of_filter. split; [done|]. by apply list_elem_of_filter.
Qed.

Lemma icc_fold_spec l d V d' V' :
  foldl icc_visit (d, V) l = (d', V') →
  (∀ x, x ∈ V' ↔ x ∈ V ∨ x ∈ l)
  ∧ (∀ x, x ∈ d' ↔ x ∈ d ∨ (x ∈ l ∧ x ∉ V))
  ∧ ((∀ x, x ∈ l → x ∈ node_names) →
     icc_measure node_names (d', V') = icc_measure node_names (d, V)).
Proof.
  revert d V. induction l as [|a l IH]; intros d V; simpl.
  - intros [= <- <-]. split_and!; [set_solver..|done].
  - destruct (decide (a ∈ V)) as [Ha|Ha]; intros (HV & Hd & Hm)%IH.
    + split_and!; [set_solver|set_solver|].
      intros Hl. apply Hm. intros x ?. apply Hl. by right.
    + split_and!.
      * set_solver.
      * intros x. rewrite Hd. destruct (decide (x = a)) as [->|]; set_solver.
      * intros Hl. rewrite Hm; [|intros x ?; apply Hl; by right].
        unfold icc_measure. simpl. rewrite length_app. simpl.
        assert (list_to_set node_names ∖ V
                = {[a]} ∪ list_to_set node_names ∖ (V ∪ {[a]})) as ->.
        { apply set_eq. intros y. destruct (decide (y = a)) as [->|]; [|set_solver].
          assert (a ∈ node_names) by (apply Hl; by left). set_solver. }
        rewrite size_add_fresh; [lia|set_solver].
Qed.

Lemma icc_body_inl d V s' :
  icc_body graph node_names (d, V) = inl s' →
  ∃ cur rest, d = cur :: rest
    ∧ s' = foldl icc_visit (rest, V ∪ {[cur]}) (adj_nodes graph node_names cur).
Proof. destruct d as [|cur rest]; [done|]. intros [= <-]. eauto. Qed.

Lemma icc_body_measure s s' :
  icc_body graph node_names s = inl s' →
  icc_measure node_names s' < icc_measure node_names s.
Proof.
  destruct s as [d V]. intros (cur & rest & -> & ->)%icc_body_inl.
  destruct (foldl _ _ _) as [d' V'] eqn:E.
  apply icc_fold_spec in E as (_ & _ & ->).
  - unfold icc_measure. simpl.
    assert (size (list_to_set node_names ∖ (V ∪ {[cur]}))
            ≤ size (list_to_set node_names ∖ V)); [|lia].
    apply subseteq_size. set_solver.
  - intros x Hx. by apply elem_of_adj_nodes in Hx as [? _].
Qed.

Lemma icc_body_inv n0 s s' :
  icc_inv graph node_names n0 s →
  icc_body graph node_names s = inl s' →
  icc_inv graph node_names n0 s'.
Proof.
  destruct s as [d V]. intros (Hn0 & Hd & Hin & Hreach & Hcl).
  intros (cur & rest & -> & ->)%icc_body_inl.
  destruct (foldl _ _ _) as [d' V'] eqn:E.
  apply icc_fold_spec in E as (HV' & Hd' & _).
  assert (cur ∈ V) as Hcur by (apply Hd; by left).
  split_and!.
  - apply HV'. set_solver.
  - intros x [?|[? ?]]%Hd'; apply HV'; [|auto].
    left. apply elem_of_union_l, Hd. by right.
  - intros x [[?| ->%elem_of_singleton]%elem_of_union|Hx]%HV'; [auto..|].
    by apply elem_of_adj_nodes in Hx as [Hx _].
  - intros x [[?| ->%elem_of_singleton]%elem_of_union|Hx]%HV'; [auto..|].
    apply elem_of_adj_nodes in Hx as [Hx Hedge].
    eapply rtc_r; [by apply Hreach|].
    split_and!; [by apply Hin|done|]. tauto.
  - intros x y Hx Hxd Hxy. apply HV'.
    destruct (decide (x = cur)) as [->|Hne].
    + right. apply elem_of_adj_nodes. destruct Hxy as (_ & ? & ?). tauto.
    + left. apply elem_of_union_l.
      assert (x ∈ V).
      { apply HV' in Hx as [[?|?%elem_of_singleton]%elem_of_union|Hx]; [done..|].
        destruct (decide (x ∈ V)) as [|HxV]; [done|].
        destruct Hxd. apply Hd'. right. split; [done|]. set_solver. }
      eapply Hcl; [done| |done].
      intros [->|?]%elem_of_cons; [done|]. apply Hxd, Hd'. auto.
Qed.
End icc_props.

(** ** backward_bfs_for_operation *)

Section bbfs_props.
Context (graph : Graph) (op_names : list string).

Lemma bbfs_visit_cases q ret pnode :
  (bbfs_visit graph op_names (q, ret) pnode).1 = q
  ∨ (bbfs_visit graph op_names (q, ret) pnode).1 = q ++ [pnode].
Proof.
  unfold bbfs_visit.
  repeat (destruct (decide _) || destruct (op_in _ _ _)); simpl; auto.
Qed.

Lemma bbfs_fold_weight (w : string → nat) l q ret :
  sum_list_with w (foldl (bbfs_visit graph op_names) (q, ret) l).1
  ≤ sum_list_with w q + sum_list_with w l.
Proof.
  revert q ret. induction l as [|p l IH]; intros q ret; [simpl; lia|].
  cbn [foldl sum_list_with].
  destruct (bbfs_visit graph op_names (q, ret) p) as [q' ret'] eqn:E.
  etrans; [apply IH|].
  destruct (bbfs_visit_cases q ret p) as [H|H]; rewrite E in H; simpl in H;
    subst q'; [lia|].
  rewrite sum_list_with_app. simpl. lia.
Qed.

(** Every node is recorded in [ret] once. *)
Lemma bbfs_visit_NoDup q ret pnode :
  NoDup ret → NoDup (bbfs_visit graph op_names (q, ret) pnode).2.
Proof.
  intros H. unfold bbfs_visit.
  repeat (destruct (decide _) || destruct (op_in _ _ _)); simpl; try done.
  apply NoDup_app. split_and!; [done| |apply NoDup_singleton].
  by intros x ? ->%list_elem_of_singleton.
Qed.

Lemma bbfs_ret_NoDup fuel start_node ret :
  backward_bfs_for_operation fuel graph start_node op_names = Some ret →
  NoDup ret.
Proof.
  intros H. apply (while_inv _ (λ s, NoDup s.2)) in H.
  - destruct H as ([[|??] ret'] & H & Hb); [|done]. by injection Hb as <-.
  - intros [q r] s' Hr Hb. destruct q as [|n q]; [done|]. injection Hb as <-.
    apply (foldl_inv _ (λ s, NoDup s.2)); [done|].
    intros [q' r'] p _ ?. by apply bbfs_visit_NoDup.
  - apply NoDup_nil_2.
Qed.
End bbfs_props.

(** ** node_neighbourhood *)

Lemma dict_get_set d k v k' :
  dict_get (dict_set d k v) k' = if decide (k = k') then Some v else dict_get d k'.
Proof.
  induction d as [|[a b] d IH]; simpl.
  - by destruct (decide (k = k')).
  - destruct (decide (a = k)) as [->|Hne]; simpl.
    + by destruct (decide (k = k')).
    + destruct (decide (a = k')) as [->|]; [|done].
      by rewrite decide_False.
Qed.

Lemma dict_set_set d k v v' : dict_set (dict_set d k v) k v' = dict_set d k v'.
Proof.
  induction d as [|[a b] d IH]; simpl.
  - by rewrite decide_True.
  - destruct (decide (a = k)) as [->|Hne]; simpl.
    + by rewrite decide_True.
    + rewrite decide_False; [|done]. by rewrite IH.
Qed.

Lemma dict_get_None d k : dict_get d k = None ↔ k ∉ d.*1.
Proof.
  induction d as [|[a b] d IH]; simpl.
  - split; [intros _; apply not_elem_of_nil|done].
  - rewrite not_elem_of_cons. destruct (decide (a = k)) as [->|Hne].
    + split; [done|]. by intros [? _].
    + rewrite IH. split; [by split|]. by intros [_ ?].
Qed.

Lemma dict_set_keys d k v :
  (dict_set d k v).*1 = if dict_get d k then d.*1 else d.*1 ++ [k].
Proof.
  induction d as [|[a b] d IH]; [done|]. cbn [dict_set dict_get].
  destruct (decide (a = k)) as [->|Hne]; [done|].
  rewrite !fmap_cons, IH. by destruct (dict_get d k).
Qed.

Lemma dict_set_NoDup d k v : NoDup d.*1 → NoDup (dict_set d k v).*1.
Proof.
  intros H. rewrite dict_set_keys. destruct (dict_get d k) eqn:E; [done|].
  apply NoDup_app. split_and!; [done| |apply NoDup_singleton].
  intros x Hx ->%list_elem_of_singleton. by apply dict_get_None in E.
Qed.

(** One step of the loop over the next nodes: the distance of [y] is set
    and [y] is put into the queue unless [y] has a distance that is at
    most [cur_dist + 1]. *)
Lemma nn_visit_eq depth cur_dist dist deq y :
  (cur_dist < depth)%Z →
  nn_visit depth cur_dist (dist, deq) y
  = match dict_get dist y with
    | Some v =>
        if decide (v > cur_dist + 1)%Z
        then (dict_set dist y (cur_dist + 1), deq ++ [y])
        else (dist, deq)
    | None => (dict_set dist y (cur_dist + 1), deq ++ [y])
    end.
Proof.
  intros Hlt. unfold nn_visit, setdefault.
  destruct (dict_get dist y) as [v|]; [done|].
  rewrite decide_True; [|lia]. by rewrite dict_set_set.
Qed.

Lemma sum_list_with_le {A} (c c' : A → nat) U :
  (∀ x, x ∈ U → c' x ≤ c x) → sum_list_with c' U ≤ sum_list_with c U.
Proof.
  induction U as [|a U IH]; intros H; simpl; [done|].
  assert (c' a ≤ c a) by (apply H; by left).
  assert (sum_list_with c' U ≤ sum_list_with c U); [|lia].
  apply IH. intros x ?. apply H. by right.
Qed.

Lemma sum_list_with_lt {A} (c c' : A → nat) U y :
  y ∈ U → c' y < c y → (∀ x, x ∈ U → c' x ≤ c x) →
  sum_list_with c' U < sum_list_with c U.
Proof.
  induction U as [|a U IH]; intros Hy Hlt H; [by apply elem_of_nil in Hy|].
  simpl. assert (c' a ≤ c a) by (apply H; by left).
  assert (∀ x, x ∈ U → c' x ≤ c x) as HU by (intros x ?; apply H; by right).
  apply elem_of_cons in Hy as [->|Hy].
  - pose proof (sum_list_with_le c c' U HU). lia.
  - specialize (IH Hy Hlt HU). lia.
Qed.

Lemma ball_nsteps next_node_fn k j s x :
  nsteps (nbr next_node_fn) j s x → j ≤ k → x ∈ ball next_node_fn k s.
Proof.
  revert j s. induction k as [|k IH]; intros j s Hj Hle.
  - assert (j = 0) as -> by lia. inversion Hj; subst. by left.
  - inversion Hj as [|j' a b c Hab Hbc]; subst; simpl; [by left|].
    right. apply list_elem_of_bind. exists b. split; [|done].
    eapply IH; [done|lia].
Qed.

Lemma foldl_inv_each {A B} (f : A → B → A) (I : A → Prop) (Q : B → A → Prop)
    (l : list B) (a : A) :
  I a →
  (∀ a b, b ∈ l → I a → I (f a b) ∧ Q b (f a b)) →
  (∀ a b b', b' ∈ l → I a → Q b a → Q b (f a b')) →
  I (foldl f a l) ∧ ∀ b, b ∈ l → Q b (foldl f a l).
Proof.
  revert a. induction l as [|b l IH]; intros a Ha Hstep Hstable.
  - split; [done|]. by intros b ?%elem_of_nil.
  - simpl. destruct (Hstep a b) as [Ha1 Hb1]; [by left|done|].
    destruct (IH (f a b)) as [HI HQ]; [done| | |].
    { intros a' b' ?. apply Hstep. by right. }
    { intros a' b' b'' ?. apply Hstable. by right. }
    split; [done|]. intros b' [->|?]%elem_of_cons; [|auto].
    apply (foldl_inv f (λ a, I a ∧ Q b a)); [done|].
    intros a' b'' ? [? ?]. split.
    + apply Hstep; [by right|done].
    + apply Hstable; [by right|done..].
Qed.

Section nn_props.
Context (next_node_fn : string → list string) (depth : Z) (node_name : string).

Local Notation U := (nn_universe next_node_fn depth node_name).
Local Notation bound := (nn_bound depth).

Lemma dist_or_set dist y v x :
  dist_or bound (dict_set dist y v) x
  = if decide (y = x) then Z.to_nat v else dist_or bound dist x.
Proof. unfold dist_or. rewrite dict_get_set. by destruct (decide (y = x)). Qed.

Lemma nn_visit_fold_inv m cur cur_dist s y :
  (cur_dist < depth)%Z → y ∈ next_node_fn cur →
  nn_fold_inv next_node_fn depth node_name U m cur cur_dist s →
  nn_fold_inv next_node_fn depth node_name U m cur cur_dist
    (nn_visit depth cur_dist s y)
  ∧ ∃ v', dict_get (nn_visit depth cur_dist s y).1 y = Some v'
          ∧ (v' ≤ cur_dist + 1)%Z.
Proof.
  destruct s as [dist deq]. intros Hlt Hy Hinv.
  pose proof Hinv as ((Hnd & Hstart & Hok) & Hdeq & Hcur & Hexp & Hm).
  destruct (Hok cur cur_dist Hcur) as (Hcd0 & Hcdsteps & _).
  rewrite nn_visit_eq; [|done].
  assert ((∃ v, dict_get dist y = Some v ∧ (v ≤ cur_dist + 1)%Z)
          ∨ ((dict_get dist y = None
              ∨ ∃ v, dict_get dist y = Some v ∧ (v > cur_dist + 1)%Z)
             ∧ (match dict_get dist y with
                | Some v =>
                    if decide (v > cur_dist + 1)%Z
                    then (dict_set dist y (cur_dist + 1), deq ++ [y])
                    else (dist, deq)
                | None => (dict_set dist y (cur_dist + 1), deq ++ [y])
                end) = (dict_set dist y (cur_dist + 1), deq ++ [y])))
    as [(v & Hv & Hle)|[Hold ->]].
  { destruct (dict_get dist y) as [v|] eqn:E.
    - destruct (decide (v > cur_dist + 1)%Z).
      + right. split; [|done]. right. eauto.
      + left. exists v. split; [done|lia].
    - right. split; [by left|done]. }
  - rewrite Hv. rewrite decide_False; [|lia]. split; [done|]. simpl. eauto.
  - assert (y ≠ node_name) as Hys.
    { intros ->. rewrite Hstart in Hold. destruct Hold as [?|(v & [= <-] & ?)]; [done|lia]. }
    assert (y ≠ cur) as Hyc.
    { intros ->. rewrite Hcur in Hold. destruct Hold as [?|(v & [= <-] & ?)]; [done|lia]. }
    assert (nsteps (nbr next_node_fn) (Z.to_nat (cur_dist + 1)) node_name y) as Hsteps.
    { replace (Z.to_nat (cur_dist + 1)) with (S (Z.to_nat cur_dist)) by lia.
      by eapply nsteps_r. }
    split; [|simpl; rewrite dict_get_set, decide_True by done; eexists; split; [done|lia]].
    split_and!.
    + split_and!.
      * by apply dict_set_NoDup.
      * rewrite dict_get_set. by rewrite decide_False.
      * intros x v. rewrite dict_get_set. destruct (decide (y = x)) as [<-|]; [|auto].
        intros [= <-]. split_and!; [lia|done|lia].
    + intros x [Hx| ->%list_elem_of_singleton]%elem_of_app;
        rewrite dict_get_set; destruct (decide _); eauto; done.
    + rewrite dict_get_set. by rewrite decide_False.
    + intros x v Hxc. rewrite dict_get_set.
      destruct (decide (y = x)) as [<-|Hyx].
      { intros _ _ Hnot. destruct Hnot. apply elem_of_app. right. by left. }
      intros Hx Hv Hxd y' Hy'.
      destruct (Hexp x v Hxc Hx Hv) with (y := y') as (v' & Hv' & Hle); [|done|].
      { intros ?. apply Hxd, elem_of_app. by left. }
      rewrite dict_get_set. destruct (decide (y = y')) as [<-|]; [|eauto].
      eexists. split; [done|].
      destruct Hold as [Hn|(v0 & Hv0 & ?)]; [congruence|].
      assert (v0 = v') by congruence. lia.
    + etrans; [|exact Hm]. unfold nn_measure. simpl. rewrite length_app. simpl.
      assert (sum_list_with (dist_or bound (dict_set dist y (cur_dist + 1))) U
              < sum_list_with (dist_or bound dist) U); [|lia].
      apply (sum_list_with_lt _ _ _ y).
      * eapply ball_nsteps; [exact Hsteps|lia].
      * rewrite dist_or_set, decide_True by done. unfold dist_or.
        destruct Hold as [->|(v0 & -> & ?)]; unfold nn_bound; lia.
      * intros x _. rewrite dist_or_set. destruct (decide (y = x)) as [<-|]; [|done].
        unfold dist_or. destruct Hold as [->|(v0 & -> & ?)]; unfold nn_bound; lia.
Qed.
Lemma nn_visit_stable cur_dist s y b :
  (cur_dist < depth)%Z →
  (∃ v', dict_get s.1 b = Some v' ∧ (v' ≤ cur_dist + 1)%Z) →
  ∃ v', dict_get (nn_visit depth cur_dist s y).1 b = Some v'
        ∧ (v' ≤ cur_dist + 1)%Z.
Proof.
  destruct s as [dist deq]. intros Hlt (v' & Hv' & Hle).
  rewrite nn_visit_eq; [|done].
  assert (∃ v'', dict_get (dict_set dist y (cur_dist + 1)) b = Some v''
                 ∧ (v'' ≤ cur_dist + 1)%Z) as Hset.
  { rewrite dict_get_set. destruct (decide (y = b)); [|eauto].
    eexists. split; [done|lia]. }
  destruct (dict_get dist y) as [v|]; [|done].
  destruct (decide _); [done|]. simpl. eauto.
Qed.

Lemma nn_body_step s s' :
  nn_inv next_node_fn depth node_name s →
  nn_body depth next_node_fn s = inl s' →
  nn_inv next_node_fn depth node_name s'
  ∧ nn_measure U bound s' < nn_measure U bound s.
Proof.
  destruct s as [dist deq]. intros (Hok & Hdeq & Hexp) Hb.
  destruct deq as [|cur rest]; [done|]. simpl in Hb.
  destruct (Hdeq cur) as [cur_dist Hcur]; [by left|]. rewrite Hcur in Hb.
  destruct (decide (cur_dist < depth)%Z) as [Hlt|Hge]; injection Hb as <-.
  - destruct (foldl_inv_each (nn_visit depth cur_dist)
                (nn_fold_inv next_node_fn depth node_name U
                   (nn_measure U bound (dist, rest)) cur cur_dist)
                (λ y s, ∃ v', dict_get s.1 y = Some v' ∧ (v' ≤ cur_dist + 1)%Z)
                (next_node_fn cur) (dist, rest)) as [Hinv HQ].
    + split_and!; [done| |done| |done].
      * intros x ?. apply Hdeq. by right.
      * intros x v Hxc Hx Hv Hxr. apply Hexp; [done..|].
        intros [->|?]%elem_of_cons; done.
    + intros a y Hy Ha. by apply nn_visit_fold_inv.
    + intros a b b' _ _ Hq. by apply nn_visit_stable.
    + destruct (foldl _ _ _) as [dist' deq'].
      destruct Hinv as (Hok' & Hdeq' & Hcur' & Hexp' & Hm).
      split; [|unfold nn_measure in *; cbn [fst snd length] in *; lia].
      split_and!; [done..|].
      intros x v Hx Hv Hxd. destruct (decide (x = cur)) as [->|Hxc]; [|by apply Hexp'].
      assert (v = cur_dist) as -> by congruence.
      intros y Hy. by apply HQ.
  - split; [|unfold nn_measure; cbn [fst snd length]; lia].
    split_and!; [done| |].
    + intros x ?. apply Hdeq. by right.
    + intros x v Hx Hv Hxr. apply Hexp; [done..|].
      intros [->|?]%elem_of_cons; [|done]. assert (v = cur_dist) by congruence. lia.
Qed.

Lemma nn_inv_init :
  nn_inv next_node_fn depth node_name ([(node_name, 0%Z)], [node_name]).
Proof.
  split_and!.
  - split_and!.
    + apply NoDup_singleton.
    + simpl. by rewrite decide_True.
    + intros x v. simpl. destruct (decide (node_name = x)) as [<-|]; [|done].
      intros [= <-]. split_and!; [done|constructor|by left].
  - intros x ->%list_elem_of_singleton. simpl. by rewrite decide_True.
  - intros x v. simpl. destruct (decide (node_name = x)) as [<-|]; [|done].
    intros _ _ Hx. destruct Hx. by left.
Qed.

(** [node_neighbourhood] returns, each once, the start node and the nodes
    that a path of at most [depth] steps reaches from it. *)
Lemma node_neighbourhood_spec :
  ∃ fuel0 l,
    (∀ fuel, fuel0 ≤ fuel →
       node_neighbourhood fuel node_name depth next_node_fn = Some (Return l))
    ∧ NoDup l
    ∧ ∀ x, x ∈ l ↔ ∃ k, nsteps (nbr next_node_fn) k node_name x
                         ∧ (k = 0 ∨ (Z.of_nat k ≤ depth)%Z).
Proof.
  set (init := ([(node_name, 0%Z)], [node_name]) : list (string * Z) * list string).
  destruct (while_terminates (nn_body depth next_node_fn)
              (nn_inv next_node_fn depth node_name) (nn_measure U bound)
              nn_body_step (S (nn_measure U bound init)) init nn_inv_init)
    as [r Hr]; [lia|].
  pose proof Hr as Hr'.
  apply (while_inv _ (nn_inv next_node_fn depth node_name)) in Hr';
    [|intros s s' Hs Hb; by apply (nn_body_step s s')|apply nn_inv_init].
  destruct Hr' as ([dist deq] & ((Hnd & Hstart & Hok) & Hdeq & Hexp) & Hb).
  destruct deq as [|cur rest].
  2:{ simpl in Hb. destruct (Hdeq cur) as [v Hv]; [by left|]. rewrite Hv in Hb.
      by destruct (decide _). }
  injection Hb as <-.
  exists (S (nn_measure U bound init)), dist.*1. split_and!; [|done|].
  { intros fuel Hf. unfold node_neighbourhood. by eapply while_mono. }
  intros x. split.
  - intros Hx. destruct (dict_get dist x) as [v|] eqn:E.
    + destruct (Hok x v E) as (? & ? & ?). exists (Z.to_nat v). split; [done|lia].
    + by apply dict_get_None in E.
  - intros (k & Hk & Hle).
    assert (∀ k x, nsteps (nbr next_node_fn) k node_name x →
              (Z.of_nat k ≤ depth)%Z →
              ∃ v, dict_get dist x = Some v ∧ (v ≤ Z.of_nat k)%Z) as Hget.
    { clear k x Hk Hle. induction k as [|k IH]; intros x Hk Hle.
      - inversion Hk; subst. exists 0%Z. split; [done|lia].
      - apply nsteps_inv_r in Hk as (y & Hy & Hyx).
        destruct (IH y Hy) as (v & Hv & Hvk); [lia|].
        destruct (Hexp y v Hv) with (y := x) as (v' & Hv' & Hle');
          [lia|apply not_elem_of_nil|done|].
        exists v'. split; [done|lia]. }
    assert (is_Some (dict_get dist x)) as [v Hv].
    { destruct Hle as [->|Hle].
      - inversion Hk; subst. eauto.
      - destruct (Hget k x Hk Hle) as (v & ? & _). eauto. }
    destruct (decide (x ∈ dist.*1)) as [|Hn]; [done|].
    apply dict_get_None in Hn. congruence.
Qed.
End nn_props.

(** ** bfs_search *)

Lemma icc_visit_cases d (V : gset string) x :
  (x ∈ V ∧ icc_visit (d, V) x = (d, V))
  ∨ (x ∉ V ∧ icc_visit (d, V) x = (d ++ [x], V ∪ {[x]})).
Proof. simpl. destruct (decide (x ∈ V)); [by left|by right]. Qed.

Lemma before_snoc_last o n y : y ∈ o → before (o ++ [n]) y n.
Proof. intros Hy. by exists o, []. Qed.

Lemma before_app o o' y x : before o y x → before (o ++ o') y x.
Proof.
  intros (l1 & l2 & -> & Hy). exists l1, (l2 ++ o').
  split; [|done]. by rewrite <- app_assoc.
Qed.

Lemma bfs_seq_before graph start_nodes t :
  bfs_seq graph start_nodes t →
  ∀ x, x ∈ t → ∃ p, edge graph p x ∧ before (start_nodes ++ t) p x.
Proof.
  induction 1 as [|t x p _ IH Hpx Hp]; [by intros x ?%elem_of_nil|].
  intros x' [Hx'| ->%list_elem_of_singleton]%elem_of_app.
  - destruct (IH x' Hx') as (p' & ? & ?). exists p'. split; [done|].
    rewrite app_assoc. by apply before_app.
  - exists p. split; [done|]. rewrite app_assoc. by apply before_snoc_last.
Qed.

Section bfs_props.
Context (graph : Graph) (start_nodes : list string).

Lemma bfs_body_inl d V result s' :
  bfs_body graph (d, V, result) = inl s' →
  ∃ cur rest, d = cur :: rest
    ∧ s' = (foldl icc_visit (rest, V) (out_edges graph cur).*2, result ++ [cur]).
Proof. destruct d as [|cur rest]; [done|]. intros [= <-]. eauto. Qed.

Lemma bfs_body_measure s s' :
  wf_graph graph →
  bfs_body graph s = inl s' →
  icc_measure (nodes graph) s'.1 < icc_measure (nodes graph) s.1.
Proof.
  intros Hwf. destruct s as [[d V] result].
  intros (cur & rest & -> & ->)%bfs_body_inl. cbn [fst].
  destruct (foldl _ _ _) as [d' V'] eqn:E.
  apply (icc_fold_spec (nodes graph)) in E as (_ & _ & ->).
  - unfold icc_measure. simpl. lia.
  - intros x Hx%elem_of_out_edges. by apply Hwf in Hx as [_ ?].
Qed.

Lemma bfs_visit_inv result cur d V x :
  cur ∈ result → edge graph cur x →
  ∀ done, bfs_inv graph start_nodes done (d, V, result) →
  bfs_inv graph start_nodes done (icc_visit (d, V) x, result)
  ∧ x ∈ (icc_visit (d, V) x).2.
Proof.
  intros Hcur Hedge done Hinv.
  destruct (icc_visit_cases d V x) as [[Hx ->]|[Hx ->]]; [done|].
  destruct Hinv as (HV & Hnd & Hreach & Hcl & t & Ht & Hseq).
  split; [|set_solver]. split_and!.
  - intros y. rewrite elem_of_union, elem_of_singleton, HV, elem_of_app,
      list_elem_of_singleton. tauto.
  - intros Hs. rewrite app_assoc. apply NoDup_app.
    split_and!; [auto| |apply NoDup_singleton].
    intros y Hy ->%list_elem_of_singleton. apply Hx, HV.
    by apply elem_of_app in Hy.
  - intros y [Hy| ->%elem_of_singleton]%elem_of_union; [auto|].
    destruct (Hreach cur) as (s & ? & ?); [apply HV; auto|].
    exists s. split; [done|]. by eapply rtc_r.
  - intros a b Ha Hab. apply elem_of_union_l. eauto.
  - exists (t ++ [x]). split; [by rewrite !app_assoc, Ht|].
    eapply bfs_seq_snoc; [done..|]. rewrite <- Ht. apply elem_of_app. auto.
Qed.

Lemma bfs_body_inv s s' :
  bfs_inv graph start_nodes s.2 s →
  bfs_body graph s = inl s' →
  bfs_inv graph start_nodes s'.2 s'.
Proof.
  destruct s as [[d V] result]. cbn [snd]. intros Hinv.
  intros (cur & rest & -> & ->)%bfs_body_inl. cbn [snd].
  destruct (foldl_inv_each icc_visit
              (λ s, bfs_inv graph start_nodes result (s, result ++ [cur]))
              (λ y s, y ∈ s.2) (out_edges graph cur).*2 (rest, V))
    as [Hinv' HQ].
  - destruct Hinv as (HV & Hnd & Hreach & Hcl & t & Ht & Hseq). split_and!.
    + intros x. rewrite HV, elem_of_app, elem_of_cons, list_elem_of_singleton. tauto.
    + intros Hs. rewrite <- app_assoc. simpl. auto.
    + done.
    + done.
    + exists t. split; [|done]. by rewrite <- app_assoc.
  - intros [d' V'] x Hx%elem_of_out_edges Ha.
    apply (bfs_visit_inv _ cur); [|done..]. apply elem_of_app. right. by left.
  - intros [d' V'] b b' _ _ Hb. simpl in *.
    destruct (decide (b' ∈ V')); simpl; set_solver.
  - destruct (foldl _ _ _) as [d' V'].
    destruct Hinv' as (HV & Hnd & Hreach & Hcl & Ht). split_and!; [done..| |done].
    intros x y [Hx| ->%list_elem_of_singleton]%elem_of_app Hxy; [eauto|].
    apply (HQ y). by apply elem_of_out_edges.
Qed.

Lemma bfs_inv_init :
  bfs_inv graph start_nodes [] (start_nodes, list_to_set start_nodes, []).
Proof.
  split_and!.
  - intros x. rewrite elem_of_list_to_set. split; [auto|].
    by intros [?%elem_of_nil|?].
  - done.
  - intros x Hx%elem_of_list_to_set. exists x. split; [done|reflexivity].
  - by intros x y ?%elem_of_nil.
  - exists []. split; [by rewrite app_nil_r|constructor].
Qed.

(** The loop of [bfs_search] ends, and its result lists the nodes that are
    reachable from a start node: first the start nodes, then nodes that each
    have an edge from a node listed before. *)
Lemma bfs_loop_spec :
  wf_graph graph →
  ∃ fuel0 result,
    (∀ fuel, fuel0 ≤ fuel →
       while (bfs_body graph) fuel (start_nodes, list_to_set start_nodes, [])
       = Some result)
    ∧ (∀ x, x ∈ result ↔ ∃ s, s ∈ start_nodes ∧ reachable graph s x)
    ∧ (NoDup start_nodes → NoDup result)
    ∧ ∃ t, result = start_nodes ++ t ∧ bfs_seq graph start_nodes t.
Proof.
  intros Hwf.
  set (init := (start_nodes, list_to_set start_nodes, [])
               : list string * gset string * list string).
  destruct (while_terminates (bfs_body graph) (λ _, True)
              (λ s, icc_measure (nodes graph) s.1)
              (λ s s' _ Hb, conj I (bfs_body_measure s s' Hwf Hb))
              (S (icc_measure (nodes graph) init.1)) init I) as [r Hr]; [lia|].
  exists (S (icc_measure (nodes graph) init.1)), r. split.
  { intros fuel Hf. by eapply while_mono. }
  apply (while_inv _ (λ s, bfs_inv graph start_nodes s.2 s)) in Hr;
    [|intros s s'; apply bfs_body_inv|apply bfs_inv_init].
  destruct Hr as ([[d V] result] & (HV & Hnd & Hreach & Hcl & t & Ht & Hseq) & Hb).
  destruct d as [|??]; [|done]. injection Hb as <-. cbn [snd] in *.
  rewrite app_nil_r in *. split_and!; [|done|eauto].
  intros x. split.
  - intros Hx. apply Hreach, HV. auto.
  - intros (s & Hs & Hsx).
    assert (s ∈ result) as Hsr.
    { rewrite Ht. apply elem_of_app. auto. }
    clear Hs. induction Hsx as [|a b c Hab _ IH]; [done|]. apply IH.
    destruct (HV b) as [[?|?%elem_of_nil] _]; [by eapply Hcl|done..].
Qed.
End bfs_props.

(** ** dfs: the start node *)

(** The start node stays at the bottom of the stack and is the last node
    appended to [order]. *)
Lemma dfs_start_last graph fuel s0 V0 order V1 :
  dfs fuel graph s0 V0 = Some (order, V1) → ∃ o, order = o ++ [s0].
Proof.
  intros H.
  apply (while_inv _ (λ s : dfs_state,
           (∃ rest, s.1.1 = rest ++ [s0])
           ∨ (s.1.1 = [] ∧ ∃ o, s.2 = o ++ [s0]))) in H.
  - destruct H as (s' & Hinv & ->%dfs_body_inr). simpl in Hinv.
    destruct Hinv as [[rest Hrest]|[_ ?]]; [|done].
    by destruct rest.
  - intros [[stack V] o] s' Hinv Hb.
    apply dfs_body_inl in Hb as (n & rest & -> & [(c & _ & _ & _ & ->)|[_ ->]]);
      simpl in *.
    + destruct Hinv as [[r Hr]|[? _]]; [|done]. left.
      exists (c :: r). simpl. by rewrite Hr.
    + destruct Hinv as [[r Hr]|[? _]]; [|done].
      destruct r as [|a r]; simpl in Hr.
      * injection Hr as -> ->. right. eauto.
      * injection Hr as -> ->. left. eauto.
  - left. by exists [].
Qed.

(** From the empty set [dfs] visits the nodes reachable from the start
    node. *)
Lemma dfs_empty_reachable graph fuel s0 order V1 :
  dfs fuel graph s0 ∅ = Some (order, V1) →
  ∀ x, x ∈ order ↔ reachable graph s0 x.
Proof.
  intros H x.
  pose proof (dfs_sound _ _ _ _ _ _ H) as (_ & Hs0 & Hreach).
  pose proof (dfs_closed _ _ _ _ _ _ H) as Hcl.
  pose proof (dfs_fresh _ _ _ _ _ _ (not_elem_of_empty s0) H) as (_ & HV1 & _).
  split.
  - intros Hx. destruct (Hreach x) as [?|?]; [apply HV1; auto|set_solver|done].
  - intros Hx. assert (x ∈ V1) as [?|?]%HV1; [|set_solver|done].
    assert (∀ x y, x ∈ V1 → edge graph x y → y ∈ V1) as Hcl'
      by (apply Hcl; set_solver).
    clear -Hs0 Hcl' Hx.
    induction Hx as [|a b c Hab _ IH]; [done|]. apply IH. by eapply Hcl'.
Qed.

(** ** pseudo_topological_sort on any graph *)

Lemma pts_loop_reach graph fuel l :
  wf_graph graph → dfs_fuel graph ≤ fuel →
  ∀ (V : gset string) O,
    (∀ x, x ∈ V ↔ x ∈ O) → NoDup O →
    (∀ x y, x ∈ V → edge graph x y → y ∈ V) →
    ∃ O', pts_loop fuel graph l V O = Some O'
          ∧ NoDup O'
          ∧ (∀ x y, x ∈ O' → edge graph x y → y ∈ O')
          ∧ (∀ x, x ∈ O → x ∈ O')
          ∧ (∀ x, x ∈ l → x ∈ O')
          ∧ (∀ x, x ∈ O' → x ∈ O ∨ ∃ s, s ∈ l ∧ reachable graph s x).
Proof.
  intros Hwf Hfuel. induction l as [|n l IH]; intros V O HV HO Hcl.
  - exists O. split_and!; [done|done| |done| |auto].
    + intros x y Hx%HV Hxy. apply HV. eauto.
    + by intros x ?%elem_of_nil.
  - simpl. destruct (decide (n ∈ V)) as [Hn|Hn].
    + destruct (IH V O) as (O' & -> & ? & ? & HO' & Hl & Hr); [done..|].
      exists O'. split_and!; [done..| |].
      * intros x [->|?]%elem_of_cons; [|auto]. by apply HO', HV.
      * intros x [?|(s & ? & ?)]%Hr; [auto|]. right. exists s.
        split; [by right|done].
    + destruct (dfs_terminates graph fuel n V Hwf Hfuel) as [[o V1] Hdfs].
      rewrite Hdfs.
      pose proof (dfs_sound _ _ _ _ _ _ Hdfs) as (_ & HnV1 & Hreach).
      pose proof (dfs_fresh _ _ _ _ _ _ Hn Hdfs) as (Ho & HV1 & HoV).
      pose proof (dfs_closed _ _ _ _ _ _ Hdfs Hcl) as Hcl1.
      destruct (IH V1 (O ++ o)) as (O' & -> & ? & ? & HO' & Hl & Hr).
      { intros x. rewrite HV1, HV, elem_of_app. done. }
      { apply NoDup_app. split_and!; [done| |done].
        intros x Hx%HV Hxo. by apply (HoV x). }
      { done. }
      exists O'. split_and!; [done..| | |].
      * intros x Hx. apply HO', elem_of_app. by left.
      * intros x [->|?]%elem_of_cons; [|auto].
        apply HO', elem_of_app. right. apply HV1 in HnV1 as [?|?]; done.
      * intros x [[?|Hx]%elem_of_app|(s & ? & ?)]%Hr; [auto| |].
        -- right. exists n. split; [by left|].
           assert (x ∈ V1) as HxV1 by (apply HV1; auto).
           destruct (Hreach x HxV1) as [HxV|?]; [|done].
           by destruct (HoV x).
        -- right. exists s. split; [by right|done].
Qed.

Lemma reachable_nodes graph s x :
  wf_graph graph → s ∈ nodes graph → reachable graph s x → x ∈ nodes graph.
Proof.
  intros Hwf Hs H. induction H as [|a b c Hab _ IH]; [done|].
  apply IH. by apply Hwf in Hab as [_ ?].
Qed.

Lemma before_precedes o y x : before o y x → precedes y x o.
Proof.
  intros (l1 & l2 & -> & (a & b & ->)%list_elem_of_split).
  exists a, b, l2. by rewrite <- app_assoc.
Qed.

(** ** is_connected_component: the order of the list *)

Lemma icc_loop_spec graph n0 rest :
  ∃ fuel0 b,
    (∀ fuel, fuel0 ≤ fuel →
       is_connected_component fuel graph (n0 :: rest) = Some b)
    ∧ (b = true ↔
       ∀ x, x ∈ n0 :: rest → rtc (adjacent graph (n0 :: rest)) n0 x).
Proof.
  set (node_names := n0 :: rest).
  set (init := ([n0], {[n0]}) : list string * gset string).
  destruct (while_terminates (icc_body graph node_names) (λ _, True)
              (icc_measure node_names)
              (λ s s' _ Hb, conj I (icc_body_measure graph node_names s s' Hb))
              (S (icc_measure node_names init)) init I) as [b Hb]; [lia|].
  exists (S (icc_measure node_names init)), b. split.
  { intros fuel Hf. simpl. by eapply while_mono. }
  apply (while_inv _ (icc_inv graph node_names n0)) in Hb.
  - destruct Hb as ([d V] & (Hn0 & Hd & Hin & Hreach & Hcl) & Hb).
    destruct d as [|? ?]; [|done]. injection Hb as <-.
    rewrite bool_decide_eq_true. split.
    + intros Hsub x Hx. apply Hreach, Hsub. set_solver.
    + intros Hall x Hx. assert (x ∈ n0 :: rest) as Hx' by set_solver.
      specialize (Hall x Hx'). clear Hx Hx'.
      apply (rtc_ind_r (R:=adjacent graph node_names) (λ z, z ∈ V) n0); [done| |done].
      intros b c _ Hbc IH. eapply Hcl; [apply IH| |done]. apply not_elem_of_nil.
  - intros ??. apply icc_body_inv.
  - split_and!.
    + set_solver.
    + intros x ->%list_elem_of_singleton. set_solver.
    + intros x ->%elem_of_singleton. by left.
    + intros x ->%elem_of_singleton. reflexivity.
    + intros x y ->%elem_of_singleton Hx. destruct Hx. by left.
Qed.

Lemma adjacent_sym graph l x y : adjacent graph l x y → adjacent graph l y x.
Proof. intros (? & ? & ?). split_and!; [done..|]. tauto. Qed.

Lemma rtc_adjacent_sym graph l x y :
  rtc (adjacent graph l) x y → rtc (adjacent graph l) y x.
Proof.
  induction 1 as [|a b c Hab _ IH]; [done|].
  eapply rtc_r; [done|]. by apply adjacent_sym.
Qed.

Lemma icc_connected_transfer graph l1 l2 n1 n2 :
  (∀ x, x ∈ l1 ↔ x ∈ l2) → n2 ∈ l2 →
  (∀ x, x ∈ l1 → rtc (adjacent graph l1) n1 x) →
  ∀ x, x ∈ l2 → rtc (adjacent graph l2) n2 x.
Proof.
  intros Hl Hn2 H1 x Hx.
  apply (rtc_subrel (adjacent graph l1)).
  { intros a b (? & ? & ?). split_and!; [by apply Hl|by apply Hl|done]. }
  etrans; [apply rtc_adjacent_sym, H1; by apply Hl|]. apply H1. by apply Hl.
Qed.

(** ** sub_graph_between_nodes: the nodes collected *)

Section region_props.
Context (graph : Graph) (start_nodes end_nodes : list string).

Lemma grow_out_visited cur s x :
  x ∈ (grow_out cur s x).1.2 ∧ s.1.2 ⊆ (grow_out cur s x).1.2.
Proof.
  destruct s as [[d V] prev]. simpl.
  destruct (decide (x ∈ V)); simpl; set_solver.
Qed.

Lemma grow_in_visited cur s x :
  (cur ∉ start_nodes → x ∈ (grow_in start_nodes cur s x).1.2)
  ∧ s.1.2 ⊆ (grow_in start_nodes cur s x).1.2.
Proof.
  destruct s as [[d V] prev]. simpl.
  destruct (decide _) as [[? ?]|Hn]; simpl; [set_solver|].
  split; [|done]. intros Hc. apply dec_stable. intros Hx. by apply Hn.
Qed.

(** After the iteration for [cur] its successors are visited unless it is
    an end node, and its predecessors unless it is a start node. *)
Lemma grow_node_closed cur s :
  let s' := grow_node graph start_nodes end_nodes cur s in
  s.1.2 ⊆ s'.1.2
  ∧ (cur ∉ end_nodes → ∀ y, edge graph cur y → y ∈ s'.1.2)
  ∧ (cur ∉ start_nodes → ∀ p, edge graph p cur → p ∈ s'.1.2).
Proof.
  unfold grow_node.
  set (s1 := if decide (cur ∈ end_nodes) then s
             else foldl (grow_out cur) s (out_edges graph cur).*2).
  assert (s.1.2 ⊆ s1.1.2
          ∧ (cur ∉ end_nodes → ∀ y, edge graph cur y → y ∈ s1.1.2)) as [Hs1 Hout].
  { subst s1. destruct (decide (cur ∈ end_nodes)); [done|].
    destruct (foldl_inv_each (grow_out cur) (λ a : grow_state, s.1.2 ⊆ a.1.2)
                (λ y (a : grow_state), y ∈ a.1.2) (out_edges graph cur).*2 s)
      as [Hm HQ]; [done| | |].
    - intros a y _ Ha. destruct (grow_out_visited cur a y). split; [set_solver|done].
    - intros a y y' _ _ Hy. destruct (grow_out_visited cur a y'). set_solver.
    - split; [done|]. intros _ y Hy. by apply HQ, elem_of_out_edges. }
  destruct (foldl_inv_each (grow_in start_nodes cur)
              (λ a : grow_state, s1.1.2 ⊆ a.1.2)
              (λ p (a : grow_state), cur ∉ start_nodes → p ∈ a.1.2)
              (in_edges graph cur).*1 s1) as [Hm HQ]; [done| | |].
  - intros a p _ Ha. destruct (grow_in_visited cur a p). split; [set_solver|done].
  - intros a p p' _ _ Hp Hc. destruct (grow_in_visited cur a p'). set_solver.
  - simpl. split_and!.
    + set_solver.
    + intros Hc y Hy. apply Hm. auto.
    + intros Hc p Hp. by apply HQ; [apply elem_of_in_edges|].
Qed.

Lemma region_push done sub cur s x :
  cur ∈ sub → x ∉ s.1.2 → edge graph cur x ∨ edge graph x cur →
  region_inv graph start_nodes end_nodes done sub s →
  region_inv graph start_nodes end_nodes done sub (grow_push cur s x).
Proof.
  destruct s as [[d V] prev]. simpl.
  intros Hcur Hx Hedge (HV & Hnd & [t Ht] & Hconn & Hprev & Hhas & Hdone).
  assert (∀ y, y ∈ start_nodes → y ∈ V) as Hstart.
  { intros y Hy. apply HV, elem_of_app. rewrite Ht. apply elem_of_app. auto. }
  split_and!.
  - intros y. rewrite elem_of_union, elem_of_singleton, HV, elem_of_app,
      list_elem_of_singleton. tauto.
  - intros Hs. rewrite app_assoc. apply NoDup_app.
    split_and!; [auto| |apply NoDup_singleton].
    intros y Hy ->%list_elem_of_singleton. apply Hx, HV.
    by apply elem_of_app in Hy.
  - exists (t ++ [x]). by rewrite !app_assoc, Ht.
  - intros y [Hy| ->%elem_of_singleton]%elem_of_union; [auto|].
    destruct (Hconn cur) as (s & ? & Hs); [apply HV; auto|].
    exists s. split; [done|]. eapply rtc_r; [exact Hs|].
    destruct Hedge; [by left|by right].
  - intros n p. destruct (decide (x = n)) as [<-|Hne].
    + rewrite lookup_insert_eq. intros [= <-]. split_and!; [auto|done|done|].
      rewrite app_assoc. apply before_snoc_last, elem_of_app. auto.
    + rewrite lookup_insert_ne; [|done]. intros (? & ? & ? & ?)%Hprev.
      split_and!; [done..|]. rewrite app_assoc. by apply before_app.
  - intros n [Hn| ->%elem_of_singleton]%elem_of_union Hns.
    + destruct (decide (x = n)) as [<-|]; [done|].
      rewrite lookup_insert_ne; auto.
    + rewrite lookup_insert_eq. eauto.
  - intros y Hy. destruct (Hdone y Hy) as [H1 H2]. split.
    + intros ? z ?. apply elem_of_union_l. eauto.
    + intros ? z ?. apply elem_of_union_l. eauto.
Qed.

Lemma region_body_inv s s' :
  region_inv graph start_nodes end_nodes s.2 s.2 s.1 →
  grow_body graph start_nodes end_nodes s = inl s' →
  region_inv graph start_nodes end_nodes s'.2 s'.2 s'.1.
Proof.
  destruct s as [[[d V] prev] sub]. cbn [fst snd].
  destruct d as [|cur d]; [done|]. intros Hinv [= <-]. cbn [fst snd].
  assert (region_inv graph start_nodes end_nodes sub (sub ++ [cur])
            (grow_node graph start_nodes end_nodes cur (d, V, prev))) as Hinv'.
  { apply (grow_node_inv graph start_nodes end_nodes
             (region_inv graph start_nodes end_nodes sub (sub ++ [cur]))).
    - destruct Hinv as (HV & Hnd & [t Ht] & Hconn & Hprev & Hhas & Hdone).
      split_and!; [|by rewrite <- app_assoc|by exists t; rewrite <- app_assoc|done| |done..].
      + intros x. rewrite HV, elem_of_app, elem_of_cons, list_elem_of_singleton.
        tauto.
      + intros n p (? & ? & ? & ?)%Hprev. split_and!; [done..| |].
        * apply elem_of_app. auto.
        * by rewrite <- app_assoc.
    - intros s x Hs Hx Hedge. apply region_push; [|done..].
      apply elem_of_app. right. by left. }
  destruct (grow_node_closed cur (d, V, prev)) as (Hmono & Hout & Hin).
  destruct (grow_node _ _ _ _ _) as [[d' V'] prev'].
  destruct Hinv' as (HV & Hnd & Ht & Hconn & Hprev & Hhas & Hdone).
  split_and!; [done..|].
  intros x [Hx| ->%list_elem_of_singleton]%elem_of_app; auto.
Qed.

Lemma region_inv_init :
  region_inv graph start_nodes end_nodes [] []
    (start_nodes, list_to_set start_nodes, ∅).
Proof.
  split_and!.
  - intros x. rewrite elem_of_list_to_set. split; [auto|].
    by intros [?%elem_of_nil|?].
  - done.
  - exists []. by rewrite app_nil_r.
  - intros x Hx%elem_of_list_to_set. exists x. split; [done|reflexivity].
  - intros n p. by rewrite lookup_empty.
  - intros n Hn%elem_of_list_to_set ?. done.
  - by intros x ?%elem_of_nil.
Qed.

Lemma grow_region fuel sub prev :
  grow fuel graph start_nodes end_nodes = Some (sub, prev) →
  ∃ V, region_inv graph start_nodes end_nodes sub sub ([], V, prev).
Proof.
  intros H.
  apply (while_inv _ (λ s, region_inv graph start_nodes end_nodes s.2 s.2 s.1)) in H.
  - destruct H as ([[[d V] prev'] sub'] & Hinv & Hb). simpl in Hb.
    destruct d; [|done]. injection Hb as -> ->. by exists V.
  - intros ??. apply region_body_inv.
  - apply region_inv_init.
Qed.
End region_props.

Lemma sub_graph_between_nodes_Return fuel graph start_nodes end_nodes l :
  sub_graph_between_nodes fuel graph start_nodes end_nodes = Some (Return l) →
  ∃ prev, grow fuel graph start_nodes end_nodes = Some (l, prev).
Proof.
  unfold sub_graph_between_nodes.
  destruct (grow fuel graph start_nodes end_nodes) as [[sub prev]|]; [|done].
  simpl. destruct (forward_dfs _ _ _ _) as [fv|]; [|done]. simpl.
  destruct (List.find _ end_nodes); [done|].
  intros [-> _]%check_inputs_Some%eq_sym%inputs_outcome_Return. eauto.
Qed.

(** The nodes that the first loop collects are start nodes and nodes of
    the graph. *)
Lemma grow_nodes fuel graph start_nodes end_nodes sub prev :
  wf_graph graph →
  grow fuel graph start_nodes end_nodes = Some (sub, prev) →
  ∀ x, x ∈ sub → x ∈ start_nodes ∨ x ∈ nodes graph.
Proof.
  intros Hwf [V (HV & _ & _ & _ & Hprev & Hhas & _)]%grow_region x Hx.
  destruct (decide (x ∈ start_nodes)) as [|Hns]; [by left|]. right.
  destruct (Hhas x) as [p Hp]; [apply HV; by left|done|].
  apply Hprev in Hp as (_ & [H|H] & _); by apply Hwf in H as [? ?].
Qed.

Lemma grow_mono fuel fuel' graph start_nodes end_nodes r :
  grow fuel graph start_nodes end_nodes = Some r → fuel ≤ fuel' →
  grow fuel' graph start_nodes end_nodes = Some r.
Proof. apply while_mono. Qed.

(** ** node_incoming_neighbourhood, node_outcoming_neighbourhood *)

Lemma nsteps_subrel {A} (R1 R2 : relation A) k a b :
  (∀ x y, R1 x y → R2 x y) → nsteps R1 k a b → nsteps R2 k a b.
Proof.
  intros H. induction 1 as [|k x y z Hxy _ IH]; [constructor|].
  econstructor; [by apply H|done].
Qed.

Lemma nsteps_flip {A} (R : relation A) k a b :
  nsteps R k a b → nsteps (flip R) k b a.
Proof.
  induction 1 as [|k x y z Hxy _ IH]; [constructor|].
  eapply nsteps_r; [exact IH|done].
Qed.

Lemma nsteps_out_edges graph k a b :
  nsteps (nbr (λ n, (out_edges graph n).*2)) k a b ↔ nsteps (edge graph) k a b.
Proof.
  split; apply nsteps_subrel; intros x y; unfold nbr; by rewrite elem_of_out_edges.
Qed.

Lemma nsteps_in_edges graph k a b :
  nsteps (nbr (λ n, (in_edges graph n).*1)) k a b ↔ nsteps (edge graph) k b a.
Proof.
  split.
  - intros H%nsteps_flip. revert H. apply nsteps_subrel.
    intros x y. unfold flip, nbr. by rewrite elem_of_in_edges.
  - intros H%nsteps_flip. revert H. apply nsteps_subrel.
    intros x y. unfold flip, nbr. by rewrite elem_of_in_edges.
Qed.

Lemma NoDup_only_elem (l : list string) a :
  NoDup l → (∀ x, x ∈ l ↔ x = a) → l = [a].
Proof.
  intros Hnd H. destruct l as [|b l].
  - destruct (H a) as [_ H']. by apply elem_of_nil in H'.
  - assert (b = a) as -> by (apply H; by left).
    destruct l as [|c l]; [done|].
    assert (c = a) as -> by (apply H; right; by left).
    apply NoDup_cons in Hnd as [Hnd _]. destruct Hnd. by left.
Qed.

(** ** scope_output_nodes *)

Lemma startswith_spec s p :
  startswith s p = true ↔ ∃ t, s = String.append p t.
Proof.
  unfold startswith. revert s. induction p as [|a p IH]; intros s.
  - destruct s; simpl; split; eauto.
  - destruct s as [|b s]; simpl.
    + split; [done|]. by intros [t [=]].
    + destruct (Ascii.ascii_dec a b) as [->|Hne].
      * rewrite IH. split; intros [t Ht]; exists t; [by subst|by injection Ht].
      * split; [done|]. intros [t [= ? _]]. done.
Qed.

Lemma last_char_None s : last_char s = None ↔ s = EmptyString.
Proof.
  induction s as [|a s IH]; [done|]. simpl. destruct s; [done|].
  rewrite IH. done.
Qed.

Lemma last_char_append s c :
  last_char (String.append s (String c EmptyString)) = Some c.
Proof.
  induction s as [|a s IH]; [done|]. simpl in *.
  destruct (String.append s (String c EmptyString)) eqn:E; [|done].
  by destruct s.
Qed.

Lemma scope_fold graph p l result n :
  n ∈ foldl (scope_visit graph p) result l
  ↔ n ∈ result
    ∨ (n ∈ l ∧ startswith n p = true
       ∧ ∃ out, edge graph n out ∧ startswith out p = false).
Proof.
  revert result. induction l as [|a l IH]; intros result; simpl.
  - split; [auto|]. by intros [?|[?%elem_of_nil _]].
  - rewrite IH. unfold scope_visit.
    assert (existsb (λ out, negb (startswith out p)) (out_edges graph a).*2 = true
            ↔ ∃ out, edge graph a out ∧ startswith out p = false) as Hex.
    { rewrite existsb_exists. split.
      - intros (out & Hin%list_elem_of_In%elem_of_out_edges & Hn%negb_true_iff). eauto.
      - intros (out & Hin%elem_of_out_edges%list_elem_of_In & Hn). exists out.
        split; [done|]. by apply negb_true_iff. }
    destruct (startswith a p) eqn:Ea.
    + destruct (existsb _ _) eqn:Eb.
      * assert (∃ out, edge graph a out ∧ startswith out p = false) as Hout
          by (by apply Hex).
        rewrite elem_of_union, elem_of_singleton, elem_of_cons.
        split; [|tauto]. intros [[?| ->]|?]; [auto| |tauto]. right. auto.
      * rewrite elem_of_cons. split; [tauto|].
        intros [?|([->|?] & ? & Hout)]; [auto| |auto].
        by apply Hex in Hout.
    + rewrite elem_of_cons. split; [tauto|].
      intros [?|([->|?] & ? & ?)]; [auto|congruence|auto].
Qed.

(** ** backward_bfs_for_operation: the nodes returned *)

Section bbfs_result.
Context (graph : Graph) (op_names : list string).

Lemma bbfs_visit_mono q ret p x :
  (x ∈ q → x ∈ (bbfs_visit graph op_names (q, ret) p).1)
  ∧ (x ∈ ret → x ∈ (bbfs_visit graph op_names (q, ret) p).2).
Proof.
  unfold bbfs_visit.
  repeat (destruct (decide _) || destruct (op_in _ _ _)); simpl;
    rewrite ?elem_of_app; auto.
Qed.

Lemma bbfs_visit_records q ret p :
  (bbfs_match graph op_names p → p ∈ (bbfs_visit graph op_names (q, ret) p).2)
  ∧ (bbfs_pass graph op_names p → p ∈ (bbfs_visit graph op_names (q, ret) p).1).
Proof.
  unfold bbfs_visit, bbfs_match, bbfs_pass. split.
  - intros [-> ->]. rewrite decide_True; [|done].
    destruct (decide (p ∈ ret)); simpl; [done|]. apply elem_of_app. right. by left.
  - intros [[-> ->]|[Hk Hv]].
    + rewrite decide_True; [|done]. simpl. apply elem_of_app. right. by left.
    + rewrite Hk. rewrite decide_False; [|done]. rewrite decide_True; [|done].
      simpl. apply elem_of_app. right. by left.
Qed.

Lemma bbfs_visit_sound start n q ret p :
  bbfs_expanded graph op_names start n → edge graph p n →
  (∀ x, x ∈ q → bbfs_expanded graph op_names start x) →
  (∀ x, x ∈ ret → bbfs_match graph op_names x
                  ∧ ∃ y, bbfs_expanded graph op_names start y ∧ edge graph x y) →
  (∀ x, x ∈ (bbfs_visit graph op_names (q, ret) p).1 →
        bbfs_expanded graph op_names start x)
  ∧ (∀ x, x ∈ (bbfs_visit graph op_names (q, ret) p).2 →
          bbfs_match graph op_names x
          ∧ ∃ y, bbfs_expanded graph op_names start y ∧ edge graph x y).
Proof.
  intros Hn Hpn Hq Hret. unfold bbfs_visit.
  destruct (decide (kind (attrs_of graph p) = "op")) as [Hk|Hk].
  - destruct (op_in graph p op_names) eqn:Hop.
    + destruct (decide (p ∈ ret)); simpl; [done|]. split; [done|].
      intros x [?| ->%list_elem_of_singleton]%elem_of_app; [auto|].
      split; [done|]. eauto.
    + simpl. split; [|done].
      intros x [?| ->%list_elem_of_singleton]%elem_of_app; [auto|].
      eapply bbfs_expanded_step; [done..|]. by left.
  - destruct (decide _) as [[Hd Hv]|]; simpl; [|done]. split; [|done].
    intros x [?| ->%list_elem_of_singleton]%elem_of_app; [auto|].
    eapply bbfs_expanded_step; [done..|]. by right.
Qed.

Lemma bbfs_sound fuel start ret :
  backward_bfs_for_operation fuel graph start op_names = Some ret →
  ∀ p, p ∈ ret → bbfs_match graph op_names p
                 ∧ ∃ y, bbfs_expanded graph op_names start y ∧ edge graph p y.
Proof.
  intros H.
  apply (while_inv _ (λ s,
           (∀ x, x ∈ s.1 → bbfs_expanded graph op_names start x)
           ∧ (∀ x, x ∈ s.2 → bbfs_match graph op_names x
                ∧ ∃ y, bbfs_expanded graph op_names start y ∧ edge graph x y)))
    in H.
  - destruct H as ([[|??] ret'] & [_ Hret] & Hb); [|done]. by injection Hb as <-.
  - intros [q r] s' [Hq Hr] Hb. destruct q as [|n q]; [done|]. injection Hb as <-.
    apply (foldl_inv _ (λ s,
             (∀ x, x ∈ s.1 → bbfs_expanded graph op_names start x)
             ∧ (∀ x, x ∈ s.2 → bbfs_match graph op_names x
                  ∧ ∃ y, bbfs_expanded graph op_names start y ∧ edge graph x y))).
    + split; [|done]. intros x ?. apply Hq. by right.
    + intros [q' r'] p Hp%elem_of_in_edges [Hq' Hr'].
      apply (bbfs_visit_sound start n); [apply Hq; by left|done..].
  - split.
    + intros x ->%list_elem_of_singleton. constructor.
    + by intros x ?%elem_of_nil.
Qed.

Lemma bbfs_expanded_inv n y :
  bbfs_expanded graph op_names n y →
  y = n ∨ ∃ z, edge graph z n ∧ bbfs_pass graph op_names z
               ∧ bbfs_expanded graph op_names z y.
Proof.
  induction 1 as [|x y _ IH Hyx Hy]; [by left|]. right.
  destruct IH as [->|(z & ? & ? & ?)].
  - exists y. split_and!; [done..|constructor].
  - exists z. split_and!; [done..|]. by eapply bbfs_expanded_step.
Qed.

Lemma bbfs_fold_records n q ret :
  let s' := foldl (bbfs_visit graph op_names) (q, ret) (in_nodes graph n) in
  (∀ x, x ∈ q → x ∈ s'.1) ∧ (∀ x, x ∈ ret → x ∈ s'.2)
  ∧ (∀ p, edge graph p n → bbfs_match graph op_names p → p ∈ s'.2)
  ∧ (∀ p, edge graph p n → bbfs_pass graph op_names p → p ∈ s'.1).
Proof.
  destruct (foldl_inv_each (bbfs_visit graph op_names)
              (λ a, (∀ x, x ∈ q → x ∈ a.1) ∧ (∀ x, x ∈ ret → x ∈ a.2))
              (λ p a, (bbfs_match graph op_names p → p ∈ a.2)
                      ∧ (bbfs_pass graph op_names p → p ∈ a.1))
              (in_nodes graph n) (q, ret)) as [[H1 H2] HQ]; [done| | |].
  - intros [q' r'] p _ [Hq Hr]. split; [|apply bbfs_visit_records].
    split; intros x Hx; apply bbfs_visit_mono; auto.
  - intros [q' r'] p p' _ _ [Hm Hp]. split; intros Hx; apply bbfs_visit_mono; auto.
  - simpl. split_and!; [done..| |].
    + intros p Hp%elem_of_in_edges. by apply HQ.
    + intros p Hp%elem_of_in_edges. by apply HQ.
Qed.

Lemma bbfs_complete fuel q ret r :
  while (bbfs_body graph op_names) fuel (q, ret) = Some r →
  (∀ p, p ∈ ret → p ∈ r)
  ∧ ∀ x y p, x ∈ q → bbfs_expanded graph op_names x y → edge graph p y →
             bbfs_match graph op_names p → p ∈ r.
Proof.
  revert q ret. induction fuel as [|fuel IH]; intros q ret; [done|]. simpl.
  destruct q as [|n q].
  - intros [= <-]. split; [done|]. by intros x y p ?%elem_of_nil.
  - destruct (foldl _ _ _) as [q' ret'] eqn:E. intros [Hr Hq]%IH.
    pose proof (bbfs_fold_records n q ret) as (H1 & H2 & H3 & H4).
    rewrite E in H1, H2, H3, H4. simpl in *.
    split; [auto|]. intros x y p [->|Hx]%elem_of_cons Hy Hp Hm.
    + apply bbfs_expanded_inv in Hy as [->|(z & Hz & Hpass & Hzy)]; [auto|].
      eapply Hq; [|done..]. auto.
    + eapply Hq; [|done..]. auto.
Qed.

Lemma bbfs_terminates_acyclic start_node :
  wf_graph graph → acyclic graph →
  ∃ fuel0 ret, ∀ fuel, fuel0 ≤ fuel →
    backward_bfs_for_operation fuel graph start_node op_names = Some ret.
Proof.
  intros Hwf Hac. destruct (acyclic_weight graph Hwf Hac) as [w Hw].
  destruct (while_terminates (bbfs_body graph op_names) (λ _, True)
              (λ s, sum_list_with w s.1)) with
    (fuel := S (w start_node + 0)) (s := ([start_node], @nil string))
    as [ret Hret]; [|done|simpl; lia|].
  - intros [q ret] s' _ Hb. split; [done|].
    destruct q as [|n q]; [done|]. injection Hb as <-. simpl.
    pose proof (bbfs_fold_weight graph op_names w (in_nodes graph n) q ret).
    rewrite (Hw n). lia.
  - exists (S (w start_node + 0)), ret. intros fuel Hf.
    unfold backward_bfs_for_operation. by eapply while_mono.
Qed.
End bbfs_result.

Lemma bbfs_expanded_reach graph op_names start y :
  bbfs_expanded graph op_names start y → rtc (edge graph) y start.
Proof.
  induction 1 as [|x y _ IH Hyx _]; [done|]. by eapply rtc_l.
Qed.

Lemma pts_loop_mono fuel fuel' graph l V O r :
  pts_loop fuel graph l V O = Some r → fuel ≤ fuel' →
  pts_loop fuel' graph l V O = Some r.
Proof.
  intros H Hf. revert V O H. induction l as [|n l IH]; intros V O; [done|].
  simpl. destruct (decide (n ∈ V)); [apply IH|].
  destruct (dfs fuel graph n V) as [[o V1]|] eqn:E; [|done].
  unfold dfs in *. rewrite (while_mono _ _ _ _ _ E Hf). apply IH.
Qed.

(** ** backward_bfs_for_operation: when the search ends *)

Lemma sn_no_cycle {A} (R : relation A) x : sn R x → ¬ tc R x x.
Proof.
  induction 1 as [x _ IH]. intros Hc.
  inversion Hc as [? ? Hxx|? z ? Hxz Hzx]; subst.
  - apply (IH x Hxx). by apply tc_once.
  - apply (IH z Hxz). by eapply tc_r.
Qed.

Lemma tc_last {A} (R : relation A) x y : tc R x y → ∃ z, R z y.
Proof. induction 1; eauto. Qed.

Lemma sn_rtc {A} (R : relation A) x y : sn R x → rtc R x y → sn R y.
Proof.
  intros Hx Hxy. induction Hxy as [|x y z Hxy _ IH]; [done|].
  apply IH. by apply (Acc_inv Hx).
Qed.

Section bbfs_termination.
Context (graph : Graph) (op_names : list string).

Lemma bbfs_passb_spec p :
  bbfs_passb graph op_names p = true ↔ bbfs_pass graph op_names p.
Proof.
  unfold bbfs_passb, bbfs_pass.
  rewrite orb_true_iff, !andb_true_iff, !bool_decide_eq_true, negb_true_iff.
  done.
Qed.

Lemma bbfs_expanded_rtc start y :
  bbfs_expanded graph op_names start y
  ↔ rtc (bbfs_step graph op_names) start y.
Proof.
  split.
  - induction 1 as [|x y _ IH Hyx Hy]; [done|].
    eapply rtc_r; [done|]. by split.
  - intros H.
    apply (rtc_ind_r (R:=bbfs_step graph op_names)
             (λ z, bbfs_expanded graph op_names start z) start);
      [constructor| |done].
    intros x z _ [Hzx Hz] Hx. by eapply bbfs_expanded_step.
Qed.

Lemma bbfs_step_edge x y :
  tc (bbfs_step graph op_names) x y → tc (edge graph) y x.
Proof.
  induction 1 as [x y [H _]|x y z [H _] _ IH]; [by apply tc_once|].
  eapply tc_r; done.
Qed.

(** A predecessor is put into the queue only when the search goes on
    with it. *)
Lemma bbfs_visit_push q ret p :
  (bbfs_visit graph op_names (q, ret) p).1 = q
  ∨ (bbfs_pass graph op_names p
     ∧ (bbfs_visit graph op_names (q, ret) p).1 = q ++ [p]).
Proof.
  unfold bbfs_visit, bbfs_pass.
  destruct (decide (kind (attrs_of graph p) = "op")) as [Hk|Hk].
  - destruct (op_in graph p op_names) eqn:Hop.
    + left. by destruct (decide (p ∈ ret)).
    + right. auto.
  - destruct (decide _) as [[? ?]|]; [right|left]; auto.
Qed.

Lemma bbfs_fold_queue l q ret x :
  x ∈ (foldl (bbfs_visit graph op_names) (q, ret) l).1 →
  x ∈ q ∨ (x ∈ l ∧ bbfs_pass graph op_names x).
Proof.
  revert q ret. induction l as [|p l IH]; intros q ret; [auto|].
  cbn [foldl].
  destruct (bbfs_visit graph op_names (q, ret) p) as [q' ret'] eqn:E.
  intros [Hx|[Hx Hp]]%IH.
  - destruct (bbfs_visit_push q ret p) as [H|[Hp H]]; rewrite E in H; simpl in H;
      subst q'; [auto|].
    apply elem_of_app in Hx as [?| ->%list_elem_of_singleton]; [auto|].
    right. split; [by left|done].
  - right. split; [by right|done].
Qed.

Lemma bbfs_fold_pass_weight (w : string → nat) l q ret :
  sum_list_with w (foldl (bbfs_visit graph op_names) (q, ret) l).1
  ≤ sum_list_with w q
    + sum_list_with (λ p, if bbfs_passb graph op_names p then w p else 0) l.
Proof.
  revert q ret. induction l as [|p l IH]; intros q ret; [simpl; lia|].
  cbn [foldl sum_list_with].
  destruct (bbfs_visit graph op_names (q, ret) p) as [q' ret'] eqn:E.
  etrans; [apply IH|].
  destruct (bbfs_visit_push q ret p) as [H|[Hp H]]; rewrite E in H; simpl in H;
    subst q'; [lia|].
  apply bbfs_passb_spec in Hp. rewrite Hp.
  rewrite sum_list_with_app. simpl. lia.
Qed.

(** The weights of the nodes that the search reaches from a node without
    an endless walk settle at some depth. *)
Lemma pass_weight_stable x :
  sn (bbfs_step graph op_names) x →
  ∃ k, ∀ y, rtc (bbfs_step graph op_names) x y →
    ∀ f, k ≤ f → pass_weight graph op_names f y = pass_weight graph op_names k y.
Proof.
  induction 1 as [x _ IH].
  assert (∀ l : list string, (∀ p, p ∈ l → edge graph p x) →
    ∃ K, ∀ p, p ∈ l → bbfs_pass graph op_names p →
      ∀ y, rtc (bbfs_step graph op_names) p y →
      ∀ f, K ≤ f → pass_weight graph op_names f y = pass_weight graph op_names K y)
    as Hlist.
  { induction l as [|a l IHl]; intros Hl.
    - exists 0. by intros p ?%elem_of_nil.
    - destruct IHl as [K HK]; [intros ??; apply Hl; by right|].
      destruct (bbfs_passb graph op_names a) eqn:Ha.
      + apply bbfs_passb_spec in Ha.
        destruct (IH a) as [k Hk]; [split; [apply Hl; by left|done]|].
        exists (K `max` k). intros p [->|Hp]%elem_of_cons Hpass y Hy f Hf.
        * rewrite (Hk y Hy f), (Hk y Hy (K `max` k)); [done|lia..].
        * rewrite (HK p Hp Hpass y Hy f), (HK p Hp Hpass y Hy (K `max` k));
            [done|lia..].
      + exists K. intros p [->|Hp]%elem_of_cons Hpass; [|by apply HK].
        apply bbfs_passb_spec in Hpass. congruence. }
  destruct (Hlist (in_nodes graph x)) as [K HK].
  { intros p. apply elem_of_in_edges. }
  exists (S K). intros y Hy f Hf.
  apply rtc_inv in Hy as [<-|(p & [Hpx Hp] & Hpy)].
  - destruct f as [|f]; [lia|]. simpl. f_equal. apply sum_list_with_ext.
    intros p Hpx. destruct (bbfs_passb graph op_names p) eqn:Hp; [|done].
    apply bbfs_passb_spec in Hp. apply (HK p Hpx Hp p); [done|lia].
  - apply elem_of_in_edges in Hpx.
    rewrite (HK p Hpx Hp y Hpy f), (HK p Hpx Hp y Hpy (S K)); [done|lia..].
Qed.

(** The search ends when no endless walk starts at the start node. *)
Lemma bbfs_terminates_sn start_node :
  sn (bbfs_step graph op_names) start_node →
  ∃ fuel0 ret, ∀ fuel, fuel0 ≤ fuel →
    backward_bfs_for_operation fuel graph start_node op_names = Some ret.
Proof.
  intros [k Hk]%pass_weight_stable.
  set (w := pass_weight graph op_names k).
  assert (∀ y, rtc (bbfs_step graph op_names) start_node y →
    w y = S (sum_list_with (λ p, if bbfs_passb graph op_names p then w p else 0)
               (in_nodes graph y))) as Hw.
  { intros y Hy. unfold w. by rewrite <- (Hk y Hy (S k)) by lia. }
  destruct (while_terminates (bbfs_body graph op_names)
              (λ s, ∀ x, x ∈ s.1 → rtc (bbfs_step graph op_names) start_node x)
              (λ s, sum_list_with w s.1)) with
    (fuel := S (w start_node + 0)) (s := ([start_node], @nil string))
    as [ret Hret].
  - intros [q ret] s' Hq Hb. destruct q as [|n q]; [done|]. injection Hb as <-.
    simpl in Hq. split.
    + intros x [Hx|[Hx Hp]]%bbfs_fold_queue.
      * apply Hq. by right.
      * eapply rtc_r; [apply Hq; by left|]. split; [|done].
        by apply elem_of_in_edges.
    + simpl.
      pose proof (bbfs_fold_pass_weight w (in_nodes graph n) q ret).
      rewrite (Hw n); [lia|]. apply Hq. by left.
  - by intros x ->%list_elem_of_singleton.
  - simpl. lia.
  - exists (S (w start_node + 0)), ret. intros fuel Hf.
    unfold backward_bfs_for_operation. by eapply while_mono.
Qed.

(** When the search ends, no endless walk starts at a node of its
    queue. *)
Lemma bbfs_returns_sn fuel q ret r :
  while (bbfs_body graph op_names) fuel (q, ret) = Some r →
  ∀ x, x ∈ q → sn (bbfs_step graph op_names) x.
Proof.
  revert q ret. induction fuel as [|fuel IH]; intros q ret; [done|]. simpl.
  destruct q as [|n q].
  { intros _ x Hx. by apply elem_of_nil in Hx. }
  destruct (foldl _ _ _) as [q' ret'] eqn:E. intros Hr.
  pose proof (IH _ _ Hr) as Hq'.
  pose proof (bbfs_fold_records graph op_names n q ret) as (H1 & _ & _ & H4).
  rewrite E in H1, H4. simpl in *.
  intros x [->|Hx]%elem_of_cons; [|auto].
  constructor. intros y [Hyn Hy]. auto.
Qed.

(** On the finitely many nodes that have an edge, an endless walk runs
    into a cycle. *)
Lemma bbfs_no_cycle_sn start_node :
  ¬ (∃ y, bbfs_expanded graph op_names start_node y
          ∧ tc (bbfs_step graph op_names) y y) →
  sn (bbfs_step graph op_names) start_node.
Proof.
  intros Hno.
  set (R' := λ x y, rtc (bbfs_step graph op_names) start_node x
                    ∧ bbfs_step graph op_names x y).
  assert (∀ x y, tc R' x y →
            rtc (bbfs_step graph op_names) start_node x
            ∧ tc (bbfs_step graph op_names) x y) as Htc.
  { induction 1 as [x y [? ?]|x y z [? ?] _ [_ IH]].
    - split; [done|]. by apply tc_once.
    - split; [done|]. by eapply tc_l. }
  assert (sn R' start_node) as Hsn.
  { apply tc_finite_sn.
    - intros y [Hy Hc]%Htc. apply Hno. exists y. split; [|done].
      by apply bbfs_expanded_rtc.
    - exists (edges graph).*1. intros y [_ Hy]%Htc.
      apply tc_last in Hy as (z & Hyz & _).
      apply list_elem_of_fmap. by exists (y, z). }
  assert (∀ x, sn R' x → rtc (bbfs_step graph op_names) start_node x →
               sn (bbfs_step graph op_names) x) as Hacc.
  { induction 1 as [x _ IH]. intros Hx. constructor. intros y Hxy.
    apply IH; [by split|]. by eapply rtc_r. }
  by apply Hacc.
Qed.
End bbfs_termination.

(** * The properties of the specification *)

Ltac by_computation := vm_compute; reflexivity.
Ltac by_decide := apply (bool_decide_unpack _); vm_compute; exact I.


Lemma wf_chain4 : wf_graph chain4.
Proof. apply wf_graphb_sound. by_computation. Defined.

Lemma acyclic_chain4 : acyclic chain4.
Proof.
  apply (rank_acyclic _ (index_of (nodes chain4))), rank_edges. by_computation.
Defined.







Lemma wf_chain5 : wf_graph chain5.
Proof. apply wf_graphb_sound. by_computation. Defined.

Lemma wf_input_graph : wf_graph input_graph.
Proof. apply wf_graphb_sound. by_computation. Defined.

Lemma wf_side_input_graph : wf_graph side_input_graph.
Proof. apply wf_graphb_sound. by_computation. Defined.

Lemma wf_end_cycle_graph : wf_graph end_cycle_graph.
Proof. apply wf_graphb_sound. by_computation. Defined.

(** C1, as the specification states it, fails in its general part: in
    the graph A -> D, D -> E, E -> D with the start node A and the end
    node D, the iteration for D, with the queue empty, A and D visited
    and ['prev'] of D set to A, puts E into the queue, and E is at the end
    of an out edge of D. *)
Lemma end_node_successor_enqueued :
  ¬ (∀ graph start_nodes end_nodes cur d visited prev x,
       wf_graph graph → cur ∈ end_nodes → edge graph cur x →
       x ∈ (grow_node graph start_nodes end_nodes cur (d, visited, prev)).1.1 →
       x ∈ d).
Proof.
  intros H.
  assert ("E" ∈ @nil string) as HE; [|by apply elem_of_nil in HE].
  apply (H end_cycle_graph ["A"] ["D"] "D" [] {["A"; "D"]} (<["D" := "A"]> ∅) "E"
           wf_end_cycle_graph).
  - by_decide.
  - unfold edge. by_decide.
  - assert ((grow_node end_cycle_graph ["A"] ["D"] "D"
               ([], {["A"; "D"]}, <["D" := "A"]> ∅)).1.1 = ["E"]) as ->
      by by_computation.
    by_decide.
Qed.

(** C1, amended: on the chain A -> B -> C -> D, [sub_graph_between_nodes]
    with the start nodes [A] and the end nodes [D] returns the nodes A, B,
    C, D and no other; on the chain that goes on to E it returns the same
    nodes.  In every graph the iteration for an end node does not go
    through the out edges of the node: it runs the loop over the in edges
    only, and every node it puts into the queue has an edge to the end
    node and was not visited, and the end node is not a start node.  A
    node at the end of an out edge of an end node is still collected when
    it has an edge to the end node as well: on A -> D, D -> E, E -> D the
    call returns A, D and E. *)
Theorem sub_graph_between_nodes_chain :
  (∃ fuel0, ∀ fuel, fuel0 ≤ fuel →
     sub_graph_between_nodes fuel chain4 ["A"] ["D"]
     = Some (Return ["A"; "B"; "C"; "D"]))
  ∧ (∃ fuel0, ∀ fuel, fuel0 ≤ fuel →
       sub_graph_between_nodes fuel chain5 ["A"] ["D"]
       = Some (Return ["A"; "B"; "C"; "D"]))
  ∧ (∀ graph start_nodes end_nodes cur d visited prev,
       cur ∈ end_nodes →
       grow_node graph start_nodes end_nodes cur (d, visited, prev)
       = foldl (grow_in start_nodes cur) (d, visited, prev) (in_edges graph cur).*1
       ∧ ∀ x, x ∈ (grow_node graph start_nodes end_nodes cur (d, visited, prev)).1.1 →
              x ∈ d ∨ (edge graph x cur ∧ x ∉ visited ∧ cur ∉ start_nodes))
  ∧ (∃ fuel0, ∀ fuel, fuel0 ≤ fuel →
       sub_graph_between_nodes fuel end_cycle_graph ["A"] ["D"]
       = Some (Return ["A"; "D"; "E"])).
Proof.
  split_and!.
  - exists 10. intros fuel Hf.
    eapply sub_graph_between_nodes_mono; [|done]. by_computation.
  - exists 10. intros fuel Hf.
    eapply sub_graph_between_nodes_mono; [|done]. by_computation.
  - intros graph start_nodes end_nodes cur d V prev Hcur.
    unfold grow_node. rewrite decide_True; [|done]. split; [done|].
    apply (foldl_inv _ (λ s : grow_state,
             V ⊆ s.1.2
             ∧ ∀ x, x ∈ s.1.1 →
                    x ∈ d ∨ (edge graph x cur ∧ x ∉ V ∧ cur ∉ start_nodes)));
      [auto|].
    intros [[d' V'] prev'] y Hy%elem_of_in_edges [HV IH]. simpl in *.
    destruct (decide _) as [[Hns HyV]|]; [|auto]. simpl. split; [set_solver|].
    intros x [?| ->%list_elem_of_singleton]%elem_of_app; [auto|].
    right. split_and!; [done| |done]. set_solver.
  - exists 10. intros fuel Hf.
    eapply sub_graph_between_nodes_mono; [|done]. by_computation.
Qed.

Lemma sub_graph_between_nodes_chain_witness :
  "D" ∈ ["D"]
  ∧ (grow_node end_cycle_graph ["A"] ["D"] "D"
       ([], {["A"; "D"]}, <["D" := "A"]> ∅)).1.1 = ["E"]
  ∧ ∀ x, x ∈ (grow_node end_cycle_graph ["A"] ["D"] "D"
                ([], {["A"; "D"]}, <["D" := "A"]> ∅)).1.1 →
         x ∈ [] ∨ (edge end_cycle_graph x "D"
                   ∧ x ∉ ({["A"; "D"]} : gset string) ∧ "D" ∉ ["A"]).
Proof.
  assert ("D" ∈ ["D"]) as H by by_decide.
  split; [done|]. split; [by_computation|].
  exact (proj2 (proj1 (proj2 (proj2 sub_graph_between_nodes_chain))
                 end_cycle_graph ["A"] ["D"] "D" [] {["A"; "D"]}
                 (<["D" := "A"]> ∅) H)).
Defined.

(** C3: when some end node is not reachable from any start node,
    [sub_graph_between_nodes] raises the error that names an end node that
    is not reachable and the start nodes; the forward check collects in one
    set the nodes reachable from the start nodes. *)
Theorem sub_graph_between_nodes_unreachable graph start_nodes end_nodes :
  wf_graph graph →
  (∃ e, e ∈ end_nodes ∧ ∀ s, s ∈ start_nodes → ¬ reachable graph s e) →
  ∃ fuel0 e forward_visited,
    e ∈ end_nodes
    ∧ (∀ s, s ∈ start_nodes → ¬ reachable graph s e)
    ∧ forward_dfs fuel0 graph start_nodes ∅ = Some forward_visited
    ∧ (∀ x, x ∈ forward_visited ↔ ∃ s, s ∈ start_nodes ∧ reachable graph s x)
    ∧ ∀ fuel, fuel0 ≤ fuel →
        sub_graph_between_nodes fuel graph start_nodes end_nodes
        = Some (Raise (Error (EndNodeNotReachable e start_nodes))).
Proof.
  intros Hwf (e0 & He0 & Hun).
  destruct (sub_graph_between_nodes_result graph start_nodes end_nodes Hwf)
    as (fuel0 & sub & prev & fv & _ & Hfv & Hreach & Hres).
  destruct (List.find (λ end_node, bool_decide (end_node ∉ fv)) end_nodes)
    as [e|] eqn:E.
  - apply find_Some_elem_of in E as [He Hefv]. apply bool_decide_eq_true in Hefv.
    exists fuel0, e, fv. split_and!; [done| |done..].
    intros s Hs Hse. apply Hefv, Hreach. eauto.
  - eapply find_None_elem_of in E; [|done]. apply bool_decide_eq_false in E.
    apply dec_stable, Hreach in E as (s & Hs & Hse). by destruct (Hun s Hs).
Qed.

Lemma unreachable_input_graph s : s ∈ ["A"] → ¬ reachable input_graph s "D".
Proof.
  intros ->%list_elem_of_singleton [?|(y & Hy & _)]%rtc_inv; [done|].
  by apply elem_of_nil in Hy.
Defined.

Lemma sub_graph_between_nodes_unreachable_witness :
  ∃ fuel0 e forward_visited,
    e ∈ ["D"]
    ∧ (∀ s, s ∈ ["A"] → ¬ reachable input_graph s e)
    ∧ forward_dfs fuel0 input_graph ["A"] ∅ = Some forward_visited
    ∧ (∀ x, x ∈ forward_visited ↔ ∃ s, s ∈ ["A"] ∧ reachable input_graph s x)
    ∧ ∀ fuel, fuel0 ≤ fuel →
        sub_graph_between_nodes fuel input_graph ["A"] ["D"]
        = Some (Raise (Error (EndNodeNotReachable e ["A"]))).
Proof.
  apply (sub_graph_between_nodes_unreachable input_graph ["A"] ["D"] wf_input_graph).
  exists "D". split; [by_decide|]. exact unreachable_input_graph.
Defined.


(** C4, as the specification states it, fails: in the graph with the
    network input A and the node D and no edge, the first loop started
    from A collects A, whose op is ['Placeholder'], and the error raised
    names the end node D, which is not reachable, and not A. *)
Lemma network_input_not_named :
  ¬ (∀ graph start_nodes end_nodes fuel1 sub_graph_nodes prev,
       wf_graph graph →
       (∀ s, s ∈ start_nodes → s ∈ nodes graph) →
       grow fuel1 graph start_nodes end_nodes = Some (sub_graph_nodes, prev) →
       (∃ n, n ∈ sub_graph_nodes ∧ get_op graph n = Return "Placeholder") →
       ∃ fuel n,
         n ∈ sub_graph_nodes ∧ get_op graph n = Return "Placeholder"
         ∧ sub_graph_between_nodes fuel graph start_nodes end_nodes
           = Some (Raise (Error (ContainsNetworkInput n)))).
Proof.
  intros H.
  destruct (H input_graph ["A"] ["D"] 10 ["A"] ∅ wf_input_graph)
    as (fuel & n & _ & _ & Hn).
  - intros s ->%list_elem_of_singleton. by_decide.
  - by_computation.
  - exists "A". split; [by_decide|by_computation].
  - apply (sub_graph_between_nodes_mono _ (fuel `max` 10)) in Hn; [|lia].
    assert (sub_graph_between_nodes 10 input_graph ["A"] ["D"]
            = Some (Raise (Error (EndNodeNotReachable "D" ["A"])))) as H10
      by by_computation.
    apply (sub_graph_between_nodes_mono _ (fuel `max` 10)) in H10; [|lia].
    congruence.
Qed.

(** C4, amended: every node of a list that [sub_graph_between_nodes]
    returns is a node of the graph whose op is not ['Placeholder']; and
    when the start nodes are nodes of the graph, every end node is
    reachable from a start node and the first loop collects a node whose
    op is ['Placeholder'], the error raised names the first such node
    collected.  (When an end node is not reachable, the error raised names
    that end node: the check of the end nodes comes first.  A start node
    that is not a node of the graph makes [graph.node[node_name]] raise
    [KeyError] when the last loop comes to it.) *)
Theorem sub_graph_between_nodes_network_input graph start_nodes end_nodes :
  wf_graph graph →
  (∀ fuel l,
     sub_graph_between_nodes fuel graph start_nodes end_nodes = Some (Return l) →
     ∀ n, n ∈ l → ∃ o, get_op graph n = Return o ∧ o ≠ "Placeholder")
  ∧ ((∀ s, s ∈ start_nodes → s ∈ nodes graph) →
     (∀ e, e ∈ end_nodes → ∃ s, s ∈ start_nodes ∧ reachable graph s e) →
     ∀ fuel1 sub_graph_nodes prev,
       grow fuel1 graph start_nodes end_nodes = Some (sub_graph_nodes, prev) →
       (∃ n, n ∈ sub_graph_nodes ∧ get_op graph n = Return "Placeholder") →
       ∃ fuel0 l1 n l2,
         sub_graph_nodes = l1 ++ n :: l2
         ∧ get_op graph n = Return "Placeholder"
         ∧ (∀ x, x ∈ l1 → ∃ o, get_op graph x = Return o ∧ o ≠ "Placeholder")
         ∧ ∀ fuel, fuel0 ≤ fuel →
             sub_graph_between_nodes fuel graph start_nodes end_nodes
             = Some (Raise (Error (ContainsNetworkInput n)))).
Proof.
  intros Hwf.
  destruct (sub_graph_between_nodes_result graph start_nodes end_nodes Hwf)
    as (fuel0 & sub & prev & fv & Hg & Hfv & Hreach & Hres).
  split.
  - intros fuel l Hl n Hn.
    apply (sub_graph_between_nodes_mono _ (fuel `max` fuel0)) in Hl; [|lia].
    rewrite Hres in Hl; [|lia].
    destruct (List.find _ end_nodes); [done|]. injection Hl as Hl.
    apply inputs_outcome_Return in Hl as [-> Hl]. by apply Hl.
  - intros Hstart Hends fuel1 sub1 prev1 Hg1 (n0 & Hn0 & Hop0).
    assert (sub1 = sub) as ->.
    { unfold grow in *.
      apply (while_mono _ _ (fuel1 `max` fuel0)) in Hg1; [|lia].
      apply (while_mono _ _ (fuel1 `max` fuel0)) in Hg; [|lia]. congruence. }
    destruct (List.find (λ end_node, bool_decide (end_node ∉ fv)) end_nodes)
      as [e|] eqn:E.
    { apply find_Some_elem_of in E as [He Hefv]. apply bool_decide_eq_true in Hefv.
      destruct Hefv. apply Hreach. auto. }
    destruct (inputs_outcome graph sub sub) as [r|e] eqn:E2.
    + apply inputs_outcome_Return in E2 as [_ E2].
      destruct (E2 n0 Hn0) as (o & Ho & ?). congruence.
    + apply inputs_outcome_Raise in E2
        as (l1 & n & l2 & -> & Hl1 & [[Hn ->]|[Hn _]]).
      * exists fuel0, l1, n, l2. done.
      * destruct (grow_nodes _ _ _ _ _ _ Hwf Hg n) as [Hs%Hstart|Hs].
        { apply elem_of_app. right. by left. }
        -- destruct (wf_attrs _ Hwf n Hs) as (a & Ha & _). congruence.
        -- destruct (wf_attrs _ Hwf n Hs) as (a & Ha & _). congruence.
Qed.

Lemma reachable_side_input_graph e :
  e ∈ ["D"] → ∃ s, s ∈ ["A"] ∧ reachable side_input_graph s e.
Proof.
  intros ->%list_elem_of_singleton. exists "A". split; [by_decide|].
  apply (rtc_l _ _ "B"); [unfold edge; by_decide|].
  apply rtc_once. unfold edge. by_decide.
Defined.

Lemma start_side_input_graph s : s ∈ ["A"] → s ∈ nodes side_input_graph.
Proof. intros ->%list_elem_of_singleton. by_decide. Defined.

Lemma sub_graph_between_nodes_network_input_witness :
  (sub_graph_between_nodes 10 chain4 ["A"] ["D"] = Some (Return ["A"; "B"; "C"; "D"])
   ∧ ∀ n, n ∈ ["A"; "B"; "C"; "D"] →
          ∃ o, get_op chain4 n = Return o ∧ o ≠ "Placeholder")
  ∧ ∃ fuel0 l1 n l2,
      ["A"; "B"; "D"; "P"] = l1 ++ n :: l2
      ∧ get_op side_input_graph n = Return "Placeholder"
      ∧ (∀ x, x ∈ l1 → ∃ o, get_op side_input_graph x = Return o ∧ o ≠ "Placeholder")
      ∧ ∀ fuel, fuel0 ≤ fuel →
          sub_graph_between_nodes fuel side_input_graph ["A"] ["D"]
          = Some (Raise (Error (ContainsNetworkInput n))).
Proof.
  split.
  - assert (sub_graph_between_nodes 10 chain4 ["A"] ["D"]
            = Some (Return ["A"; "B"; "C"; "D"])) as H by by_computation.
    split; [done|].
    exact (proj1 (sub_graph_between_nodes_network_input chain4 ["A"] ["D"] wf_chain4)
             10 _ H).
  - assert (grow 10 side_input_graph ["A"] ["D"]
            = Some (["A"; "B"; "D"; "P"],
                    <["P" := "B"]> (<["D" := "B"]> (<["B" := "A"]> ∅)))) as Hg
      by by_computation.
    assert (∃ n, n ∈ ["A"; "B"; "D"; "P"]
                 ∧ get_op side_input_graph n = Return "Placeholder")
      as Hp.
    { exists "P". split; [by_decide|by_computation]. }
    exact (proj2 (sub_graph_between_nodes_network_input side_input_graph
                    ["A"] ["D"] wf_side_input_graph)
             start_side_input_graph reachable_side_input_graph 10 _ _ Hg Hp).
Defined.

(** C10: in [sub_graph_between_nodes] the ['prev'] attribute of a node is
    assigned only when the node is not visited, and the node is visited
    from then on, so it is assigned at most once; the attributes that the
    first loop leaves lead from every node, in finitely many steps, to a
    node whose ['prev'] is [None], and the loop that collects the path of
    a node ends. *)
Theorem prev_assigned_once graph start_nodes end_nodes :
  wf_graph graph →
  (∀ cur d visited prev x s',
     s' = grow_out cur (d, visited, prev) x
     ∨ s' = grow_in start_nodes cur (d, visited, prev) x →
     s' = (d, visited, prev)
     ∨ (x ∉ visited ∧ s' = (d ++ [x], visited ∪ {[x]}, <[x := cur]> prev)))
  ∧ ∃ fuel0 sub_graph_nodes prev,
      (∀ fuel, fuel0 ≤ fuel →
         grow fuel graph start_nodes end_nodes = Some (sub_graph_nodes, prev))
      ∧ (∀ n p, prev !! n = Some p → n ∉ start_nodes)
      ∧ (∀ n, ∃ k, prev_chain prev n k)
      ∧ (∀ n, ∃ fuel1, ∀ fuel, fuel1 ≤ fuel → is_Some (input_path fuel prev n)).
Proof.
  intros Hwf. split.
  - intros cur d V prev x s' [-> | ->].
    + destruct (grow_out_cases cur (d, V, prev) x) as [->|[? ->]]; auto.
    + destruct (grow_in_cases start_nodes cur (d, V, prev) x) as [->|(? & ? & ->)];
        auto.
  - destruct (grow_terminates graph start_nodes end_nodes
                (S (length start_nodes + length (nodes graph))) Hwf)
      as [[sub prev] Hg]; [lia|].
    pose proof (grow_prev_chain _ _ _ _ _ _ Hg) as [Hch Hst].
    exists (S (length start_nodes + length (nodes graph))), sub, prev.
    split_and!; [|done..|].
    + intros fuel Hf. unfold grow in *. by eapply while_mono.
    + intros n. destruct (Hch n) as [k Hk]. exists (k + 2). intros fuel Hf.
      destruct (input_path_terminates prev n k fuel [] Hk) as [p Hp]; [lia|].
      by exists p.
Qed.

Lemma prev_assigned_once_witness :
  ∃ fuel0 sub_graph_nodes prev,
    (∀ fuel, fuel0 ≤ fuel →
       grow fuel side_input_graph ["A"] ["D"] = Some (sub_graph_nodes, prev))
    ∧ (∀ n p, prev !! n = Some p → n ∉ ["A"])
    ∧ (∀ n, ∃ k, prev_chain prev n k)
    ∧ (∀ n, ∃ fuel1, ∀ fuel, fuel1 ≤ fuel → is_Some (input_path fuel prev n)).
Proof.
  exact (proj2 (prev_assigned_once side_input_graph ["A"] ["D"] wf_side_input_graph)).
Defined.


(** C7: [is_connected_component] returns [True] exactly when every node of
    [node_names] is reachable from the first one along edges, taken in
    either direction, whose two ends are in [node_names]; it returns
    [True] on the empty list, and [False] on the nodes A and C of the
    chain A -> B -> C. *)
Theorem is_connected_component_spec graph :
  (∀ fuel, is_connected_component fuel graph [] = Some true)
  ∧ (∀ n0 rest,
       ∃ fuel0 b,
         (∀ fuel, fuel0 ≤ fuel →
            is_connected_component fuel graph (n0 :: rest) = Some b)
         ∧ (b = true ↔
            ∀ x, x ∈ n0 :: rest → rtc (adjacent graph (n0 :: rest)) n0 x))
  ∧ (∃ fuel0, ∀ fuel, fuel0 ≤ fuel →
       is_connected_component fuel chain3 ["A"; "C"] = Some false).
Proof.
  split_and!.
  - done.
  - intros n0 rest. set (node_names := n0 :: rest).
    set (init := ([n0], {[n0]}) : list string * gset string).
    destruct (while_terminates (icc_body graph node_names) (λ _, True)
                (icc_measure node_names)
                (λ s s' _ Hb, conj I (icc_body_measure graph node_names s s' Hb))
                (S (icc_measure node_names init)) init I) as [b Hb]; [lia|].
    exists (S (icc_measure node_names init)), b. split.
    { intros fuel Hf. simpl. by eapply while_mono. }
    apply (while_inv _ (icc_inv graph node_names n0)) in Hb.
    + destruct Hb as ([d V] & (Hn0 & Hd & Hin & Hreach & Hcl) & Hb).
      destruct d as [|? ?]; [|done]. injection Hb as <-.
      rewrite bool_decide_eq_true. split.
      * intros Hsub x Hx. apply Hreach, Hsub. set_solver.
      * intros Hall x Hx. assert (x ∈ n0 :: rest) as Hx' by set_solver.
        specialize (Hall x Hx'). clear Hx Hx'.
        apply (rtc_ind_r (R:=adjacent graph node_names) (λ z, z ∈ V) n0); [done| |done].
        intros b c _ Hbc IH. eapply Hcl; [apply IH| |done]. apply not_elem_of_nil.
    + intros ??. apply icc_body_inv.
    + split_and!.
      * set_solver.
      * intros x ->%list_elem_of_singleton. set_solver.
      * intros x ->%elem_of_singleton. by left.
      * intros x ->%elem_of_singleton. reflexivity.
      * intros x y ->%elem_of_singleton Hx. destruct Hx. by left.
  - exists 10. intros fuel Hf. simpl. eapply while_mono; [|done]. by_computation.
Qed.


Lemma wf_cycle_graph : wf_graph cycle_graph.
Proof. apply wf_graphb_sound. by_computation. Defined.

Lemma wf_conv_graph : wf_graph conv_graph.
Proof. apply wf_graphb_sound. by_computation. Defined.

Lemma acyclic_conv_graph : acyclic conv_graph.
Proof.
  apply (rank_acyclic _ (index_of (nodes conv_graph))), rank_edges. by_computation.
Defined.

(** C2, as the specification states it, fails: [backward_bfs_for_operation]
    keeps no set of visited nodes, and on the well-formed graph with the
    cycle P -> d -> P its loop started from P never ends. *)
Lemma backward_bfs_for_operation_cycle :
  ¬ (∀ graph start_node op_names,
       wf_graph graph → start_node ∈ nodes graph →
       ∃ fuel ret,
         backward_bfs_for_operation fuel graph start_node op_names = Some ret).
Proof.
  intros H.
  destruct (H cycle_graph "P" ["Conv"] wf_cycle_graph) as (fuel & ret & Hret);
    [by_decide|].
  assert (∀ fuel,
    while (bbfs_body cycle_graph ["Conv"]) fuel (["P"], []) = None
    ∧ while (bbfs_body cycle_graph ["Conv"]) fuel (["d"], []) = None) as Hloop.
  { clear. induction fuel as [|fuel [IH1 IH2]]; [done|]. split.
    - change (while (bbfs_body cycle_graph ["Conv"]) fuel (["d"], []) = None).
      done.
    - change (while (bbfs_body cycle_graph ["Conv"]) fuel (["P"], []) = None).
      done. }
  destruct (Hloop fuel) as [HP _]. unfold backward_bfs_for_operation in Hret.
  congruence.
Qed.

(** C2, amended: [backward_bfs_for_operation] keeps no set of visited
    nodes.  It ends and returns a list exactly when the search started at
    the start node comes to no cycle of nodes that it goes on with, which
    are the operators with an op that is not in [op_names] and the data
    nodes without value; so it ends on every graph without a cycle, and
    it does not end when it comes to such a cycle. *)
Theorem backward_bfs_for_operation_terminates graph start_node op_names :
  ((∃ fuel0 ret, ∀ fuel, fuel0 ≤ fuel →
      backward_bfs_for_operation fuel graph start_node op_names = Some ret)
   ↔ ¬ ∃ y, bbfs_expanded graph op_names start_node y
            ∧ tc (bbfs_step graph op_names) y y)
  ∧ (acyclic graph →
     ∃ fuel0 ret, ∀ fuel, fuel0 ≤ fuel →
       backward_bfs_for_operation fuel graph start_node op_names = Some ret)
  ∧ ((∃ y, bbfs_expanded graph op_names start_node y
           ∧ tc (bbfs_step graph op_names) y y) →
     ∀ fuel, backward_bfs_for_operation fuel graph start_node op_names = None).
Proof.
  assert (∀ fuel ret,
    backward_bfs_for_operation fuel graph start_node op_names = Some ret →
    ¬ ∃ y, bbfs_expanded graph op_names start_node y
           ∧ tc (bbfs_step graph op_names) y y) as Hret.
  { intros fuel ret H (y & Hy%bbfs_expanded_rtc & Hc).
    apply (sn_no_cycle (bbfs_step graph op_names) y); [|done].
    eapply sn_rtc; [|done].
    apply (bbfs_returns_sn graph op_names fuel [start_node] [] ret H). by left. }
  split_and!.
  - split.
    + intros (fuel0 & ret & H). by apply (Hret fuel0 ret), H.
    + intros Hno. by apply bbfs_terminates_sn, bbfs_no_cycle_sn.
  - intros Hac. apply bbfs_terminates_sn, bbfs_no_cycle_sn.
    intros (y & _ & Hc%bbfs_step_edge). by apply (Hac y).
  - intros Hc fuel.
    destruct (backward_bfs_for_operation fuel graph start_node op_names)
      as [ret|] eqn:E; [|done].
    by destruct (Hret fuel ret E).
Qed.

Lemma bbfs_step_cycle_graph :
  ∃ y, bbfs_expanded cycle_graph ["Conv"] "P" y
       ∧ tc (bbfs_step cycle_graph ["Conv"]) y y.
Proof.
  exists "P". split; [constructor|].
  apply (tc_l _ _ "d"); [|apply tc_once].
  - split; [unfold edge; by_decide|]. apply bbfs_passb_spec. by_computation.
  - split; [unfold edge; by_decide|]. apply bbfs_passb_spec. by_computation.
Defined.

Lemma bbfs_returns_cycle_graph :
  ∃ fuel0 ret, ∀ fuel, fuel0 ≤ fuel →
    backward_bfs_for_operation fuel cycle_graph "P" ["Relu"] = Some ret.
Proof.
  exists 10, ["P"]. intros fuel Hf. unfold backward_bfs_for_operation.
  eapply while_mono; [|done]. by_computation.
Defined.

(** With the op names [Conv] the search ends on the graph without a cycle
    and does not end on the cycle P -> d -> P; with the op name [Relu] of
    P it ends on that cycle, and comes to no cycle of nodes it goes on
    with, as it records P and does not go on with it. *)
Lemma backward_bfs_for_operation_terminates_witness :
  (∃ fuel0 ret, ∀ fuel, fuel0 ≤ fuel →
     backward_bfs_for_operation fuel conv_graph "start" ["Conv"] = Some ret)
  ∧ (¬ ∃ y, bbfs_expanded cycle_graph ["Relu"] "P" y
            ∧ tc (bbfs_step cycle_graph ["Relu"]) y y)
  ∧ ∀ fuel, backward_bfs_for_operation fuel cycle_graph "P" ["Conv"] = None.
Proof.
  split_and!.
  - exact (proj1 (proj2 (backward_bfs_for_operation_terminates
                           conv_graph "start" ["Conv"])) acyclic_conv_graph).
  - exact (proj1 (proj1 (backward_bfs_for_operation_terminates
                           cycle_graph "P" ["Relu"])) bbfs_returns_cycle_graph).
  - exact (proj2 (proj2 (backward_bfs_for_operation_terminates
                           cycle_graph "P" ["Conv"])) bbfs_step_cycle_graph).
Defined.

(** C6: in [backward_bfs_for_operation] a predecessor that is an operator
    with an op of [op_names] is appended to the result unless it is there
    already, and is not put into the queue; a data node with a value is
    neither recorded nor put into the queue; a data node without value is
    put into the queue.  The result has no node twice.  On
    start <- data (no value) <- Conv the result is [Conv], also when the
    graph continues behind Conv with a second operator Conv0; on
    start <- data (constant value) it is empty. *)
Theorem backward_bfs_for_operation_rules :
  (∀ graph op_names q ret pnode,
     (kind (attrs_of graph pnode) = "op" →
      (∃ o, op (attrs_of graph pnode) = Some o ∧ o ∈ op_names) →
      bbfs_visit graph op_names (q, ret) pnode
      = (q, if decide (pnode ∈ ret) then ret else ret ++ [pnode]))
     ∧ (kind (attrs_of graph pnode) = "data" →
        is_Some (value (attrs_of graph pnode)) →
        bbfs_visit graph op_names (q, ret) pnode = (q, ret))
     ∧ (kind (attrs_of graph pnode) = "data" →
        value (attrs_of graph pnode) = None →
        bbfs_visit graph op_names (q, ret) pnode = (q ++ [pnode], ret)))
  ∧ (∀ fuel graph start_node op_names ret,
       backward_bfs_for_operation fuel graph start_node op_names = Some ret →
       NoDup ret)
  ∧ (∃ fuel0, ∀ fuel, fuel0 ≤ fuel →
       backward_bfs_for_operation fuel conv3_graph "start" ["Conv"] = Some ["Conv"])
  ∧ (∃ fuel0, ∀ fuel, fuel0 ≤ fuel →
       backward_bfs_for_operation fuel conv_graph "start" ["Conv"] = Some ["Conv"])
  ∧ (∃ fuel0, ∀ fuel, fuel0 ≤ fuel →
       backward_bfs_for_operation fuel const_graph "start" ["Conv"] = Some []).
Proof.
  split_and!.
  - intros graph op_names q ret pnode. unfold bbfs_visit, op_in. split_and!.
    + intros -> (o & -> & Ho). rewrite decide_True; [|done].
      rewrite bool_decide_eq_true_2; [|done]. by destruct (decide _).
    + intros -> [v Hv]. rewrite decide_False; [|done].
      rewrite decide_False; [done|]. intros [_ H]. congruence.
    + intros -> Hv. rewrite decide_False; [|done]. by rewrite decide_True.
  - intros fuel graph start_node op_names ret. apply bbfs_ret_NoDup.
  - exists 10. intros fuel Hf. unfold backward_bfs_for_operation.
    eapply while_mono; [|done]. by_computation.
  - exists 10. intros fuel Hf. unfold backward_bfs_for_operation.
    eapply while_mono; [|done]. by_computation.
  - exists 10. intros fuel Hf. unfold backward_bfs_for_operation.
    eapply while_mono; [|done]. by_computation.
Qed.

(** C9: with the start node and [next_node_fn] fixed,
    [node_neighbourhood] with [depth = 0] returns the start node alone,
    and with a larger [depth] it returns every node that it returns with
    a smaller one, each node once, so the number of nodes returned does
    not decrease. *)
Theorem node_neighbourhood_monotone node_name next_node_fn :
  (∃ fuel0, ∀ fuel, fuel0 ≤ fuel →
     node_neighbourhood fuel node_name 0 next_node_fn = Some (Return [node_name]))
  ∧ ∀ depth1 depth2, (depth1 ≤ depth2)%Z →
      ∃ fuel0 l1 l2,
        (∀ fuel, fuel0 ≤ fuel →
           node_neighbourhood fuel node_name depth1 next_node_fn = Some (Return l1)
           ∧ node_neighbourhood fuel node_name depth2 next_node_fn = Some (Return l2))
        ∧ NoDup l1 ∧ NoDup l2
        ∧ (∀ x, x ∈ l1 → x ∈ l2)
        ∧ length l1 ≤ length l2
        ∧ size (list_to_set l1 : gset string) ≤ size (list_to_set l2 : gset string).
Proof.
  split.
  - exists 2. intros fuel Hf. destruct fuel as [|[|fuel]]; [lia..|].
    unfold node_neighbourhood. simpl. rewrite decide_True; [|done].
    rewrite decide_False; [|lia]. done.
  - intros depth1 depth2 Hle.
    destruct (node_neighbourhood_spec next_node_fn depth1 node_name)
      as (f1 & l1 & H1 & Hnd1 & Hl1).
    destruct (node_neighbourhood_spec next_node_fn depth2 node_name)
      as (f2 & l2 & H2 & Hnd2 & Hl2).
    assert (∀ x, x ∈ l1 → x ∈ l2) as Hsub.
    { intros x (k & Hk & Hkd)%Hl1. apply Hl2. exists k. split; [done|lia]. }
    exists (f1 `max` f2), l1, l2. split_and!; [|done..| |].
    + intros fuel Hf. split; [apply H1|apply H2]; lia.
    + by apply submseteq_length, NoDup_submseteq.
    + apply subseteq_size. intros x. rewrite !elem_of_list_to_set. auto.
Qed.

Lemma node_neighbourhood_monotone_witness :
  (1 ≤ 2)%Z
  ∧ ∃ fuel0 l1 l2,
      (∀ fuel, fuel0 ≤ fuel →
         node_neighbourhood fuel "A" 1 (λ n, (out_edges chain4 n).*2) = Some (Return l1)
         ∧ node_neighbourhood fuel "A" 2 (λ n, (out_edges chain4 n).*2) = Some (Return l2))
      ∧ NoDup l1 ∧ NoDup l2
      ∧ (∀ x, x ∈ l1 → x ∈ l2)
      ∧ length l1 ≤ length l2
      ∧ size (list_to_set l1 : gset string) ≤ size (list_to_set l2 : gset string).
Proof.
  assert (1 ≤ 2)%Z as H by lia. split; [done|].
  exact (proj2 (node_neighbourhood_monotone "A" (λ n, (out_edges chain4 n).*2)) 1%Z 2%Z H).
Defined.

(** * Further properties of the code *)

(** X1: on a well-formed graph [bfs_search] ends and returns the nodes that
    are reachable from a start node, and no other, where the start nodes
    are the nodes without in edges when [start_nodes] is empty. *)
Theorem bfs_search_reachable graph start_nodes :
  wf_graph graph →
  ∃ fuel0 result,
    (∀ fuel, fuel0 ≤ fuel → bfs_search fuel graph start_nodes = Some result)
    ∧ ∀ x, x ∈ result
           ↔ ∃ s, s ∈ bfs_start_nodes graph start_nodes ∧ reachable graph s x.
Proof.
  intros Hwf.
  destruct (bfs_loop_spec graph (bfs_start_nodes graph start_nodes) Hwf)
    as (fuel0 & result & Hres & Hreach & _).
  exists fuel0, result. split; [|done]. intros fuel Hf. by apply Hres.
Qed.

Lemma bfs_search_reachable_witness :
  ∃ fuel0 result,
    (∀ fuel, fuel0 ≤ fuel → bfs_search fuel chain4 ["B"] = Some result)
    ∧ ∀ x, x ∈ result
           ↔ ∃ s, s ∈ bfs_start_nodes chain4 ["B"] ∧ reachable chain4 s x.
Proof. exact (bfs_search_reachable chain4 ["B"] wf_chain4). Defined.

(** X2: the list that [bfs_search] returns begins with the start nodes;
    every node after them has an edge from a node that stands before it;
    and no node is listed twice when the start nodes are distinct, as they
    are when [start_nodes] is empty. *)
Theorem bfs_search_order graph start_nodes :
  wf_graph graph →
  ∃ fuel0 result t,
    (∀ fuel, fuel0 ≤ fuel → bfs_search fuel graph start_nodes = Some result)
    ∧ result = bfs_start_nodes graph start_nodes ++ t
    ∧ (∀ x, x ∈ t → ∃ p, edge graph p x ∧ before result p x)
    ∧ (NoDup start_nodes → NoDup result).
Proof.
  intros Hwf.
  destruct (bfs_loop_spec graph (bfs_start_nodes graph start_nodes) Hwf)
    as (fuel0 & result & Hres & _ & Hnd & t & -> & Hseq).
  exists fuel0, (bfs_start_nodes graph start_nodes ++ t), t.
  split_and!; [by intros fuel Hf; apply Hres|done| |].
  - by apply bfs_seq_before.
  - intros Hs. apply Hnd. unfold bfs_start_nodes.
    destruct (decide _); [|done]. apply NoDup_filter, Hwf.
Qed.

Lemma bfs_search_order_witness :
  ∃ fuel0 result t,
    (∀ fuel, fuel0 ≤ fuel → bfs_search fuel chain4 [] = Some result)
    ∧ result = bfs_start_nodes chain4 [] ++ t
    ∧ (∀ x, x ∈ t → ∃ p, edge chain4 p x ∧ before result p x)
    ∧ (NoDup ([] : list string) → NoDup result).
Proof. exact (bfs_search_order chain4 [] wf_chain4). Defined.

(** X3: called with an empty [visited] on a well-formed graph, [dfs]
    returns the nodes that are reachable from the start node, each once,
    the start node last, and leaves these nodes in [visited]. *)
Theorem dfs_from_empty graph node_name :
  wf_graph graph →
  ∃ order visited,
    dfs (dfs_fuel graph) graph node_name ∅ = Some (order, visited)
    ∧ NoDup order
    ∧ (∀ x, x ∈ order ↔ reachable graph node_name x)
    ∧ (∀ x, x ∈ visited ↔ x ∈ order)
    ∧ ∃ o, order = o ++ [node_name].
Proof.
  intros Hwf.
  destruct (dfs_terminates graph (dfs_fuel graph) node_name ∅ Hwf)
    as [[order V] H]; [done|].
  exists order, V.
  pose proof (dfs_fresh _ _ _ _ _ _ (not_elem_of_empty node_name) H)
    as (Hnd & HV & _).
  split_and!; [done..| | |].
  - by eapply dfs_empty_reachable.
  - intros x. rewrite HV. set_solver.
  - by eapply dfs_start_last.
Qed.

Lemma dfs_from_empty_witness :
  ∃ order visited,
    dfs (dfs_fuel chain4) chain4 "B" ∅ = Some (order, visited)
    ∧ NoDup order
    ∧ (∀ x, x ∈ order ↔ reachable chain4 "B" x)
    ∧ (∀ x, x ∈ visited ↔ x ∈ order)
    ∧ ∃ o, order = o ++ ["B"].
Proof. exact (dfs_from_empty chain4 "B" wf_chain4). Defined.

(** X4: [dfs] does not test whether its start node is visited: called on a
    node that is in [visited] together with all its successors, it returns
    that node again and leaves [visited] as it is. *)
Theorem dfs_visited_start graph node_name visited fuel :
  2 ≤ fuel →
  node_name ∈ visited →
  (∀ y, edge graph node_name y → y ∈ visited) →
  dfs fuel graph node_name visited = Some ([node_name], visited).
Proof.
  intros Hf Hn Hsucc. destruct fuel as [|[|fuel]]; [lia..|].
  unfold dfs. cbn [while dfs_body].
  assert (visited ∪ {[node_name]} = visited) as -> by set_solver.
  destruct (List.find _ _) as [c|] eqn:E; [|done].
  apply find_Some_elem_of in E as [Hc Hv]. apply bool_decide_eq_true in Hv.
  apply elem_of_out_edges in Hc. destruct Hv. auto.
Qed.

Lemma dfs_visited_start_witness :
  dfs 2 chain4 "C" {["C"; "D"]} = Some (["C"], {["C"; "D"]}).
Proof.
  apply dfs_visited_start; [lia|by_decide|].
  intros y Hy%elem_of_out_edges.
  assert ((out_edges chain4 "C").*2 = ["D"]) as E by by_computation.
  rewrite E in Hy. apply list_elem_of_singleton in Hy as ->. by_decide.
Defined.

(** X5: on a well-formed graph without cycle, [dfs] called on a node that
    is not visited returns a post-order: every successor of a node of
    [order] was visited before the call or stands before that node in
    [order]. *)
Theorem dfs_post_order graph node_name visited :
  wf_graph graph → acyclic graph → node_name ∉ visited →
  ∃ order visited',
    dfs (dfs_fuel graph) graph node_name visited = Some (order, visited')
    ∧ ∀ x y, x ∈ order → edge graph x y → y ∈ visited ∨ before order y x.
Proof.
  intros Hwf Hac Hn.
  destruct (dfs_terminates graph (dfs_fuel graph) node_name visited Hwf)
    as [[order V] H]; [done|].
  exists order, V. split; [done|]. by eapply dfs_postorder.
Qed.

Lemma dfs_post_order_witness :
  ∃ order visited',
    dfs (dfs_fuel chain4) chain4 "A" {["D"]} = Some (order, visited')
    ∧ ∀ x y, x ∈ order → edge chain4 x y → y ∈ ({["D"]} : gset string) ∨ before order y x.
Proof.
  apply (dfs_post_order chain4 "A" {["D"]} wf_chain4 acyclic_chain4). by_decide.
Defined.

(** X6: on every well-formed graph, with a cycle or not,
    [pseudo_topological_sort] returns, each once, the nodes that are
    reachable from a node without in edges; so it returns the empty list
    when every node has an in edge. *)
Theorem pseudo_topological_sort_reachable graph reverse :
  wf_graph graph →
  ∃ order,
    pseudo_topological_sort (dfs_fuel graph) graph reverse = Some order
    ∧ NoDup order
    ∧ (∀ x, x ∈ order
            ↔ ∃ s, s ∈ nodes_without_inputs graph ∧ reachable graph s x)
    ∧ (nodes_without_inputs graph = [] → order = []).
Proof.
  intros Hwf. unfold pseudo_topological_sort.
  destruct (pts_loop_reach graph (dfs_fuel graph) (nodes_without_inputs graph)
              Hwf (reflexivity _) ∅ [])
    as (O & -> & HO & Hcl & _ & Hl & Hr);
    [set_solver|apply NoDup_nil_2|set_solver|].
  assert (∀ x, x ∈ O ↔ ∃ s, s ∈ nodes_without_inputs graph ∧ reachable graph s x)
    as HOx.
  { intros x. split.
    - intros [?%elem_of_nil|?]%Hr; done.
    - intros (s & Hs%Hl & Hsx).
      induction Hsx as [|a b c Hab _ IH]; [done|]. apply IH. by eapply Hcl. }
  assert (nodes_without_inputs graph = [] → O = []) as Hnil.
  { intros E. destruct O as [|a O]; [done|].
    destruct (HOx a) as [(s & Hs & _) _]; [by left|].
    rewrite E in Hs. by apply elem_of_nil in Hs. }
  destruct reverse.
  - exists O. done.
  - exists (rev O). split_and!; [done| | |].
    + by apply NoDup_ListNoDup, NoDup_rev, NoDup_ListNoDup.
    + intros x. rewrite <- HOx, !list_elem_of_In. symmetry. apply in_rev.
    + intros E. by rewrite (Hnil E).
Qed.

Lemma pseudo_topological_sort_reachable_witness :
  ∃ order,
    pseudo_topological_sort (dfs_fuel cycle_graph) cycle_graph false = Some order
    ∧ NoDup order
    ∧ (∀ x, x ∈ order
            ↔ ∃ s, s ∈ nodes_without_inputs cycle_graph ∧ reachable cycle_graph s x)
    ∧ (nodes_without_inputs cycle_graph = [] → order = []).
Proof. exact (pseudo_topological_sort_reachable cycle_graph false wf_cycle_graph). Defined.

(** X7: on a well-formed graph without cycle, [pseudo_topological_sort]
    with [reverse=True] returns a permutation of the nodes of the graph in
    which [v] comes before [u] for every edge [(u, v)], and with
    [reverse=False] it returns that list reversed. *)
Theorem pseudo_topological_sort_reverse graph :
  wf_graph graph → acyclic graph →
  ∃ order,
    pseudo_topological_sort (dfs_fuel graph) graph true = Some order
    ∧ pseudo_topological_sort (dfs_fuel graph) graph false = Some (rev order)
    ∧ order ≡ₚ nodes graph
    ∧ ∀ u v, edge graph u v → precedes v u order.
Proof.
  intros Hwf Hac.
  destruct (pseudo_topological_sort_reachable graph true Hwf)
    as (O & HO & Hnd & Hreach & _).
  unfold pseudo_topological_sort in *.
  destruct (pts_loop_spec graph Hwf Hac (dfs_fuel graph)
              (nodes_without_inputs graph) (reflexivity _) ∅ [])
    as (O' & HO' & Hinv & Hsrc & _).
  { split_and!; [set_solver|apply NoDup_nil_2|by intros x y ?%elem_of_nil]. }
  rewrite HO' in HO |- *. injection HO as ->.
  pose proof (pts_loop_all_nodes graph Hwf Hac O Hinv Hsrc) as Hall.
  exists O. split_and!; [done..| |].
  - apply NoDup_Permutation; [done|apply Hwf|]. intros x. split; [|auto].
    intros (s & Hs & Hsx)%Hreach. eapply reachable_nodes; [done| |done].
    unfold nodes_without_inputs in Hs. by apply list_elem_of_filter in Hs as [_ ?].
  - intros u v Huv. destruct Hinv as (_ & _ & Hpost).
    apply before_precedes, Hpost; [|done]. apply Hall. by apply Hwf in Huv as [? ?].
Qed.

Lemma pseudo_topological_sort_reverse_witness :
  ∃ order,
    pseudo_topological_sort (dfs_fuel chain4) chain4 true = Some order
    ∧ pseudo_topological_sort (dfs_fuel chain4) chain4 false = Some (rev order)
    ∧ order ≡ₚ nodes chain4
    ∧ ∀ u v, edge chain4 u v → precedes v u order.
Proof. exact (pseudo_topological_sort_reverse chain4 wf_chain4 acyclic_chain4). Defined.

(** X8: the result of [is_connected_component] depends only on the set of
    the nodes listed: two lists with the same elements, in any order and
    with any repetitions, give the same result. *)
Theorem is_connected_component_order graph l1 l2 :
  (∀ x, x ∈ l1 ↔ x ∈ l2) →
  ∃ fuel0 b, ∀ fuel, fuel0 ≤ fuel →
    is_connected_component fuel graph l1 = Some b
    ∧ is_connected_component fuel graph l2 = Some b.
Proof.
  intros Hl. destruct l1 as [|n1 r1], l2 as [|n2 r2].
  - by exists 0, true.
  - exfalso. apply (not_elem_of_nil n2), Hl. by left.
  - exfalso. apply (not_elem_of_nil n1), Hl. by left.
  - destruct (icc_loop_spec graph n1 r1) as (f1 & b1 & H1 & Hb1).
    destruct (icc_loop_spec graph n2 r2) as (f2 & b2 & H2 & Hb2).
    assert (b1 = b2) as ->.
    { assert (∀ x, x ∈ n2 :: r2 ↔ x ∈ n1 :: r1) as Hl'
        by (intros x; symmetry; apply Hl).
      apply eq_true_iff_eq. rewrite Hb1, Hb2. split; intros H.
      - apply (icc_connected_transfer graph (n1 :: r1) (n2 :: r2) n1 n2 Hl);
          [by left|done].
      - apply (icc_connected_transfer graph (n2 :: r2) (n1 :: r1) n2 n1 Hl');
          [by left|done]. }
    exists (f1 `max` f2), b2. intros fuel Hf. split; [apply H1|apply H2]; lia.
Qed.

Lemma is_connected_component_order_witness :
  ∃ fuel0 b, ∀ fuel, fuel0 ≤ fuel →
    is_connected_component fuel chain3 ["A"; "B"; "C"] = Some b
    ∧ is_connected_component fuel chain3 ["C"; "A"; "B"; "A"] = Some b.
Proof.
  apply is_connected_component_order. intros x.
  rewrite !elem_of_cons. rewrite !elem_of_nil. tauto.
Defined.

(** X9: the list of nodes that the first loop of [sub_graph_between_nodes]
    collects, which is the list the function returns when it returns,
    begins with the start nodes and has no node twice when they are
    distinct; with a node that is not an end node it has all its
    successors, with a node that is not a start node all its
    predecessors; and each of its nodes is linked to a start node by a
    path of edges taken in either direction. *)
Theorem sub_graph_between_nodes_region graph start_nodes end_nodes :
  wf_graph graph →
  ∃ fuel0 sub_graph_nodes prev,
    (∀ fuel, fuel0 ≤ fuel →
       grow fuel graph start_nodes end_nodes = Some (sub_graph_nodes, prev))
    ∧ (∀ fuel l,
         sub_graph_between_nodes fuel graph start_nodes end_nodes = Some (Return l) →
         l = sub_graph_nodes)
    ∧ (∃ t, sub_graph_nodes = start_nodes ++ t)
    ∧ (NoDup start_nodes → NoDup sub_graph_nodes)
    ∧ (∀ x y, x ∈ sub_graph_nodes → x ∉ end_nodes → edge graph x y →
              y ∈ sub_graph_nodes)
    ∧ (∀ x p, x ∈ sub_graph_nodes → x ∉ start_nodes → edge graph p x →
              p ∈ sub_graph_nodes)
    ∧ (∀ x, x ∈ sub_graph_nodes →
            ∃ s, s ∈ start_nodes ∧ rtsc (edge graph) s x).
Proof.
  intros Hwf.
  set (fuel0 := S (length start_nodes + length (nodes graph))).
  destruct (grow_terminates graph start_nodes end_nodes fuel0 Hwf)
    as [[sub prev] Hg]; [lia|].
  destruct (grow_region _ _ _ _ _ _ Hg)
    as (V & HV & Hnd & [t Ht] & Hconn & Hprev & Hhas & Hdone).
  rewrite app_nil_r in *.
  assert (∀ x, x ∈ V ↔ x ∈ sub) as HV'.
  { intros x. rewrite HV. split; [by intros [?|?%elem_of_nil]|auto]. }
  exists fuel0, sub, prev. split_and!; [|  |eauto|done| | |].
  - intros fuel Hf. by eapply grow_mono.
  - intros fuel l [prev' Hl]%sub_graph_between_nodes_Return.
    apply (grow_mono _ (fuel `max` fuel0)) in Hl; [|lia].
    apply (grow_mono _ (fuel `max` fuel0)) in Hg; [|lia]. congruence.
  - intros x y Hx Hxe Hxy. apply HV'. by eapply (proj1 (Hdone x Hx)).
  - intros x p Hx Hxs Hpx. apply HV'. by eapply (proj2 (Hdone x Hx)).
  - intros x Hx. by apply Hconn, HV'.
Qed.

Lemma sub_graph_between_nodes_region_witness :
  ∃ fuel0 sub_graph_nodes prev,
    (∀ fuel, fuel0 ≤ fuel →
       grow fuel side_input_graph ["A"] ["D"] = Some (sub_graph_nodes, prev))
    ∧ (∀ fuel l,
         sub_graph_between_nodes fuel side_input_graph ["A"] ["D"] = Some (Return l) →
         l = sub_graph_nodes)
    ∧ (∃ t, sub_graph_nodes = ["A"] ++ t)
    ∧ (NoDup ["A"] → NoDup sub_graph_nodes)
    ∧ (∀ x y, x ∈ sub_graph_nodes → x ∉ ["D"] → edge side_input_graph x y →
              y ∈ sub_graph_nodes)
    ∧ (∀ x p, x ∈ sub_graph_nodes → x ∉ ["A"] → edge side_input_graph p x →
              p ∈ sub_graph_nodes)
    ∧ (∀ x, x ∈ sub_graph_nodes →
            ∃ s, s ∈ ["A"] ∧ rtsc (edge side_input_graph) s x).
Proof.
  exact (sub_graph_between_nodes_region side_input_graph ["A"] ["D"]
           wf_side_input_graph).
Defined.

(** X10: after the first loop of [sub_graph_between_nodes], a collected
    node has no ['prev'] exactly when it is a start node, and ['prev'] of
    any other collected node is a collected node that stands before it in
    the list and has an edge to it or from it: the path that is logged
    goes back along edges to a start node. *)
Theorem prev_leads_to_start graph start_nodes end_nodes :
  wf_graph graph →
  ∃ fuel0 sub_graph_nodes prev,
    (∀ fuel, fuel0 ≤ fuel →
       grow fuel graph start_nodes end_nodes = Some (sub_graph_nodes, prev))
    ∧ (∀ n, n ∈ sub_graph_nodes → prev !! n = None ↔ n ∈ start_nodes)
    ∧ (∀ n p, prev !! n = Some p →
         n ∈ sub_graph_nodes ∧ p ∈ sub_graph_nodes
         ∧ (edge graph p n ∨ edge graph n p)
         ∧ before sub_graph_nodes p n).
Proof.
  intros Hwf.
  set (fuel0 := S (length start_nodes + length (nodes graph))).
  destruct (grow_terminates graph start_nodes end_nodes fuel0 Hwf)
    as [[sub prev] Hg]; [lia|].
  destruct (grow_region _ _ _ _ _ _ Hg)
    as (V & HV & Hnd & [t Ht] & Hconn & Hprev & Hhas & Hdone).
  rewrite app_nil_r in *.
  exists fuel0, sub, prev. split_and!.
  - intros fuel Hf. by eapply grow_mono.
  - intros n Hn. split.
    + intros Hnone. destruct (decide (n ∈ start_nodes)) as [|Hns]; [done|].
      destruct (Hhas n) as [p Hp]; [apply HV; auto|done|congruence].
    + intros Hns. destruct (prev !! n) as [p|] eqn:E; [|done].
      by apply Hprev in E as (? & _).
  - intros n p (? & ? & ? & Hb)%Hprev. split_and!; [|done..].
    destruct Hb as (l1 & l2 & -> & _). apply elem_of_app. right. by left.
Qed.

Lemma prev_leads_to_start_witness :
  ∃ fuel0 sub_graph_nodes prev,
    (∀ fuel, fuel0 ≤ fuel →
       grow fuel side_input_graph ["A"] ["D"] = Some (sub_graph_nodes, prev))
    ∧ (∀ n, n ∈ sub_graph_nodes → prev !! n = None ↔ n ∈ ["A"])
    ∧ (∀ n p, prev !! n = Some p →
         n ∈ sub_graph_nodes ∧ p ∈ sub_graph_nodes
         ∧ (edge side_input_graph p n ∨ edge side_input_graph n p)
         ∧ before sub_graph_nodes p n).
Proof.
  exact (prev_leads_to_start side_input_graph ["A"] ["D"] wf_side_input_graph).
Defined.

(** X11: for every start node, depth and [next_node_fn],
    [node_neighbourhood] ends without [KeyError] and returns, each once,
    the start node and the nodes that a path of at most [depth] steps of
    [next_node_fn] reaches from it; with a depth that is zero or negative
    it returns the start node alone. *)
Theorem node_neighbourhood_exact node_name depth next_node_fn :
  ∃ fuel0 l,
    (∀ fuel, fuel0 ≤ fuel →
       node_neighbourhood fuel node_name depth next_node_fn = Some (Return l))
    ∧ NoDup l
    ∧ (∀ x, x ∈ l ↔ ∃ k, nsteps (nbr next_node_fn) k node_name x
                         ∧ (k = 0 ∨ (Z.of_nat k ≤ depth)%Z))
    ∧ ((depth ≤ 0)%Z → l = [node_name]).
Proof.
  destruct (node_neighbourhood_spec next_node_fn depth node_name)
    as (fuel0 & l & Hl & Hnd & Hx).
  exists fuel0, l. split_and!; [done..|].
  intros Hd. apply NoDup_only_elem; [done|]. intros x. rewrite Hx. split.
  - intros (k & Hk & Hkd). assert (k = 0) as -> by lia. by inversion Hk.
  - intros ->. exists 0. split; [constructor|by left].
Qed.

(** X12: [node_outcoming_neighbourhood] returns the nodes that a path of
    at most [depth] edges reaches from the node, and
    [node_incoming_neighbourhood] those from which such a path reaches it;
    so [x] is in the outcoming neighbourhood of [n] exactly when [n] is in
    the incoming neighbourhood of [x]. *)
Theorem neighbourhood_duality graph n x depth :
  ∃ fuel0 l_out l_in,
    (∀ fuel, fuel0 ≤ fuel →
       node_outcoming_neighbourhood fuel graph n depth = Some (Return l_out)
       ∧ node_incoming_neighbourhood fuel graph x depth = Some (Return l_in))
    ∧ (∀ y, y ∈ l_out ↔ ∃ k, nsteps (edge graph) k n y
                             ∧ (k = 0 ∨ (Z.of_nat k ≤ depth)%Z))
    ∧ (∀ y, y ∈ l_in ↔ ∃ k, nsteps (edge graph) k y x
                            ∧ (k = 0 ∨ (Z.of_nat k ≤ depth)%Z))
    ∧ (x ∈ l_out ↔ n ∈ l_in).
Proof.
  destruct (node_neighbourhood_spec (λ n, (out_edges graph n).*2) depth n)
    as (f1 & l1 & H1 & _ & Hl1).
  destruct (node_neighbourhood_spec (λ n, (in_edges graph n).*1) depth x)
    as (f2 & l2 & H2 & _ & Hl2).
  assert (∀ y, y ∈ l1 ↔ ∃ k, nsteps (edge graph) k n y
                             ∧ (k = 0 ∨ (Z.of_nat k ≤ depth)%Z)) as Hout.
  { intros y. rewrite Hl1. by setoid_rewrite nsteps_out_edges. }
  assert (∀ y, y ∈ l2 ↔ ∃ k, nsteps (edge graph) k y x
                             ∧ (k = 0 ∨ (Z.of_nat k ≤ depth)%Z)) as Hin.
  { intros y. rewrite Hl2. by setoid_rewrite nsteps_in_edges. }
  exists (f1 `max` f2), l1, l2. split_and!; [|done..|].
  - intros fuel Hf. split; [apply H1|apply H2]; lia.
  - by rewrite Hout, Hin.
Qed.

(** X13: [scope_output_nodes] raises [IndexError] on the empty scope; on
    any other scope it returns the nodes of the graph whose id begins
    with the scope, completed with the delimiter, and that have an out
    edge to a node whose id does not. *)
Theorem scope_output_nodes_spec graph scope scope_delimiter :
  (scope = EmptyString →
   scope_output_nodes graph scope scope_delimiter = inl IndexError)
  ∧ (scope ≠ EmptyString →
     ∃ c result,
       last_char scope = Some c
       ∧ scope_output_nodes graph scope scope_delimiter = inr result
       ∧ ∀ n, n ∈ result
              ↔ n ∈ nodes graph
                ∧ (∃ t, n = String.append (scope_prefix scope scope_delimiter c) t)
                ∧ ∃ out, edge graph n out
                         ∧ ¬ ∃ t, out = String.append
                                          (scope_prefix scope scope_delimiter c) t).
Proof.
  split.
  - by intros ->.
  - intros Hne. unfold scope_output_nodes.
    destruct (last_char scope) as [c|] eqn:E; [|by apply last_char_None in E].
    exists c, (foldl (scope_visit graph (scope_prefix scope scope_delimiter c))
                 ∅ (nodes graph)).
    split_and!; [done..|]. intros n. rewrite scope_fold, startswith_spec.
    split.
    + intros [?|(? & ? & out & ? & Hout)]; [set_solver|].
      split_and!; [done..|]. exists out. split; [done|].
      intros Ht%startswith_spec. congruence.
    + intros (? & ? & out & ? & Hout). right. split_and!; [done..|].
      exists out. split; [done|]. apply not_true_is_false.
      by rewrite startswith_spec.
Qed.

(** X14: with a delimiter of one character, a scope and the same scope
    followed by the delimiter give the same nodes, when the scope is not
    empty and does not end with the delimiter already. *)
Theorem scope_output_nodes_delimiter graph scope c :
  scope ≠ EmptyString → last_char scope ≠ Some c →
  scope_output_nodes graph (String.append scope (String c EmptyString))
                     (String c EmptyString)
  = scope_output_nodes graph scope (String c EmptyString).
Proof.
  intros Hne Hc. unfold scope_output_nodes. rewrite last_char_append.
  destruct (last_char scope) as [c'|] eqn:E; [|by apply last_char_None in E].
  unfold scope_prefix. rewrite decide_False; [|by intros H; apply H].
  rewrite decide_True; [done|]. congruence.
Qed.

Lemma scope_output_nodes_delimiter_witness :
  scope_output_nodes scope_graph (String.append "blockA" "/") "/"
  = scope_output_nodes scope_graph "blockA" "/".
Proof. by apply scope_output_nodes_delimiter. Defined.

(** X15: whenever [backward_bfs_for_operation] returns, it returns exactly
    the operators with an op of [op_names] that have an edge to the start
    node or to a node reached from it, backwards, through operators with
    another op and data nodes without value only; each of them has a path
    to the start node.  On a well-formed graph without cycle it returns. *)
Theorem backward_bfs_for_operation_result graph start_node op_names :
  (∀ fuel ret,
     backward_bfs_for_operation fuel graph start_node op_names = Some ret →
     (∀ p, p ∈ ret
           ↔ bbfs_match graph op_names p
             ∧ ∃ y, bbfs_expanded graph op_names start_node y ∧ edge graph p y)
     ∧ ∀ p, p ∈ ret → tc (edge graph) p start_node)
  ∧ (wf_graph graph → acyclic graph →
     ∃ fuel0 ret, ∀ fuel, fuel0 ≤ fuel →
       backward_bfs_for_operation fuel graph start_node op_names = Some ret).
Proof.
  split; [|apply bbfs_terminates_acyclic].
  intros fuel ret H.
  assert (∀ p, p ∈ ret
               ↔ bbfs_match graph op_names p
                 ∧ ∃ y, bbfs_expanded graph op_names start_node y ∧ edge graph p y)
    as Hret.
  { intros p. split; [by eapply bbfs_sound|].
    intros (Hm & y & Hy & Hpy).
    eapply (proj2 (bbfs_complete _ _ _ _ _ _ H)); [by left|done..]. }
  split; [done|]. intros p (_ & y & Hy & Hpy)%Hret.
  eapply tc_rtc_r; [by apply tc_once|]. by eapply bbfs_expanded_reach.
Qed.

(** X16: on a well-formed graph, [bfs_search] with no start nodes and
    [pseudo_topological_sort] return the same nodes, each once: one list
    is a permutation of the other. *)
Theorem bfs_search_pseudo_topological_sort graph reverse :
  wf_graph graph →
  ∃ fuel0 result order,
    (∀ fuel, fuel0 ≤ fuel →
       bfs_search fuel graph [] = Some result
       ∧ pseudo_topological_sort fuel graph reverse = Some order)
    ∧ result ≡ₚ order.
Proof.
  intros Hwf.
  destruct (bfs_loop_spec graph (nodes_without_inputs graph) Hwf)
    as (f1 & result & Hres & Hreach & Hnd & _).
  destruct (pts_loop_reach graph (dfs_fuel graph) (nodes_without_inputs graph)
              Hwf (reflexivity _) ∅ [])
    as (O & HO & HndO & Hcl & _ & Hl & Hr);
    [set_solver|apply NoDup_nil_2|set_solver|].
  assert (∀ x, x ∈ O ↔ ∃ s, s ∈ nodes_without_inputs graph ∧ reachable graph s x)
    as HOx.
  { intros x. split.
    - intros [?%elem_of_nil|?]%Hr; done.
    - intros (s & Hs%Hl & Hsx).
      induction Hsx as [|a b c Hab _ IH]; [done|]. apply IH. by eapply Hcl. }
  assert (result ≡ₚ O) as Hperm.
  { apply NoDup_Permutation; [apply Hnd, NoDup_filter, Hwf|done|].
    intros x. by rewrite Hreach, HOx. }
  exists (f1 `max` dfs_fuel graph), result, (if reverse then O else rev O).
  split.
  - intros fuel Hf. split; [apply Hres; lia|].
    unfold pseudo_topological_sort.
    rewrite (pts_loop_mono _ fuel _ _ _ _ _ HO); [done|lia].
  - destruct reverse; [done|]. etrans; [exact Hperm|apply Permutation_rev].
Qed.

Lemma bfs_search_pseudo_topological_sort_witness :
  ∃ fuel0 result order,
    (∀ fuel, fuel0 ≤ fuel →
       bfs_search fuel chain4 [] = Some result
       ∧ pseudo_topological_sort fuel chain4 false = Some order)
    ∧ result ≡ₚ order.
Proof. exact (bfs_search_pseudo_topological_sort chain4 false wf_chain4). Defined.

(** X17: on a well-formed graph, [bfs_search] from one start node and
    [dfs] from the same node with an empty [visited] return the same
    nodes, each once: one list is a permutation of the other. *)
Theorem bfs_search_dfs graph node_name :
  wf_graph graph →
  ∃ fuel0 result order visited,
    (∀ fuel, fuel0 ≤ fuel →
       bfs_search fuel graph [node_name] = Some result
       ∧ dfs fuel graph node_name ∅ = Some (order, visited))
    ∧ result ≡ₚ order.
Proof.
  intros Hwf.
  destruct (bfs_loop_spec graph [node_name] Hwf)
    as (f1 & result & Hres & Hreach & Hnd & _).
  destruct (dfs_terminates graph (dfs_fuel graph) node_name ∅ Hwf)
    as [[order V] Hdfs]; [done|].
  pose proof (dfs_fresh _ _ _ _ _ _ (not_elem_of_empty node_name) Hdfs)
    as (Hndo & _ & _).
  pose proof (dfs_empty_reachable _ _ _ _ _ Hdfs) as Ho.
  exists (f1 `max` dfs_fuel graph), result, order, V. split.
  - intros fuel Hf. split; [apply Hres; lia|].
    unfold dfs in *. eapply while_mono; [done|lia].
  - apply NoDup_Permutation; [apply Hnd, NoDup_singleton|done|].
    intros x. rewrite Hreach, Ho. split.
    + by intros (s & ->%list_elem_of_singleton & ?).
    + intros ?. exists node_name. split; [by left|done].
Qed.

Lemma bfs_search_dfs_witness :
  ∃ fuel0 result order visited,
    (∀ fuel, fuel0 ≤ fuel →
       bfs_search fuel chain4 ["B"] = Some result
       ∧ dfs fuel chain4 "B" ∅ = Some (order, visited))
    ∧ result ≡ₚ order.
Proof. exact (bfs_search_dfs chain4 "B" wf_chain4). Defined.

(** X18: the nodes that the first loop of [sub_graph_between_nodes]
    collects include every node at the end of a path from a start node
    that leaves no end node, and, with a node that is not a start node,
    every node from which a path leads to it that enters no start node
    after its first node. *)
Theorem sub_graph_between_nodes_paths graph start_nodes end_nodes :
  wf_graph graph →
  ∃ fuel0 sub_graph_nodes prev,
    (∀ fuel, fuel0 ≤ fuel →
       grow fuel graph start_nodes end_nodes = Some (sub_graph_nodes, prev))
    ∧ (∀ s e, s ∈ start_nodes →
         rtc (λ x y, x ∉ end_nodes ∧ edge graph x y) s e →
         e ∈ sub_graph_nodes)
    ∧ (∀ x p, x ∈ sub_graph_nodes →
         rtc (λ a b, a ∉ start_nodes ∧ edge graph b a) x p →
         p ∈ sub_graph_nodes).
Proof.
  intros Hwf.
  set (fuel0 := S (length start_nodes + length (nodes graph))).
  destruct (grow_terminates graph start_nodes end_nodes fuel0 Hwf)
    as [[sub prev] Hg]; [lia|].
  destruct (grow_region _ _ _ _ _ _ Hg)
    as (V & HV & Hnd & [t Ht] & Hconn & Hprev & Hhas & Hdone).
  rewrite app_nil_r in *.
  assert (∀ x, x ∈ V ↔ x ∈ sub) as HV'.
  { intros x. rewrite HV. split; [by intros [?|?%elem_of_nil]|auto]. }
  exists fuel0, sub, prev. split_and!.
  - intros fuel Hf. by eapply grow_mono.
  - intros s e Hs Hse.
    assert (s ∈ sub) as Hsub by (rewrite Ht; apply elem_of_app; auto).
    clear Hs. induction Hse as [|a b c [Ha Hab] _ IH]; [done|].
    apply IH, HV'. by eapply (proj1 (Hdone a Hsub)).
  - intros x p Hx Hxp.
    induction Hxp as [|a b c [Ha Hab] _ IH]; [done|].
    apply IH, HV'. by eapply (proj2 (Hdone a Hx)).
Qed.

Lemma sub_graph_between_nodes_paths_witness :
  ∃ fuel0 sub_graph_nodes prev,
    (∀ fuel, fuel0 ≤ fuel →
       grow fuel side_input_graph ["A"] ["D"] = Some (sub_graph_nodes, prev))
    ∧ (∀ s e, s ∈ ["A"] →
         rtc (λ x y, x ∉ ["D"] ∧ edge side_input_graph x y) s e →
         e ∈ sub_graph_nodes)
    ∧ (∀ x p, x ∈ sub_graph_nodes →
         rtc (λ a b, a ∉ ["A"] ∧ edge side_input_graph b a) x p →
         p ∈ sub_graph_nodes).
Proof.
  exact (sub_graph_between_nodes_paths side_input_graph ["A"] ["D"]
           wf_side_input_graph).
Defined.

(** X19: on a well-formed graph [sub_graph_between_nodes] ends, and it
    returns a list, the one its first loop has collected, exactly when
    every end node is reachable from a start node and every collected node
    is a node of the graph whose op is not ['Placeholder']; otherwise it
    raises the error for an end node that is not reachable, the error for
    a collected node whose op is ['Placeholder'], or the [KeyError] of
    [graph.node[node_name]] for a start node that is not a node of the
    graph, which does not happen when the start nodes are nodes of the
    graph. *)
Theorem sub_graph_between_nodes_returns graph start_nodes end_nodes :
  wf_graph graph →
  ∃ fuel0 sub_graph_nodes prev out,
    grow fuel0 graph start_nodes end_nodes = Some (sub_graph_nodes, prev)
    ∧ (∀ fuel, fuel0 ≤ fuel →
         sub_graph_between_nodes fuel graph start_nodes end_nodes = Some out)
    ∧ (out = Return sub_graph_nodes
       ↔ (∀ e, e ∈ end_nodes → ∃ s, s ∈ start_nodes ∧ reachable graph s e)
         ∧ (∀ n, n ∈ sub_graph_nodes →
                 ∃ o, get_op graph n = Return o ∧ o ≠ "Placeholder"))
    ∧ (out = Return sub_graph_nodes
       ∨ (∃ e, e ∈ end_nodes
               ∧ (∀ s, s ∈ start_nodes → ¬ reachable graph s e)
               ∧ out = Raise (Error (EndNodeNotReachable e start_nodes)))
       ∨ (∃ n, n ∈ sub_graph_nodes
               ∧ get_op graph n = Return "Placeholder"
               ∧ out = Raise (Error (ContainsNetworkInput n)))
       ∨ (∃ n, n ∈ sub_graph_nodes
               ∧ n ∈ start_nodes ∧ n ∉ nodes graph
               ∧ get_op graph n = Raise (KeyError n)
               ∧ out = Raise (KeyError n)))
    ∧ ((∀ s, s ∈ start_nodes → s ∈ nodes graph) →
       ∀ n, out ≠ Raise (KeyError n)).
Proof.
  intros Hwf.
  destruct (sub_graph_between_nodes_result graph start_nodes end_nodes Hwf)
    as (fuel0 & sub & prev & fv & Hg & Hfv & Hreach & Hres).
  assert (∀ n, n ∈ sub → node graph !! n = None →
               n ∈ start_nodes ∧ n ∉ nodes graph) as Hkey.
  { intros n Hn Hnone.
    assert (n ∉ nodes graph) as Hnn.
    { intros Hnn. destruct (wf_attrs _ Hwf n Hnn) as (a & Ha & _). congruence. }
    by destruct (grow_nodes _ _ _ _ _ _ Hwf Hg n Hn). }
  eexists fuel0, sub, prev, _. split_and!; [done|exact Hres| | |].
  - destruct (List.find _ end_nodes) as [e|] eqn:E1.
    { apply find_Some_elem_of in E1 as [He Hefv]. apply bool_decide_eq_true in Hefv.
      split; [done|]. intros [Hends _]. destruct Hefv. apply Hreach. auto. }
    assert (∀ e, e ∈ end_nodes → ∃ s, s ∈ start_nodes ∧ reachable graph s e)
      as Hends.
    { intros e He. eapply find_None_elem_of in E1; [|done].
      apply bool_decide_eq_false in E1. by apply Hreach, dec_stable. }
    rewrite inputs_outcome_Return. split; [by intros [_ ?]|by intros [_ ?]].
  - destruct (List.find _ end_nodes) as [e|] eqn:E1.
    { apply find_Some_elem_of in E1 as [He Hefv]. apply bool_decide_eq_true in Hefv.
      right; left. exists e. split_and!; [done| |done].
      intros s Hs Hse. apply Hefv, Hreach. eauto. }
    destruct (inputs_outcome graph sub sub) as [r|e] eqn:E2.
    { apply inputs_outcome_Return in E2 as [-> _]. by left. }
    apply inputs_outcome_Raise in E2 as (l1 & n & l2 & Hsub & _ & [[Hn ->]|[Hn ->]]).
    + right; right; left. exists n. split_and!; [|done..].
      rewrite Hsub. apply elem_of_app. right. by left.
    + right; right; right. exists n.
      assert (n ∈ sub) as Hin.
      { rewrite Hsub. apply elem_of_app. right. by left. }
      destruct (Hkey n Hin Hn). split_and!; [done..| |done].
      by apply get_op_Raise.
  - intros Hstart n.
    destruct (List.find _ end_nodes) as [e|]; [done|]. intros E2.
    apply inputs_outcome_Raise in E2 as (l1 & n' & l2 & Hsub & _ & [[_ ?]|[Hn _]]);
      [done|].
    destruct (Hkey n') as [Hs Hnn]; [|done|].
    + rewrite Hsub. apply elem_of_app. right. by left.
    + by apply Hstart in Hs.
Qed.

Lemma sub_graph_between_nodes_returns_witness :
  ∃ fuel0 sub_graph_nodes prev out,
    grow fuel0 chain4 ["A"] ["D"] = Some (sub_graph_nodes, prev)
    ∧ (∀ fuel, fuel0 ≤ fuel →
         sub_graph_between_nodes fuel chain4 ["A"] ["D"] = Some out)
    ∧ (out = Return sub_graph_nodes
       ↔ (∀ e, e ∈ ["D"] → ∃ s, s ∈ ["A"] ∧ reachable chain4 s e)
         ∧ (∀ n, n ∈ sub_graph_nodes →
                 ∃ o, get_op chain4 n = Return o ∧ o ≠ "Placeholder"))
    ∧ (out = Return sub_graph_nodes
       ∨ (∃ e, e ∈ ["D"]
               ∧ (∀ s, s ∈ ["A"] → ¬ reachable chain4 s e)
               ∧ out = Raise (Error (EndNodeNotReachable e ["A"])))
       ∨ (∃ n, n ∈ sub_graph_nodes
               ∧ get_op chain4 n = Return "Placeholder"
               ∧ out = Raise (Error (ContainsNetworkInput n)))
       ∨ (∃ n, n ∈ sub_graph_nodes
               ∧ n ∈ ["A"] ∧ n ∉ nodes chain4
               ∧ get_op chain4 n = Raise (KeyError n)
               ∧ out = Raise (KeyError n)))
    ∧ ((∀ s, s ∈ ["A"] → s ∈ nodes chain4) →
       ∀ n, out ≠ Raise (KeyError n)).
Proof. exact (sub_graph_between_nodes_returns chain4 ["A"] ["D"] wf_chain4). Defined.

(** A start node that is not a node of the graph: on the chain
    A -> B -> C -> D with the start nodes A and Z the end node D is
    reachable, and the last loop raises [KeyError] at Z, the second node
    collected. *)
Example sub_graph_between_nodes_missing_start :
  ∀ fuel, 10 ≤ fuel →
    sub_graph_between_nodes fuel chain4 ["A"; "Z"] ["D"]
    = Some (Raise (KeyError "Z")).
Proof.
  intros fuel Hf. eapply sub_graph_between_nodes_mono; [|done]. by_computation.
Qed.
